(** * Retrieval engine of the clean-architecture workshop: a shallow embedding

    The development follows [mcp-fixer-api/app/rag.py] (class [KnowledgeBase]
    and the module-level cache behind [get_kb]) and the retrieval cell of
    [genai-hands-on-session3.py].

    Python values are modelled as follows.
    - A [str] is the list of its Unicode code points ([list N]).
    - Exceptions are values of [exn]; a call that may raise returns
      [exn + A].
    - The sentence-embedding model and the flat L2 index are libraries
      outside the repository.  The embedder is a parameter of the
      development; the index is modelled after the behaviour its Python
      binding documents (see [IndexFlatL2_search]). *)
From Stdlib Require Import ZArith NArith QArith Lqa List Lia String Ascii Bool.

From stdpp Require Import base list gmap sorting.

Local Open Scope N_scope.

(* ===================================================================== *)
(** ** Python strings *)
(* ===================================================================== *)

Abbreviation str := (list N).

(** Code points of an ASCII literal, to write test data legibly. *)
Fixpoint of_string (s : string) : str :=
  match s with
  | EmptyString => []
  | String a s' => N_of_ascii a :: of_string s'
  end.

Definition NL : N := 10.

Definition ZWSP : N := 8203.   (* U+200B *)

Definition BOM : N := 65279.   (* U+FEFF *)

(** [str.isspace] on one code point, which is also the class [\s] of [re]
    on [str] patterns: the code points whose bidirectional class is WS, B
    or S, or whose general category is Zs. *)
Definition isspace (c : N) : bool :=
  ((9 <=? c) && (c <=? 13)) || ((28 <=? c) && (c <=? 32))
  || (c =? 133) || (c =? 160) || (c =? 5760)
  || ((8192 <=? c) && (c <=? 8202))
  || (c =? 8232) || (c =? 8233) || (c =? 8239) || (c =? 8287) || (c =? 12288).

Definition is_nl (c : N) : bool := c =? NL.

(** [s.lstrip()], [s.rstrip()], [s.strip()]. *)
Fixpoint lstrip (s : str) : str :=
  match s with
  | c :: t => if isspace c then lstrip t else s
  | [] => []
  end.

Definition rstrip (s : str) : str := rev (lstrip (rev s)).

Definition strip (s : str) : str := rstrip (lstrip s).

(** [sep.join(xs)]. *)
Fixpoint join (sep : str) (xs : list str) : str :=
  match xs with
  | [] => []
  | [x] => x
  | x :: xs' => x ++ sep ++ join sep xs'
  end.

(** [s.replace(c, '')] for a one-character [c]. *)
Definition remove_char (c : N) (s : str) : str :=
  List.filter (fun x => negb (x =? c)) s.

(** [s.endswith(suffix)]. *)
Fixpoint startswith (p s : str) : bool :=
  match p, s with
  | [], _ => true
  | a :: p', b :: s' => (a =? b) && startswith p' s'
  | _ :: _, [] => false
  end.

Definition endswith (suffix s : str) : bool := startswith (rev suffix) (rev s).

(** [p in s] (substring test). *)
Fixpoint contains (p s : str) : bool :=
  startswith p s || match s with [] => false | _ :: t => contains p t end.

(** Comparison of two [str]: lexicographic on code points, as [sorted]
    uses it. *)
Fixpoint str_leb (a b : str) : bool :=
  match a, b with
  | [], _ => true
  | _ :: _, [] => false
  | x :: a', y :: b' => (x <? y) || ((x =? y) && str_leb a' b')
  end.

(* ===================================================================== *)
(** ** The regular expression of the chunker and [re.split] *)
(* ===================================================================== *)

(** The fragment of [re] the chunker needs: a pattern is a sequence of
    items, each a character class or the greedy star of one. *)
Inductive item : Type :=
  | One (p : N -> bool)
  | Many (p : N -> bool).

(** Backtracking match of [re] at the head of [s]; the result is what is
    left of [s] after the match.  [Many] is greedy: it takes a character
    whenever it can and gives it back only when the rest of the pattern
    fails. *)
Fixpoint match_here (re : list item) (s : str) : option str :=
  match re with
  | [] => Some s
  | One p :: re' =>
      match s with
      | c :: t => if p c then match_here re' t else None
      | [] => None
      end
  | Many p :: re' =>
      (fix many (s : str) : option str :=
         match s with
         | c :: t =>
             if p c
             then match many t with
                  | Some r => Some r
                  | None => match_here re' s
                  end
             else match_here re' s
         | [] => match_here re' s
         end) s
  end.

(** [re.split(re, s)]: the text between successive leftmost matches.  The
    scan keeps the piece read so far in [cur], reversed.  [fuel] bounds the
    number of steps; [length s] is enough for a pattern that never matches
    the empty string, the only kind used here. *)
Fixpoint split_from (re : list item) (fuel : nat) (cur s : str) : list str :=
  match fuel with
  | O => [rev cur ++ s]
  | S fuel' =>
      match s with
      | [] => [rev cur]
      | c :: t =>
          match match_here re s with
          | Some rest => rev cur :: split_from re fuel' [] rest
          | None => split_from re fuel' (c :: cur) t
          end
      end
  end.

Definition re_split (re : list item) (s : str) : list str :=
  split_from re (length s) [] s.

(** [r'\n\s*\n'] *)
Definition paragraph_break : list item := [One is_nl; Many isspace; One is_nl].

(** The chunker, as both call sites write it:
    [re.split(r'\n\s*\n', corpus.strip())]. *)
Definition chunker (corpus : str) : list str :=
  re_split paragraph_break (strip corpus).

(* ===================================================================== *)
(** ** Whitespace *)
(* ===================================================================== *)

(** A string of whitespace only. *)
Definition blank (w : str) : bool := forallb isspace w.

(** The string does not start, respectively end, with whitespace (the
    empty string included): what [lstrip] and [rstrip] leave unchanged. *)
Definition starts_solid (s : str) : Prop :=
  match s with [] => True | c :: _ => isspace c = false end.

Definition ends_solid (s : str) : Prop := starts_solid (rev s).

(* ===================================================================== *)
(** ** Auxiliary functions for reasoning about the scan *)
(* ===================================================================== *)

(** The tail [\s*\n] of the pattern. *)
Definition gap (s : str) : option str := match_here [Many isspace; One is_nl] s.

(** What is left of a whitespace run after its last newline, and what
    comes before its first newline. *)
Fixpoint after_last_nl (u : str) : str :=
  match u with
  | [] => []
  | c :: t => if existsb is_nl t then after_last_nl t
              else if is_nl c then t else c :: t
  end.

Fixpoint before_first_nl (u : str) : str :=
  match u with
  | [] => []
  | c :: t => if is_nl c then [] else c :: before_first_nl t
  end.

Fixpoint from_first_nl (u : str) : str :=
  match u with
  | [] => []
  | c :: t => if is_nl c then t else from_first_nl t
  end.

(** The scan with exactly the fuel [re_split] gives it. *)
Definition pieces (cur s : str) : list str :=
  split_from paragraph_break (length s) cur s.

(** No paragraph break starts inside [a], whatever text follows it. *)
Definition solid (a : str) : Prop :=
  forall u v r, a = u ++ v -> v <> [] -> match_here paragraph_break (v ++ r) = None.

(* ===================================================================== *)
(** ** Paragraphs and separators, in the words of the specification *)
(* ===================================================================== *)

(** A blank-line-separated break: two newlines with only whitespace
    between them. *)
Definition blank_line_break (s : str) : Prop :=
  exists u w v, s = u ++ NL :: w ++ NL :: v /\ blank w = true.

(** A paragraph: non-empty text that neither starts nor ends with
    whitespace and has no break inside. *)
Definition paragraph (p : str) : Prop :=
  p <> [] /\ starts_solid p /\ ends_solid p /\ ~ blank_line_break p.

(** What separates two paragraphs: whitespace holding at least one blank
    line. *)
Definition separator (u : str) : Prop :=
  blank u = true /\ blank_line_break u.

(** A corpus body: a first paragraph, then separator-paragraph pairs. *)
Fixpoint assemble (p : str) (rest : list (str * str)) : str :=
  match rest with
  | [] => p
  | (u, q) :: rest' => p ++ u ++ assemble q rest'
  end.

(** The pieces [re.split] cuts such a body into: a separator is consumed
    from its first to its last newline; whitespace of the separator outside
    that span stays with the neighbouring paragraph. *)
Fixpoint chunks_of (p : str) (rest : list (str * str)) : list str :=
  match rest with
  | [] => [p]
  | (u, q) :: rest' =>
      (p ++ before_first_nl u) :: chunks_of (after_last_nl u ++ q) rest'
  end.

(** A decision procedure for [blank_line_break], to check examples. *)
Fixpoint has_break (s : str) : bool :=
  match match_here paragraph_break s with
  | Some _ => true
  | None => match s with [] => false | _ :: t => has_break t end
  end.

(* ===================================================================== *)
(** ** Exceptions, list indexing, sorting *)
(* ===================================================================== *)

(** The exceptions the modelled calls can raise. *)
Inductive exn : Type :=
  | OSError              (* [os.listdir], [open], [read], loading the model *)
  | UnicodeDecodeError   (* [read] of a file that is not UTF-8 *)
  | AssertionError       (* an [assert] of the index binding *)
  | IndexError           (* list index out of range *)
  | AttributeError.      (* method call on [None] *)

(** [l[i]] on a Python list: a negative [i] counts from the end. *)
Definition py_index {A : Type} (l : list A) (i : Z) : exn + A :=
  let n := Z.of_nat (length l) in
  let j := if (i <? 0)%Z then (i + n)%Z else i in
  if ((0 <=? j) && (j <? n))%Z
  then match l !! Z.to_nat j with
       | Some x => inr x
       | None => inl IndexError
       end
  else inl IndexError.

(** [[l[i] for i in idx]]: the first failing lookup raises. *)
Fixpoint py_index_all {A : Type} (l : list A) (idx : list Z) : exn + list A :=
  match idx with
  | [] => inr []
  | i :: idx' =>
      match py_index l i with
      | inl e => inl e
      | inr x =>
          match py_index_all l idx' with
          | inl e => inl e
          | inr xs => inr (x :: xs)
          end
      end
  end.

Definition str_le (a b : str) : Prop := str_leb a b = true.

#[global] Instance str_le_dec a b : Decision (str_le a b).
Proof. unfold str_le. apply _. Defined.

(** [sorted(names)] on a list of [str]. *)
Definition sorted (names : list str) : list str := merge_sort str_le names.

(** [os.path.join(a, b)] (POSIX). *)
Definition os_path_join (a b : str) : str :=
  if startswith (of_string "/") b then b
  else match a with
       | [] => b
       | _ => if endswith (of_string "/") a then a ++ b
              else a ++ of_string "/" ++ b
       end.

(* ===================================================================== *)
(** ** The world outside the program *)
(* ===================================================================== *)

(** The file system and the model store at the time of a call. *)
Record Env : Type := {
  os_listdir : str -> exn + list str;   (* names in a directory, any order *)
  open_read : str -> exn + str;         (* [open(path, encoding="utf-8").read()] *)
  load_model : str -> option exn;       (* [SentenceTransformer(name)]; [None]: it loads *)
}.

(** The two numeric libraries.  [Vector] is a float vector of the model's
    dimension.  The embedder may depend on a hidden state ([Hidden]) that
    every call to [encode] advances, so that nothing here forces two
    encodings of a text to agree.  [l2sqr] is the squared L2 distance as the
    index computes it, a rational since every finite float is one. *)
Class Backend : Type := {
  Vector : Type;
  Hidden : Type;
  embed : Hidden -> str -> Vector;
  advance : Hidden -> Hidden;
  l2sqr : Vector -> Vector -> Q;
}.

(** The assumption of the specification on the embedder: the same text
    gives the same vector. *)
Definition deterministic `{Backend} : Prop :=
  forall (h h' : Hidden) (t : str), embed h t = embed h' t.

(** [model.encode(texts)]: one vector per text, in order. *)
Definition encode `{Backend} (texts : list str) (h : Hidden) : list Vector * Hidden :=
  (List.map (embed h) texts, advance h).

(* ===================================================================== *)
(** ** The flat L2 index *)
(* ===================================================================== *)

(** [faiss.IndexFlatL2]: the stored vectors, in insertion order. *)
Record IndexFlatL2 `{Backend} : Type := { xb : list Vector }.

Definition IndexFlatL2_new `{Backend} : IndexFlatL2 := {| xb := [] |}.

Definition IndexFlatL2_add `{Backend} (ix : IndexFlatL2) (vs : list Vector) : IndexFlatL2 :=
  {| xb := xb ix ++ vs |}.

(** Order of the candidates: by distance, equal distances by position. *)
Definition key_leb (a b : Q * nat) : bool :=
  if Qeq_bool (fst a) (fst b) then Nat.leb (snd a) (snd b)
  else Qle_bool (fst a) (fst b).

Definition key_le (a b : Q * nat) : Prop := key_leb a b = true.

#[global] Instance key_le_dec a b : Decision (key_le a b).
Proof. unfold key_le. apply _. Defined.

(** Every stored vector with its distance to [q] and its position. *)
Definition candidates `{Backend} (xs : list Vector) (q : Vector) : list (Q * nat) :=
  imap (fun i x => (l2sqr q x, i)) xs.

(** The exhaustive scan: all candidates, nearest first. *)
Definition ranked `{Backend} (xs : list Vector) (q : Vector) : list (Q * nat) :=
  merge_sort key_le (candidates xs q).

(** The distance the index reports in a slot it could not fill: the
    largest finite float. *)
Definition FLT_MAX : Q := 340282346638528859811704183484516925440 # 1.

(** [index.search(q, k)] for a single query vector: the rows [D] and [I]
    of the result.  The Python binding asserts [k > 0] before it searches.
    When the index holds fewer than [k] vectors the remaining slots carry
    the label [-1]. *)
Definition IndexFlatL2_search `{Backend} (ix : IndexFlatL2) (q : Vector) (k : Z)
  : exn + (list Q * list Z) :=
  if (k <=? 0)%Z then inl AssertionError
  else
    let hits := take (Z.to_nat k) (ranked (xb ix) q) in
    let pad := (Z.to_nat k - length hits)%nat in
    inr (List.map fst hits ++ replicate pad FLT_MAX,
         List.map (fun di => Z.of_nat (snd di)) hits ++ replicate pad (-1)%Z).

(* ===================================================================== *)
(** ** [class KnowledgeBase] *)
(* ===================================================================== *)

(** The embedding model object; only its name is program data. *)
Inductive Model : Type := SentenceTransformer (name : str).

Record KnowledgeBase `{Backend} : Type := {
  kb_dir : str;
  _chunks : list str;
  _model : option Model;
  _index : option IndexFlatL2;
}.

(** The provenance header and the block [_load_files] appends for one
    file: [f"\n\n# Source: {f}\n\n{content}"]. *)
Definition header (f : str) : str := of_string "# Source: " ++ f.

Definition block (f content : str) : str :=
  [NL; NL] ++ header f ++ [NL; NL] ++ content.

(** The files [_load_files] reads: [sorted([f for f in names if f.endswith(".md")])]. *)
Definition eligible (f : str) : bool := endswith (of_string ".md") f.

Definition md_files (names : list str) : list str :=
  sorted (List.filter eligible names).

(** The [for] loop of [_load_files]; the first file that cannot be read
    raises. *)
Fixpoint read_files (env : Env) (dir : str) (files : list str) (corpus : str) : exn + str :=
  match files with
  | [] => inr corpus
  | f :: files' =>
      match open_read env (os_path_join dir f) with
      | inl e => inl e
      | inr content => read_files env dir files' (corpus ++ block f content)
      end
  end.

Definition _load_files `{Backend} (env : Env) (self : KnowledgeBase) : exn + str :=
  match os_listdir env (kb_dir self) with
  | inl e => inl e
  | inr names => read_files env (kb_dir self) (md_files names) []
  end.

Definition model_name : str := of_string "all-MiniLM-L6-v2".

(** [_load]: each assignment to a field of [self] is kept even when a
    later step raises.  The chunk list is never empty, so the array of
    embeddings has two axes and [emb.shape[1]] is defined.  The steps that
    can raise here are the listing, the reading and the loading of the
    model; the numeric calls after the model is set ([encode],
    [IndexFlatL2], [add]) are those of the [Backend], which returns. *)
Definition _load `{Backend} (env : Env) (self : KnowledgeBase) (h : Hidden)
  : (exn + unit) * KnowledgeBase * Hidden :=
  match _load_files env self with
  | inl e => (inl e, self, h)
  | inr corpus =>
      let self1 := {| kb_dir := kb_dir self; _chunks := chunker corpus;
                      _model := _model self; _index := _index self |} in
      match load_model env model_name with
      | Some e => (inl e, self1, h)
      | None =>
          let self2 := {| kb_dir := kb_dir self1; _chunks := _chunks self1;
                          _model := Some (SentenceTransformer model_name);
                          _index := _index self1 |} in
          let '(emb, h') := encode (_chunks self2) h in
          let self3 := {| kb_dir := kb_dir self2; _chunks := _chunks self2;
                          _model := _model self2;
                          _index := Some (IndexFlatL2_add IndexFlatL2_new emb) |} in
          (inr tt, self3, h')
      end
  end.

(** [KnowledgeBase(kb_dir)]: [__init__]. *)
Definition KnowledgeBase_init `{Backend} (env : Env) (dir : str) (h : Hidden)
  : (exn + unit) * KnowledgeBase * Hidden :=
  _load env {| kb_dir := dir; _chunks := []; _model := None; _index := None |} h.

(** [result.replace(ZWSP, '').replace(BOM, '')], the two characters written
    as the escapes U+200B and U+FEFF in the source. *)
Definition sanitize (s : str) : str := remove_char BOM (remove_char ZWSP s).

Definition blank_line : str := [NL; NL].

(** The body shared by [KnowledgeBase.retrieve] and
    [retrieve_relevant_rules]: encode the query, search, look the labels up
    in the chunk list, join and clean. *)
Definition retrieve_with `{Backend} (chunks : list str) (ix : IndexFlatL2)
    (query : str) (top_k : Z) (h : Hidden) : (exn + str) * Hidden :=
  let '(qemb, h') := encode [query] h in
  match qemb with
  | [q] =>
      match IndexFlatL2_search ix q top_k with
      | inl e => (inl e, h')
      | inr (_, idx) =>
          match py_index_all chunks idx with
          | inl e => (inl e, h')
          | inr texts => (inr (sanitize (join blank_line texts)), h')
          end
      end
  | _ => (inl IndexError, h')
  end.

(** [KnowledgeBase.retrieve(query, top_k)]. *)
Definition retrieve `{Backend} (self : KnowledgeBase) (query : str) (top_k : Z) (h : Hidden)
  : (exn + str) * Hidden :=
  match _model self, _index self with
  | Some _, Some ix => retrieve_with (_chunks self) ix query top_k h
  | _, _ => (inl AttributeError, h)
  end.

(** The default of the parameter [top_k]. *)
Definition default_top_k : Z := 5.

(** The module-level state of the hands-on session: the knowledge base
    text is cleaned of the two invisible characters, chunked, embedded and
    indexed when the module is loaded. *)
Definition session_chunks (KB_MARKDOWN : str) : list str :=
  chunker (sanitize KB_MARKDOWN).

Definition session_index `{Backend} (chunks : list str) (h : Hidden) : IndexFlatL2 * Hidden :=
  let '(embeddings, h') := encode chunks h in
  (IndexFlatL2_add IndexFlatL2_new embeddings, h').

(** [retrieve_relevant_rules(query)] of the hands-on session, over the
    module-level [chunks] and [index]: the same body with [k = 3]. *)
Definition retrieve_relevant_rules `{Backend} (chunks : list str) (index : IndexFlatL2)
    (query : str) (h : Hidden) : (exn + str) * Hidden :=
  retrieve_with chunks index query 3 h.

(** What [_load] establishes when it returns: the model is set, the index
    holds the embeddings of the chunks, in order, and there is at least one
    chunk. *)
Definition built `{Backend} (kb : KnowledgeBase) (h0 : Hidden) : Prop :=
  _model kb = Some (SentenceTransformer model_name)
  /\ _index kb = Some {| xb := List.map (embed h0) (_chunks kb) |}
  /\ _chunks kb <> [].

(* ===================================================================== *)
(** ** The corpus and its chunks *)
(* ===================================================================== *)

(** [c] occurs in [s] as a contiguous part. *)
Definition part_of (c s : str) : Prop := exists a b, s = a ++ c ++ b.

(** The corpus [_load_files] builds from the files, given their contents. *)
Definition corpus_of (content : str -> str) (files : list str) : str :=
  List.concat (List.map (fun f => block f (content f)) files).

(** The corpus with its leading blank line moved to the end, and its
    trimmed form: what the chunker scans. *)
Definition corpus_tail (content : str -> str) (files : list str) : str :=
  List.concat (List.map (fun f => header f ++ [NL; NL] ++ content f ++ [NL; NL]) files).

Fixpoint stripped_tail (content : str -> str) (files : list str) : str :=
  match files with
  | [] => []
  | f :: rest =>
      header f ++
      match rest with
      | [] => if blank (content f) then [] else [NL; NL] ++ rstrip (content f)
      | _ :: _ => [NL; NL] ++ content f ++ [NL; NL] ++ stripped_tail content rest
      end
  end.

(** What the chunk list of a corpus over [files] should look like: every
    header is a chunk, and every chunk is a header or is cut out of the
    content of one file. *)
Definition headers_apart (content : str -> str) (files : list str) (chunks : list str) : Prop :=
  (forall f, In f files -> In (header f) chunks)
  /\ (forall c, In c chunks ->
        (exists f, In f files /\ c = header f)
        \/ (exists f, In f files /\ part_of c (content f))).

(* ===================================================================== *)
(** ** The module-level cache and [get_kb] *)
(* ===================================================================== *)

(** The state of the process: the objects created so far (a reference is a
    position in [heap]), the dictionary [_kb_cache], the hidden state of
    the embedder, and the log of the calls to [KnowledgeBase(...)]. *)
Record Machine `{Backend} : Type := {
  heap : list KnowledgeBase;
  _kb_cache : gmap str nat;
  hidden : Hidden;
  constructions : list str;
}.

Definition start `{Backend} (h : Hidden) : Machine :=
  {| heap := []; _kb_cache := ∅; hidden := h; constructions := [] |}.

(** [get_kb(kb_dir)].  The right-hand side [KnowledgeBase(kb_dir)] is
    evaluated before the store into the dictionary, which does not happen
    when the constructor raises. *)
Definition get_kb `{Backend} (env : Env) (dir : str) (m : Machine) : (exn + nat) * Machine :=
  match _kb_cache m !! dir with
  | Some r => (inr r, m)
  | None =>
      let '(res, obj, h') := KnowledgeBase_init env dir (hidden m) in
      let r := length (heap m) in
      let m1 := {| heap := heap m ++ [obj]; _kb_cache := _kb_cache m;
                   hidden := h'; constructions := constructions m ++ [dir] |} in
      match res with
      | inl e => (inl e, m1)
      | inr _ =>
          (inr r, {| heap := heap m1; _kb_cache := <[dir := r]> (_kb_cache m1);
                     hidden := hidden m1; constructions := constructions m1 |})
      end
  end.

(** The states the process can be in: it starts with an empty cache and
    then only [get_kb] touches the state, under whatever environment holds
    at the time of each call. *)
Inductive reachable `{Backend} : Machine -> Prop :=
  | reach_start (h : Hidden) : reachable (start h)
  | reach_get_kb (env : Env) (dir : str) (m : Machine) :
      reachable m -> reachable (snd (get_kb env dir m)).

(** Every entry of the cache refers to a fully constructed knowledge base
    for that very location. *)
Definition cache_sound `{Backend} (m : Machine) : Prop :=
  forall (d : str) (r : nat),
    _kb_cache m !! d = Some r ->
    exists (kb : KnowledgeBase) (h0 : Hidden),
      heap m !! r = Some kb /\ kb_dir kb = d /\ built kb h0.

(* ===================================================================== *)
(** ** A concrete backend for examples *)
(* ===================================================================== *)

(** One-dimensional vectors.  The hidden state counts the calls to
    [encode]; a text is embedded as its length, whatever the state. *)
Definition toy_backend : Backend :=
  {| Vector := Q;
     Hidden := nat;
     embed := fun _ t => Z.of_nat (length t) # 1;
     advance := S;
     l2sqr := fun x y => ((x - y) * (x - y))%Q |}.

(** The same, except that the embedding drifts with the state: an
    embedder that is not deterministic. *)
Definition drifting_backend : Backend :=
  {| Vector := Q;
     Hidden := nat;
     embed := fun h t => Z.of_nat (length t + 10 * h) # 1;
     advance := S;
     l2sqr := fun x y => ((x - y) * (x - y))%Q |}.

(** A directory as a list of files with their contents, and the
    environment in which it is the only directory, at path [dir]. *)
Fixpoint lookup_file (files : list (str * str)) (path : str) (dir : str) : exn + str :=
  match files with
  | [] => inl OSError
  | (f, content) :: files' =>
      if decide (os_path_join dir f = path) then inr content
      else lookup_file files' path dir
  end.

Definition one_dir (dir : str) (files : list (str * str)) : Env :=
  {| os_listdir := fun d => if decide (d = dir) then inr (List.map fst files) else inl OSError;
     open_read := fun path => lookup_file files path dir;
     load_model := fun _ => None |}.

(** The knowledge base over a directory [kb] whose only file is [a.md]
    with content [hello]. *)
Definition hello_env : Env := one_dir (of_string "kb") [(of_string "a.md", of_string "hello")].

Definition hello_kb : @KnowledgeBase toy_backend :=
  snd (fst (@KnowledgeBase_init toy_backend hello_env (of_string "kb") 0%nat)).

(** A sequence of calls to [get_kb], each under the environment of its
    time; the results are dropped, the state is kept. *)
Definition run_calls `{Backend} (calls : list (Env * str)) (m : Machine) : Machine :=
  fold_left (fun m c => snd (get_kb (fst c) (snd c) m)) calls m.

(* ===================================================================== *)
(** ** More of [str] and [dict] *)
(* ===================================================================== *)

Definition is_slash (c : N) : bool := c =? 47.

(** [s.rsplit("/", 1)[-1]]: what follows the last [/], the whole of [s]
    when it has none. *)
Fixpoint after_last_slash (s : str) : str :=
  match s with
  | [] => []
  | c :: t => if existsb is_slash t then after_last_slash t
              else if is_slash c then t else c :: t
  end.

(** [s.replace(old, "")] for a non-empty [old]: the occurrences of [old]
    are found from left to right, without overlap, and dropped.  [skip]
    counts the characters of an occurrence still to be dropped. *)
Fixpoint delete_from (old s : str) (skip : nat) : str :=
  match s with
  | [] => []
  | c :: t =>
      match skip with
      | S n => delete_from old t n
      | O => if startswith old s then delete_from old t (length old - 1)
             else c :: delete_from old t 0
      end
  end.

Definition delete_all (old s : str) : str := delete_from old s 0.

(** A [Dict[str, str]]: the items in insertion order, each key once. *)
Abbreviation dict := (list (str * str)).

(** [d.get(k)] and [d[k] = v]; an assignment to a key already present
    replaces the value where the key stands. *)
Fixpoint dict_get (d : dict) (k : str) : option str :=
  match d with
  | [] => None
  | (k', v) :: d' => if decide (k' = k) then Some v else dict_get d' k
  end.

Fixpoint dict_set (d : dict) (k v : str) : dict :=
  match d with
  | [] => [(k, v)]
  | (k', v') :: d' => if decide (k' = k) then (k', v) :: d' else (k', v') :: dict_set d' k v
  end.

(* ===================================================================== *)
(** ** [config.py] *)
(* ===================================================================== *)

(** [os.getenv(name, default)] on the environment of the process. *)
Definition getenv (environ : gmap str str) (name default : str) : str :=
  match environ !! name with
  | Some v => v
  | None => default
  end.

Record Settings : Type := {
  openai_api_key : str;
  openai_api_base : str;
  settings_kb_dir : str;
  model : str;
  top_k : Z;
  fixed_dir : str;
}.

(** [Settings()] with the defaults read from the environment when the
    module is loaded.  [int] is the conversion of Python, a parameter here;
    when it raises, so does the import of the module. *)
Definition load_settings {E : Type} (int : str -> E + Z) (environ : gmap str str) : E + Settings :=
  match int (getenv environ (of_string "TOP_K") (of_string "5")) with
  | inl e => inl e
  | inr k =>
      inr {| openai_api_key := getenv environ (of_string "OPENAI_API_KEY") [];
             openai_api_base := getenv environ (of_string "OPENAI_API_BASE")
                                  (of_string "https://api.openai.com/v1");
             settings_kb_dir := getenv environ (of_string "KB_DIR") (of_string "/app/knowledge-base");
             model := getenv environ (of_string "MODEL") (of_string "gpt-4.1-nano");
             top_k := k;
             fixed_dir := getenv environ (of_string "FIXED_DIR")
                            (of_string "/data/dummy-project/fixed") |}
  end.

(* ===================================================================== *)
(** ** [mcp_server.py] and [server.py] *)
(* ===================================================================== *)

(** What a handler does to the world, in order: calls of the fixer and
    operations on the file system.  [WriteText dir fn s] is
    [(dir / fn).write_text(s)]; [ExtractAll root] is the opening of the
    upload as a zip archive and [zf.extractall(root)]. *)
Inductive event : Type :=
  | FixAll (samples : dict)
  | Rmtree (path : str)
  | Mkdir (path : str)
  | WriteText (dir fn : str) (content : str)
  | ExtractAll (root : str).

(** What the two servers call and cannot be modelled here: the fixer
    ([fix_all], which asks a language model), base64, zip archives and the
    file system.  [failure] is the type of the exceptions they raise.  An
    archive opened for reading is the list of its members in the order of
    [namelist()], each with the result of [read(n).decode("utf-8")] for that
    member.  The file system is known through three questions, each asked
    after the operations done so far: whether a path exists, whether an
    operation raises, and what [root.rglob(pattern)] finds, as the pairs of
    [p.name] and the result of [p.read_text(encoding="utf-8")]. *)
Class Externals : Type := {
  failure : Type;
  fix_all : dict -> failure + dict;
  b64decode : str -> failure + str;
  b64encode : str -> str;
  open_zip : str -> failure + list (str * (failure + str));
  write_zip : dict -> str;
  path_exists : list event -> str -> bool;
  fs_raises : list event -> event -> option failure;
  rglob : list event -> str -> str -> list (str * (failure + str));
}.

(** An exception leaving a handler: one of the externals, or the
    [KeyError] of a missing dictionary key. *)
Inductive raised `{Externals} : Type :=
  | External (e : failure)
  | KeyError (key : str).

(** How a handler ends. *)
Inductive outcome `{Externals} (A : Type) : Type :=
  | Return (a : A)
  | HTTPException (status_code : Z) (detail : str)
  | Raise (e : raised).

Arguments Return {_ _} a.
Arguments HTTPException {_ _} status_code detail.
Arguments Raise {_ _} e.

(** [zf.read(n)] reads the last member of that name. *)
Fixpoint zip_read `{Externals} (members : list (str * (failure + str))) (n : str)
  : option (failure + str) :=
  match members with
  | [] => None
  | (n', c) :: members' =>
      match zip_read members' n with
      | Some c' => Some c'
      | None => if decide (n' = n) then Some c else None
      end
  end.

(** [n.rsplit("/",1)[-1].replace(".java","")] *)
Definition logical_name (n : str) : str :=
  delete_all (of_string ".java") (after_last_slash n).

(** The loop of [call_tool] over [zf.namelist()] that fills [samples]. *)
Fixpoint collect_samples `{Externals} (members : list (str * (failure + str)))
    (names : list str) (samples : dict) : raised + dict :=
  match names with
  | [] => inr samples
  | n :: names' =>
      if endswith (of_string ".java") n
      then match zip_read members n with
           | None => inl (KeyError n)
           | Some (inl e) => inl (External e)
           | Some (inr text) => collect_samples members names' (dict_set samples (logical_name n) text)
           end
      else collect_samples members names' samples
  end.

(** The text of the [TextContent] a tool call answers with, before
    [json.dumps]: [{"error": msg}], the map of fixed sources, or
    [{"zip_b64": s}]. *)
Inductive reply : Type :=
  | ReplyError (msg : str)
  | ReplyFixed (fixed : dict)
  | ReplyZip (zip_b64 : str).

(** [call_tool(name, arguments)] of the tool server. *)
Definition call_tool `{Externals} (settings : Settings) (name : str) (arguments : dict)
  : outcome reply * list event :=
  if decide (name = of_string "fix_from_json") then
    match openai_api_key settings with
    | [] => (Return (ReplyError (of_string "OPENAI_API_KEY missing")), [])
    | _ :: _ =>
        match fix_all arguments with
        | inl e => (Raise (External e), [FixAll arguments])
        | inr fixed => (Return (ReplyFixed fixed), [FixAll arguments])
        end
    end
  else if decide (name = of_string "fix_from_zipbytes") then
    match openai_api_key settings with
    | [] => (Return (ReplyError (of_string "OPENAI_API_KEY missing")), [])
    | _ :: _ =>
        match dict_get arguments (of_string "zip_b64") with
        | None => (Raise (KeyError (of_string "zip_b64")), [])
        | Some z =>
            match b64decode z with
            | inl e => (Raise (External e), [])
            | inr b =>
                match open_zip b with
                | inl e => (Raise (External e), [])
                | inr members =>
                    match collect_samples members (List.map fst members) [] with
                    | inl e => (Raise e, [])
                    | inr samples =>
                        match fix_all samples with
                        | inl e => (Raise (External e), [FixAll samples])
                        | inr fixed =>
                            (Return (ReplyZip (b64encode (write_zip fixed))), [FixAll samples])
                        end
                    end
                end
            end
        end
    end
  else (Return (ReplyError (of_string "unknown tool")), []).

(* --------------------------------------------------------------------- *)
(** *** [server.py] *)

(** Handlers as programs over the list of events so far. *)
Definition io `{Externals} (A : Type) : Type := list event -> outcome A * list event.

Definition ret `{Externals} {A : Type} (a : A) : io A := fun tr => (Return a, tr).

Definition bind `{Externals} {A B : Type} (m : io A) (f : A -> io B) : io B :=
  fun tr =>
    match m tr with
    | (Return a, tr') => f a tr'
    | (HTTPException c d, tr') => (HTTPException c d, tr')
    | (Raise e, tr') => (Raise e, tr')
    end.

Notation "x <- m ;; f" := (bind m (fun x => f))
  (at level 100, m at level 90, right associativity).

(** An operation on the file system: recorded, then it raises or not. *)
Definition perform `{Externals} (ev : event) : io unit :=
  fun tr =>
    match fs_raises tr ev with
    | Some e => (Raise (External e), tr ++ [ev])
    | None => (Return tt, tr ++ [ev])
    end.

(** [fix_all(samples)] *)
Definition call_fix_all `{Externals} (samples : dict) : io dict :=
  fun tr =>
    match fix_all samples with
    | inl e => (Raise (External e), tr ++ [FixAll samples])
    | inr fixed => (Return fixed, tr ++ [FixAll samples])
    end.

Definition exists_ `{Externals} (path : str) : io bool :=
  fun tr => (Return (path_exists tr path), tr).

Definition raise_http `{Externals} {A : Type} (status_code : Z) (detail : str) : io A :=
  fun tr => (HTTPException status_code detail, tr).

(** [if d.exists(): shutil.rmtree(d)] then [d.mkdir(parents=True, exist_ok=True)] *)
Definition fresh_dir `{Externals} (d : str) : io unit :=
  there <- exists_ d ;;
  _ <- (if there : bool then perform (Rmtree d) else ret tt) ;;
  perform (Mkdir d).

(** [for fn, content in fixed_map.items(): (out_dir / fn).write_text(content)] *)
Fixpoint write_all `{Externals} (out_dir : str) (items : dict) : io unit :=
  match items with
  | [] => ret tt
  | (fn, content) :: items' =>
      _ <- perform (WriteText out_dir fn content) ;;
      write_all out_dir items'
  end.

(** What a route returns. *)
Inductive response : Type :=
  | JSONResponse (content : dict)
  | StreamingResponse (body : str).

(** [POST /api/v1/fix/json] *)
Definition fix_from_json `{Externals} (settings : Settings) (payload : dict) : io response :=
  match openai_api_key settings with
  | [] => raise_http 400 (of_string "OPENAI_API_KEY missing")
  | _ :: _ =>
      match payload with
      | [] => raise_http 400 (of_string "Empty payload")
      | _ :: _ =>
          fixed_map <- call_fix_all payload ;;
          _ <- fresh_dir (fixed_dir settings) ;;
          _ <- write_all (fixed_dir settings) fixed_map ;;
          ret (JSONResponse fixed_map)
      end
  end.

(** [PurePath.stem] of a file name: the name without its last suffix; a
    name whose only dot is its first or its last character has no suffix. *)
Fixpoint last_dot (s : str) (i : nat) : option nat :=
  match s with
  | [] => None
  | c :: t =>
      match last_dot t (S i) with
      | Some j => Some j
      | None => if c =? 46 then Some i else None
      end
  end.

Definition stem (name : str) : str :=
  match last_dot name 0 with
  | Some i => if ((0 <? i) && (i <? length name - 1))%nat then take i name else name
  | None => name
  end.

(** The loop over [tmp_root.rglob("*.java")]. *)
Fixpoint collect_stems `{Externals} (found : list (str * (failure + str))) (samples : dict)
  : raised + dict :=
  match found with
  | [] => inr samples
  | (name, inl e) :: _ => inl (External e)
  | (name, inr text) :: found' => collect_stems found' (dict_set samples (stem name) text)
  end.

Definition tmp_root : str := of_string "/tmp/in".

(** [POST /api/v1/fix/zip] *)
Definition fix_from_zip `{Externals} (settings : Settings) : io response :=
  match openai_api_key settings with
  | [] => raise_http 400 (of_string "OPENAI_API_KEY missing")
  | _ :: _ =>
      _ <- fresh_dir tmp_root ;;
      _ <- perform (ExtractAll tmp_root) ;;
      samples <- (fun tr => match collect_stems (rglob tr tmp_root (of_string "*.java")) [] with
                            | inl e => (Raise e, tr)
                            | inr samples => (Return samples, tr)
                            end) ;;
      match samples with
      | [] => raise_http 400 (of_string "No Java files found in zip")
      | _ :: _ =>
          fixed_map <- call_fix_all samples ;;
          _ <- fresh_dir (fixed_dir settings) ;;
          _ <- write_all (fixed_dir settings) fixed_map ;;
          ret (StreamingResponse (write_zip fixed_map))
      end
  end.

(** Externals for examples: the fixer appends [.java] to every name and
    leaves the texts alone, base64 is the identity, every upload is the
    same archive of three members, two of them with the same file name in
    different folders, and no file operation raises. *)
Definition toy_members : list (str * (str + str)) :=
  [(of_string "a/User.java", inr (of_string "class User { int a; }"));
   (of_string "README.md", inr (of_string "notes"));
   (of_string "b/User.java", inr (of_string "class User { int b; }"))].

Definition toy_externals : Externals :=
  {| failure := str;
     fix_all := fun d => inr (List.map (fun kv => (fst kv ++ of_string ".java", snd kv)) d);
     b64decode := fun s => inr s;
     b64encode := fun s => s;
     open_zip := fun _ => inr toy_members;
     write_zip := fun d => List.concat (List.map (fun kv => fst kv ++ [NL] ++ snd kv ++ [NL]) d);
     path_exists := fun tr p => existsb (fun ev => match ev with
                                                   | Mkdir q => if decide (q = p) then true else false
                                                   | _ => false
                                                   end) tr;
     fs_raises := fun _ _ => None;
     rglob := fun tr _ _ =>
                if existsb (fun ev => match ev with ExtractAll _ => true | _ => false end) tr
                then [(of_string "User.java", inr (of_string "class User { int a; }"));
                      (of_string "User.java", inr (of_string "class User { int b; }"))]
                else [] |}.

(* ===================================================================== *)
(** * Properties *)
(* ===================================================================== *)

Example chunker_three :
  chunker (of_string "Para A.

Para B.

 Para C.
") = [of_string "Para A."; of_string "Para B."; of_string " Para C."].
Proof. reflexivity. Qed.

Example chunker_blank : chunker (of_string "  ") = [[]].
Proof. reflexivity. Qed.

(* ===================================================================== *)
(** ** Whitespace and trimming *)
(* ===================================================================== *)

Lemma is_nl_isspace c : is_nl c = true -> isspace c = true.
Proof.
  unfold is_nl, NL. intros H. apply N.eqb_eq in H. subst c. reflexivity.
Qed.

Lemma is_nl_NL : is_nl NL = true.
Proof. reflexivity. Qed.

Lemma blank_app u v : blank (u ++ v) = blank u && blank v.
Proof. unfold blank. apply forallb_app. Qed.

Lemma blank_rev u : blank (rev u) = blank u.
Proof.
  induction u as [|c u IH]; [reflexivity|].
  simpl rev. rewrite blank_app, IH. simpl. destruct (isspace c), (blank u); reflexivity.
Qed.

Lemma lstrip_blank_app w s : blank w = true -> lstrip (w ++ s) = lstrip s.
Proof.
  induction w as [|c w IH]; simpl; [reflexivity|].
  intros H. apply andb_true_iff in H as [Hc Hw]. rewrite Hc. auto.
Qed.

Lemma lstrip_solid s : starts_solid s -> lstrip s = s.
Proof. destruct s as [|c s]; simpl; [reflexivity|]. intros ->. reflexivity. Qed.

Lemma lstrip_app_solid s t : s <> [] -> starts_solid s -> lstrip (s ++ t) = s ++ t.
Proof. destruct s as [|c s]; [congruence|]. simpl. intros _ ->. reflexivity. Qed.

Lemma rstrip_blank_app s w : blank w = true -> rstrip (s ++ w) = rstrip s.
Proof.
  intros H. unfold rstrip. rewrite rev_app_distr, lstrip_blank_app; [reflexivity|].
  now rewrite blank_rev.
Qed.

Lemma rstrip_solid s : ends_solid s -> rstrip s = s.
Proof. intros H. unfold rstrip. rewrite lstrip_solid by exact H. apply rev_involutive. Qed.

Lemma rstrip_app_solid s t : t <> [] -> ends_solid t -> rstrip (s ++ t) = s ++ t.
Proof.
  intros Hne H. unfold rstrip. rewrite rev_app_distr, lstrip_app_solid.
  - now rewrite <- rev_app_distr, rev_involutive.
  - intros E. apply Hne. rewrite <- (rev_involutive t), E. reflexivity.
  - exact H.
Qed.

Lemma strip_blank w : blank w = true -> strip w = [].
Proof.
  intros H. unfold strip.
  rewrite <- (app_nil_r w), lstrip_blank_app by exact H. reflexivity.
Qed.

(** Trimming a text that is wrapped in whitespace gives the text back. *)
Lemma strip_wrapped w0 s w1 :
  blank w0 = true -> blank w1 = true -> starts_solid s -> ends_solid s ->
  strip (w0 ++ s ++ w1) = s.
Proof.
  intros H0 H1 Hs He. unfold strip. rewrite lstrip_blank_app by exact H0.
  destruct s as [|c s].
  - simpl. rewrite <- (app_nil_r w1), lstrip_blank_app by exact H1. reflexivity.
  - rewrite lstrip_app_solid by (congruence || exact Hs).
    rewrite rstrip_blank_app by exact H1. now apply rstrip_solid.
Qed.

Lemma ends_solid_app s t : t <> [] -> ends_solid t -> ends_solid (s ++ t).
Proof.
  unfold ends_solid. intros Hne H. rewrite rev_app_distr.
  destruct (rev t) as [|c r] eqn:E.
  - exfalso. apply Hne. rewrite <- (rev_involutive t), E. reflexivity.
  - exact H.
Qed.

Lemma starts_solid_app s t : s <> [] -> starts_solid s -> starts_solid (s ++ t).
Proof. destruct s; [congruence|]. intros _ H. exact H. Qed.

Lemma gap_nil : gap [] = None.
Proof. reflexivity. Qed.

Lemma gap_cons c t :
  gap (c :: t) =
  if isspace c
  then match gap t with
       | Some r => Some r
       | None => if is_nl c then Some t else None
       end
  else if is_nl c then Some t else None.
Proof. reflexivity. Qed.

Lemma break_cons c t :
  match_here paragraph_break (c :: t) = if is_nl c then gap t else None.
Proof. reflexivity. Qed.

Lemma break_nil : match_here paragraph_break [] = None.
Proof. reflexivity. Qed.

Opaque gap.

Arguments match_here : simpl never.

(** Soundness: a match of [\s*\n] is a run of whitespace closed by a
    newline. *)
Lemma gap_sound s r :
  gap s = Some r -> exists w, blank w = true /\ s = w ++ NL :: r.
Proof.
  revert r. induction s as [|c t IH]; intros r H.
  - rewrite gap_nil in H. discriminate.
  - rewrite gap_cons in H.
    assert (Hnl : (if is_nl c then Some t else None) = Some r ->
                  exists w, blank w = true /\ c :: t = w ++ NL :: r).
    { destruct (is_nl c) eqn:E; [|discriminate]. intros [= ->].
      apply N.eqb_eq in E. subst c. exists []. split; reflexivity. }
    destruct (isspace c) eqn:Hc; [|auto].
    destruct (gap t) as [r'|] eqn:G; [|auto].
    injection H as ->. destruct (IH _ eq_refl) as (w & Hw & ->).
    exists (c :: w). split; [|reflexivity]. simpl. now rewrite Hc.
Qed.

Lemma break_sound s r :
  match_here paragraph_break s = Some r ->
  exists w, blank w = true /\ s = NL :: w ++ NL :: r.
Proof.
  destruct s as [|c t]; [discriminate|]. rewrite break_cons.
  destruct (is_nl c) eqn:E; [|discriminate]. intros H.
  apply N.eqb_eq in E. subst c.
  destruct (gap_sound _ _ H) as (w & Hw & ->). eauto.
Qed.

Lemma break_shorter s r :
  match_here paragraph_break s = Some r -> (length r < length s)%nat.
Proof.
  intros H. destruct (break_sound _ _ H) as (w & _ & ->).
  simpl. rewrite length_app. simpl. lia.
Qed.

(** A string on which [\s*\n] cannot start a match that ends inside it. *)
Lemma gap_starts_solid r : starts_solid r -> gap r = None.
Proof.
  destruct r as [|c r]; [reflexivity|]. simpl. intros Hc. rewrite gap_cons, Hc.
  destruct (is_nl c) eqn:E; [|reflexivity].
  apply is_nl_isspace in E. congruence.
Qed.

(** Greedy completeness: on a whitespace run followed by solid text the
    match stops right after the last newline of the run. *)
Lemma gap_blank u r :
  blank u = true -> starts_solid r ->
  gap (u ++ r) = if existsb is_nl u then Some (after_last_nl u ++ r) else None.
Proof.
  intros Hu Hr. induction u as [|c t IH]; simpl.
  - now apply gap_starts_solid.
  - simpl in Hu. apply andb_true_iff in Hu as [Hc Ht].
    rewrite gap_cons, Hc, (IH Ht).
    destruct (existsb is_nl t); simpl.
    + now rewrite orb_true_r.
    + rewrite orb_false_r. destruct (is_nl c); reflexivity.
Qed.

(* ===================================================================== *)
(** ** Unfolding [re.split] on the paragraph-break pattern *)
(* ===================================================================== *)

Lemma split_fuel n m cur s :
  (length s <= n)%nat -> (length s <= m)%nat ->
  split_from paragraph_break n cur s = split_from paragraph_break m cur s.
Proof.
  revert m cur s. induction n as [|n IH]; intros m cur s Hn Hm.
  - destruct s; [|simpl in Hn; lia]. destruct m; simpl; now rewrite ?app_nil_r.
  - destruct m as [|m].
    + destruct s; [simpl; now rewrite app_nil_r|simpl in Hm; lia].
    + destruct s as [|c t]; [reflexivity|]. simpl in Hn, Hm.
      cbn [split_from].
      destruct (match_here paragraph_break (c :: t)) as [r|] eqn:E.
      * apply break_shorter in E. simpl in E.
        f_equal. apply IH; lia.
      * apply IH; lia.
Qed.

Lemma pieces_nil cur : pieces cur [] = [rev cur].
Proof. unfold pieces. simpl. now rewrite app_nil_r. Qed.

Lemma pieces_hit cur s r :
  match_here paragraph_break s = Some r -> pieces cur s = rev cur :: pieces [] r.
Proof.
  intros E. unfold pieces. destruct s as [|c t]; [discriminate|].
  cbn [length split_from]. rewrite E. f_equal.
  apply break_shorter in E. simpl in E. apply split_fuel; lia.
Qed.

Lemma pieces_miss cur c t :
  match_here paragraph_break (c :: t) = None -> pieces cur (c :: t) = pieces (c :: cur) t.
Proof. intros E. unfold pieces. cbn [length split_from]. now rewrite E. Qed.

Lemma re_split_pieces s : re_split paragraph_break s = pieces [] s.
Proof. reflexivity. Qed.

Lemma solid_nil : solid [].
Proof. intros u v r E. symmetry in E. apply app_eq_nil in E as [_ ->]. congruence. Qed.

Lemma solid_tail c a : solid (c :: a) -> solid a.
Proof. intros H u v r E. apply (H (c :: u)). now rewrite E. Qed.

Lemma pieces_solid a cur s : solid a -> pieces cur (a ++ s) = pieces (rev a ++ cur) s.
Proof.
  revert cur. induction a as [|c a IH]; intros cur H; [reflexivity|].
  simpl app. rewrite pieces_miss.
  - rewrite IH by (eapply solid_tail; eauto). simpl rev. now rewrite <- app_assoc.
  - apply (H [] (c :: a) s); [reflexivity|discriminate].
Qed.

Lemma solid_cons_no_nl c a : is_nl c = false -> solid a -> solid (c :: a).
Proof.
  intros Hc H u v r E Hv. destruct u as [|x u].
  - simpl in E. subst v. simpl. rewrite break_cons. now rewrite Hc.
  - injection E as -> E. eapply H; eauto.
Qed.

Lemma solid_no_nl_app h a : existsb is_nl h = false -> solid a -> solid (h ++ a).
Proof.
  induction h as [|c h IH]; simpl; [auto|]. intros E H.
  apply orb_false_iff in E as [Hc Hh]. apply solid_cons_no_nl; auto.
Qed.

Lemma solid_app_no_nl a h : solid a -> existsb is_nl h = false -> solid (a ++ h).
Proof.
  intros Ha Hh u v r E Hv.
  apply app_eq_app in E as [l [[-> ->]|[-> ->]]].
  - (* the suffix starts inside [a] *)
    destruct l as [|x l].
    + simpl. eapply (solid_no_nl_app h [] Hh solid_nil [] h); [now rewrite app_nil_r|].
      simpl in Hv. exact Hv.
    + rewrite <- app_assoc. eapply Ha; [reflexivity|discriminate].
  - (* the suffix lies inside [h] *)
    destruct v as [|y v]; [congruence|]. simpl. rewrite break_cons.
    rewrite existsb_app in Hh. apply orb_false_iff in Hh as [_ Hh].
    simpl in Hh. apply orb_false_iff in Hh as [-> _]. reflexivity.
Qed.

Lemma blank_ends_solid u v : blank v = true -> v <> [] -> ends_solid (u ++ v) -> False.
Proof.
  unfold ends_solid. intros Hb Hne H. rewrite rev_app_distr in H.
  rewrite <- blank_rev in Hb.
  destruct (rev v) as [|c r] eqn:E.
  - apply Hne. rewrite <- (rev_involutive v), E. reflexivity.
  - simpl in H, Hb. rewrite H in Hb. discriminate.
Qed.

Lemma no_break_no_match s :
  ~ blank_line_break s -> forall u v, s = u ++ v -> match_here paragraph_break v = None.
Proof.
  intros Hn u v ->. destruct (match_here paragraph_break v) as [r|] eqn:E; [|reflexivity].
  exfalso. apply Hn. destruct (break_sound _ _ E) as (w & Hw & ->).
  exists u, w, r. auto.
Qed.

Lemma paragraph_solid p : paragraph p -> solid p.
Proof.
  intros (_ & _ & He & Hn) u v r -> Hv.
  destruct (match_here paragraph_break (v ++ r)) as [x|] eqn:E; [|reflexivity].
  exfalso. destruct (break_sound _ _ E) as (w & Hw & Eq).
  change (NL :: w ++ NL :: x) with ((NL :: w) ++ NL :: x) in Eq.
  replace ((NL :: w) ++ NL :: x) with (((NL :: w) ++ [NL]) ++ x) in Eq
    by (now rewrite <- app_assoc).
  apply app_eq_app in Eq as [l [[-> ->]|[Eq ->]]].
  - apply Hn. exists u, w, l. split; [|exact Hw].
    now rewrite <- app_assoc.
  - apply (blank_ends_solid u v); auto.
    assert (Hb : blank ((NL :: w) ++ [NL]) = true).
    { rewrite blank_app. simpl. now rewrite Hw. }
    rewrite Eq, blank_app in Hb. now apply andb_true_iff in Hb as [Hb _].
Qed.

Lemma pieces_no_break s cur :
  (forall u v, s = u ++ v -> match_here paragraph_break v = None) ->
  pieces cur s = [rev cur ++ s].
Proof.
  revert cur. induction s as [|c t IH]; intros cur H.
  - now rewrite pieces_nil, app_nil_r.
  - rewrite pieces_miss by (apply (H []); reflexivity).
    rewrite IH.
    + simpl. now rewrite <- app_assoc.
    + intros u v ->. apply (H (c :: u)). reflexivity.
Qed.

Lemma before_from_first_nl u :
  existsb is_nl u = true -> u = before_first_nl u ++ NL :: from_first_nl u.
Proof.
  induction u as [|c t IH]; simpl; [discriminate|].
  destruct (is_nl c) eqn:E; simpl.
  - intros _. apply N.eqb_eq in E. now subst c.
  - intros H. f_equal. auto.
Qed.

Lemma before_first_nl_no_nl u : existsb is_nl (before_first_nl u) = false.
Proof.
  induction u as [|c t IH]; simpl; [reflexivity|].
  destruct (is_nl c) eqn:E; simpl; [reflexivity|]. now rewrite E.
Qed.

Lemma before_first_nl_blank u : blank u = true -> blank (before_first_nl u) = true.
Proof.
  induction u as [|c t IH]; simpl; [reflexivity|]. intros H.
  apply andb_true_iff in H as [Hc Ht].
  destruct (is_nl c); simpl; [reflexivity|]. rewrite Hc. auto.
Qed.

Lemma from_first_nl_blank u : blank u = true -> blank (from_first_nl u) = true.
Proof.
  induction u as [|c t IH]; simpl; [reflexivity|]. intros H.
  apply andb_true_iff in H as [Hc Ht]. destruct (is_nl c); auto.
Qed.

Lemma after_last_nl_no_nl u : existsb is_nl (after_last_nl u) = false.
Proof.
  induction u as [|c t IH]; simpl; [reflexivity|].
  destruct (existsb is_nl t) eqn:E; [exact IH|].
  destruct (is_nl c) eqn:Ec; [exact E|]. simpl. now rewrite Ec, E.
Qed.

Lemma after_last_nl_blank u : blank u = true -> blank (after_last_nl u) = true.
Proof.
  induction u as [|c t IH]; simpl; [reflexivity|]. intros H.
  apply andb_true_iff in H as [Hc Ht].
  destruct (existsb is_nl t); [auto|].
  destruct (is_nl c); [exact Ht|]. simpl. now rewrite Hc, Ht.
Qed.

Lemma after_last_nl_app x y :
  existsb is_nl y = true -> after_last_nl (x ++ y) = after_last_nl y.
Proof.
  intros H. induction x as [|c x IH]; [reflexivity|].
  simpl. rewrite existsb_app, H, orb_true_r. exact IH.
Qed.

Lemma separator_nl u :
  separator u ->
  existsb is_nl u = true /\ existsb is_nl (from_first_nl u) = true.
Proof.
  intros (_ & a & w & b & -> & _). 
  assert (H2 : existsb is_nl (w ++ NL :: b) = true).
  { rewrite existsb_app. simpl. now rewrite orb_true_r. }
  split.
  - rewrite existsb_app. simpl. now rewrite orb_true_r.
  - induction a as [|c a IH]; simpl; [exact H2|].
    destruct (is_nl c); [|exact IH].
    rewrite existsb_app. simpl. now rewrite orb_true_r.
Qed.

Lemma assemble_starts_solid p rest : paragraph p -> starts_solid (assemble p rest).
Proof.
  intros (Hne & Hs & _). destruct rest as [|[u q] rest]; [exact Hs|].
  simpl. now apply starts_solid_app.
Qed.

Lemma assemble_ends_solid p rest :
  paragraph p -> Forall (fun uq => separator (fst uq) /\ paragraph (snd uq)) rest ->
  ends_solid (assemble p rest).
Proof.
  revert p. induction rest as [|[u q] rest IH]; intros p Hp Hr.
  - apply Hp.
  - simpl. inversion Hr as [|? ? [_ Hq] Hr']; subst. simpl in Hq.
    rewrite app_assoc. apply ends_solid_app; [|apply IH; assumption].
    destruct rest as [|[u' q'] rest]; simpl; [apply Hq|].
    destruct q; [destruct Hq as [Hq _]; congruence|discriminate].
Qed.

(** The scan over a body of paragraphs, allowing the first paragraph to
    carry the whitespace [h] a preceding separator left behind. *)
Lemma pieces_assemble rest : forall h p,
  existsb is_nl h = false ->
  paragraph p ->
  Forall (fun uq => separator (fst uq) /\ paragraph (snd uq)) rest ->
  pieces [] (h ++ assemble p rest) = chunks_of (h ++ p) rest.
Proof.
  induction rest as [|[u q] rest IH]; intros h p Hh Hp Hr.
  - simpl. rewrite <- (app_nil_r (h ++ p)) at 1.
    rewrite pieces_solid by (apply solid_no_nl_app; auto using paragraph_solid).
    now rewrite pieces_nil, app_nil_r, rev_involutive.
  - inversion Hr as [|? ? [Hu Hq] Hr']; subst. simpl in Hu, Hq.
    destruct (separator_nl u Hu) as [Hnl Hnl2].
    cbn [assemble chunks_of].
    rewrite (before_from_first_nl u Hnl) at 1.
    set (a := (h ++ p) ++ before_first_nl u).
    replace (h ++ p ++ (before_first_nl u ++ NL :: from_first_nl u) ++ assemble q rest)
      with (a ++ NL :: from_first_nl u ++ assemble q rest)
      by (unfold a; now rewrite <- !app_assoc).
    rewrite pieces_solid.
    2:{ unfold a. apply solid_app_no_nl; [|apply before_first_nl_no_nl].
        apply solid_no_nl_app; auto using paragraph_solid. }
    erewrite pieces_hit.
    2:{ rewrite break_cons, is_nl_NL. rewrite gap_blank.
        - rewrite Hnl2. reflexivity.
        - apply from_first_nl_blank, Hu.
        - now apply assemble_starts_solid. }
    rewrite app_nil_r, rev_involutive. f_equal.
    assert (Ea : after_last_nl (from_first_nl u) = after_last_nl u).
    { rewrite (before_from_first_nl u Hnl) at 2.
      change (NL :: from_first_nl u) with ([NL] ++ from_first_nl u).
      now rewrite !after_last_nl_app. }
    rewrite Ea. apply IH; auto using after_last_nl_no_nl.
Qed.

Lemma chunks_of_length p rest : length (chunks_of p rest) = S (length rest).
Proof.
  revert p. induction rest as [|[u q] rest IH]; intros p; simpl; [reflexivity|].
  now rewrite IH.
Qed.

Lemma chunks_of_strip rest : forall h p,
  blank h = true -> paragraph p ->
  Forall (fun uq => separator (fst uq) /\ paragraph (snd uq)) rest ->
  List.map strip (chunks_of (h ++ p) rest) = p :: List.map snd rest.
Proof.
  induction rest as [|[u q] rest IH]; intros h p Hh Hp Hr.
  - simpl. f_equal. rewrite <- (app_nil_r p) at 1.
    apply strip_wrapped; auto; apply Hp.
  - inversion Hr as [|? ? [Hu Hq] Hr']; subst. simpl in Hu, Hq.
    cbn [chunks_of List.map snd]. f_equal.
    + rewrite <- app_assoc. apply strip_wrapped; auto; try apply Hp.
      apply before_first_nl_blank, Hu.
    + apply IH; auto. apply after_last_nl_blank, Hu.
Qed.

Lemma chunks_of_nonempty rest : forall h p,
  p <> [] -> Forall (fun uq => separator (fst uq) /\ paragraph (snd uq)) rest ->
  Forall (fun c => c <> []) (chunks_of (h ++ p) rest).
Proof.
  induction rest as [|[u q] rest IH]; intros h p Hp Hr.
  - constructor; [|constructor]. intros E. apply app_eq_nil in E as [_ E]. auto.
  - inversion Hr as [|? ? [Hu Hq] Hr']; subst. simpl in Hq.
    cbn [chunks_of]. constructor.
    + intros E. apply app_eq_nil in E as [E _]. apply app_eq_nil in E as [_ E]. auto.
    + apply IH; auto. apply Hq.
Qed.

Lemma gap_complete w v : blank w = true -> gap (w ++ NL :: v) <> None.
Proof.
  induction w as [|c w IH]; simpl; intros Hw.
  - rewrite gap_cons. change (isspace NL) with true. cbn iota.
    destruct (gap v); discriminate.
  - apply andb_true_iff in Hw as [Hc Hw]. rewrite gap_cons, Hc.
    destruct (gap (w ++ NL :: v)) eqn:E; [discriminate|]. now apply IH in Hw.
Qed.

Lemma has_break_spec s : has_break s = true <-> blank_line_break s.
Proof.
  split.
  - induction s as [|c t IH]; cbn [has_break].
    + rewrite break_nil. discriminate.
    + destruct (match_here paragraph_break (c :: t)) as [r|] eqn:E.
      * intros _. destruct (break_sound _ _ E) as (w & Hw & Eq).
        exists [], w, r. auto.
      * intros H. destruct (IH H) as (u & w & v & -> & Hw).
        exists (c :: u), w, v. auto.
  - intros (u & w & v & -> & Hw). induction u as [|c u IH].
    + cbn [app has_break]. rewrite break_cons, is_nl_NL.
      destruct (gap (w ++ NL :: v)) eqn:E; [reflexivity|].
      now apply gap_complete in E.
    + cbn [app has_break]. rewrite IH.
      destruct (match_here paragraph_break (c :: u ++ NL :: w ++ NL :: v)); reflexivity.
Qed.

Lemma no_break_check s : has_break s = false -> ~ blank_line_break s.
Proof. intros H B. apply has_break_spec in B. congruence. Qed.

(* ===================================================================== *)
(** ** The chunker *)
(* ===================================================================== *)

Lemma chunker_assemble w0 p rest w1 :
  blank w0 = true -> blank w1 = true -> paragraph p ->
  Forall (fun uq => separator (fst uq) /\ paragraph (snd uq)) rest ->
  chunker (w0 ++ assemble p rest ++ w1) = chunks_of p rest.
Proof.
  intros H0 H1 Hp Hr. unfold chunker.
  rewrite strip_wrapped; auto using assemble_starts_solid, assemble_ends_solid.
  rewrite re_split_pieces. apply (pieces_assemble rest [] p); auto.
Qed.

Lemma chunker_no_break corpus :
  ~ blank_line_break (strip corpus) -> chunker corpus = [strip corpus].
Proof.
  intros H. unfold chunker. rewrite re_split_pieces.
  apply (pieces_no_break (strip corpus) []). now apply no_break_no_match.
Qed.

(** The chunker never returns an empty list. *)
Lemma split_from_nonempty re fuel cur s : split_from re fuel cur s <> [].
Proof.
  destruct fuel; simpl; [discriminate|].
  destruct s; [discriminate|]. destruct (match_here re (n :: s)); [discriminate|].
  revert cur s n. induction fuel; intros; simpl; [discriminate|].
  destruct s; [discriminate|]. destruct (match_here re (n0 :: s)); [discriminate|apply IHfuel].
Qed.

Lemma chunker_nonempty corpus : chunker corpus <> [].
Proof. apply split_from_nonempty. Qed.

(** C4. A corpus made of N >= 1 paragraphs separated by blank lines
    (with any whitespace around it) is cut into exactly N chunks, none of
    them empty, in the order of the paragraphs: each chunk is its paragraph,
    up to the whitespace a separator leaves outside its first-to-last
    newline span.  A corpus whose trimmed text has no blank-line-separated
    break gives exactly one chunk, the whole trimmed corpus. *)
Theorem chunker_paragraphs :
  forall (w0 p : str) (rest : list (str * str)) (w1 corpus : str),
    (blank w0 = true -> blank w1 = true -> paragraph p ->
     Forall (fun uq => separator (fst uq) /\ paragraph (snd uq)) rest ->
     let chunks := chunker (w0 ++ assemble p rest ++ w1) in
     length chunks = S (length rest)
     /\ Forall (fun c => c <> []) chunks
     /\ List.map strip chunks = p :: List.map snd rest)
    /\
    (~ blank_line_break (strip corpus) -> chunker corpus = [strip corpus]).
Proof.
  intros w0 p rest w1 corpus. split.
  - intros H0 H1 Hp Hr. cbv zeta. rewrite chunker_assemble by assumption.
    split; [apply chunks_of_length|]. split.
    + apply (chunks_of_nonempty rest [] p); [apply Hp|assumption].
    + apply (chunks_of_strip rest [] p); auto.
  - apply chunker_no_break.
Qed.

Lemma paragraph_check p :
  p <> [] -> starts_solid p -> ends_solid p -> has_break p = false -> paragraph p.
Proof. intros. repeat split; auto using no_break_check. Qed.

Lemma separator_check u : blank u = true -> has_break u = true -> separator u.
Proof. intros. split; [assumption|now apply has_break_spec]. Qed.

(** Three paragraphs, the second separator with stray blanks, and a
    one-paragraph corpus. *)
Lemma chunker_paragraphs_witness :
  (let chunks := chunker (of_string " Para A.

Para B.
  
 Para C.
") in
   length chunks = 3%nat
   /\ Forall (fun c => c <> []) chunks
   /\ List.map strip chunks = [of_string "Para A."; of_string "Para B."; of_string "Para C."])
  /\ chunker (of_string "one
paragraph
") = [of_string "one
paragraph"].
Proof.
  pose proof (chunker_paragraphs
    (of_string " ") (of_string "Para A.")
    [([NL; NL], of_string "Para B."); (of_string "
  
 ", of_string "Para C.")]
    [NL] (of_string "one
paragraph
")) as [HA HB].
  split.
  - apply HA; try reflexivity.
    + apply paragraph_check; try reflexivity; discriminate.
    + repeat constructor; simpl;
        try (apply separator_check; reflexivity);
        apply paragraph_check; try reflexivity; discriminate.
  - apply HB. apply no_break_check. reflexivity.
Defined.

(* ===================================================================== *)
(** ** Sorting file names *)
(* ===================================================================== *)

Lemma str_leb_total a b : str_leb a b = true \/ str_leb b a = true.
Proof.
  revert b. induction a as [|x a IH]; intros [|y b]; simpl; auto.
  destruct (N.ltb_spec x y), (N.ltb_spec y x); simpl; auto; try lia.
  assert (x = y) as -> by lia. rewrite N.eqb_refl. simpl. apply IH.
Qed.

Lemma str_leb_trans a b c : str_leb a b = true -> str_leb b c = true -> str_leb a c = true.
Proof.
  revert b c. induction a as [|x a IH]; intros [|y b] [|z c]; simpl; auto; try discriminate.
  intros H1 H2.
  apply orb_true_iff in H1 as [H1|H1]; apply orb_true_iff in H2 as [H2|H2];
    repeat match goal with
           | H : (_ && _) = true |- _ => apply andb_true_iff in H as [? ?]
           | H : (_ <? _) = true |- _ => apply N.ltb_lt in H
           | H : (_ =? _) = true |- _ => apply N.eqb_eq in H
           end; subst.
  - replace (x <? z) with true by (symmetry; apply N.ltb_lt; lia). reflexivity.
  - replace (x <? z) with true by (symmetry; apply N.ltb_lt; lia). reflexivity.
  - replace (y <? z) with true by (symmetry; apply N.ltb_lt; lia). reflexivity.
  - rewrite N.eqb_refl. simpl. apply orb_true_iff. right. eapply IH; eauto.
Qed.

#[global] Instance str_le_total : Total str_le.
Proof. intros a b. apply str_leb_total. Qed.

#[global] Instance str_le_trans : Transitive str_le.
Proof. intros a b c. apply str_leb_trans. Qed.

Lemma md_files_sorted names : StronglySorted str_le (md_files names).
Proof. apply StronglySorted_merge_sort; apply _. Qed.

Lemma md_files_perm names : md_files names ≡ₚ List.filter eligible names.
Proof. apply merge_sort_Permutation. Qed.

Lemma md_files_In names f :
  In f (md_files names) <-> In f names /\ endswith (of_string ".md") f = true.
Proof.
  rewrite <- filter_In. split; apply Permutation_in;
    [apply md_files_perm | symmetry; apply md_files_perm].
Qed.

(* ===================================================================== *)
(** ** Loading the corpus *)
(* ===================================================================== *)

Lemma read_files_ok env dir (content : str -> str) files corpus :
  (forall f, In f files -> open_read env (os_path_join dir f) = inr (content f)) ->
  read_files env dir files corpus
  = inr (corpus ++ List.concat (List.map (fun f => block f (content f)) files)).
Proof.
  revert corpus. induction files as [|f files IH]; intros corpus H; simpl.
  - now rewrite app_nil_r.
  - rewrite (H f) by now left. rewrite IH by (intros; apply H; now right).
    now rewrite <- app_assoc.
Qed.

Lemma read_files_fails env dir files1 f files2 e (content : str -> str) corpus :
  (forall g, In g files1 -> open_read env (os_path_join dir g) = inr (content g)) ->
  open_read env (os_path_join dir f) = inl e ->
  read_files env dir (files1 ++ f :: files2) corpus = inl e.
Proof.
  revert corpus. induction files1 as [|g files1 IH]; intros corpus H He; simpl.
  - now rewrite He.
  - rewrite (H g) by now left. apply IH; auto. intros; apply H; now right.
Qed.

Lemma load_files_ok `{Backend} (env : Env) (self : KnowledgeBase)
    (names : list str) (content : str -> str) :
  os_listdir env (kb_dir self) = inr names ->
  (forall f, In f names -> endswith (of_string ".md") f = true ->
             open_read env (os_path_join (kb_dir self) f) = inr (content f)) ->
  _load_files env self = inr (corpus_of content (md_files names)).
Proof.
  intros Hl Hr. unfold _load_files. rewrite Hl.
  rewrite (read_files_ok env (kb_dir self) content).
  - reflexivity.
  - intros f Hf. apply md_files_In in Hf as [? ?]. auto.
Qed.

(* ===================================================================== *)
(** ** A location without eligible documents *)
(* ===================================================================== *)

Lemma md_files_none names : List.filter eligible names = [] -> md_files names = [].
Proof. unfold md_files. intros ->. reflexivity. Qed.

(** C3 (as amended). A location that can be listed and holds no name
    ending in [.md] does not make the construction fail: once the model
    loads, the constructor returns a knowledge base with exactly one chunk,
    the empty string, and an index over the one vector of that chunk. *)
Theorem empty_location_builds `{Backend} (env : Env) (dir : str) (h : Hidden)
    (names : list str) :
  os_listdir env dir = inr names ->
  List.filter (endswith (of_string ".md")) names = [] ->
  load_model env model_name = None ->
  KnowledgeBase_init env dir h
  = (inr tt,
     {| kb_dir := dir; _chunks := [[]];
        _model := Some (SentenceTransformer model_name);
        _index := Some {| xb := [embed h []] |} |},
     advance h).
Proof.
  intros Hl Hn Hm. unfold KnowledgeBase_init, _load, _load_files. cbn [kb_dir].
  rewrite Hl, (md_files_none names Hn). cbn [read_files]. rewrite Hm.
  reflexivity.
Qed.

Lemma empty_location_builds_witness :
  @KnowledgeBase_init toy_backend (one_dir (of_string "kb") [(of_string "README.txt", of_string "x")])
     (of_string "kb") 0%nat
  = (inr tt,
     @Build_KnowledgeBase toy_backend (of_string "kb") [[]]
        (Some (SentenceTransformer model_name))
        (Some (@Build_IndexFlatL2 toy_backend [0%Q])),
     1%nat).
Proof.
  apply (@empty_location_builds toy_backend _ _ 0%nat [of_string "README.txt"]); reflexivity.
Defined.

(** C3 at a concrete input: an empty directory.  The constructor returns
    normally; no exception is raised. *)
Lemma empty_location_no_error :
  exists kb h, @KnowledgeBase_init toy_backend (one_dir (of_string "kb") []) (of_string "kb") 0%nat
               = (inr tt, kb, h)
               /\ _chunks kb = [[]].
Proof. eexists _, _. split; reflexivity. Qed.

(* ===================================================================== *)
(** ** The nearest-neighbour search *)
(* ===================================================================== *)

Lemma key_leb_spec a b :
  key_leb a b = true <->
  (fst a < fst b)%Q \/ ((fst a == fst b)%Q /\ (snd a <= snd b)%nat).
Proof.
  unfold key_leb. destruct (Qeq_bool (fst a) (fst b)) eqn:E.
  - apply Qeq_bool_iff in E. rewrite Nat.leb_le. split.
    + auto.
    + intros [Hlt|[_ ?]]; [lra|auto].
  - rewrite Qle_bool_iff.
    assert (Hne : ~ (fst a == fst b)%Q).
    { intros Heq. apply Qeq_bool_iff in Heq. congruence. }
    split.
    + intros Hle. left. lra.
    + intros [?|[? _]]; [lra|contradiction].
Qed.

#[global] Instance key_le_total : Total key_le.
Proof.
  intros a b. unfold key_le. rewrite !key_leb_spec.
  destruct (Qlt_le_dec (fst a) (fst b)) as [?|Hle]; [auto|].
  destruct (Qlt_le_dec (fst b) (fst a)) as [?|Hle']; [auto|].
  assert (fst a == fst b)%Q by lra.
  destruct (Nat.le_ge_cases (snd a) (snd b)); [left|right]; right; split; auto; lra.
Qed.

#[global] Instance key_le_trans : Transitive key_le.
Proof.
  intros a b c. unfold key_le. rewrite !key_leb_spec.
  intros [?|[? ?]] [?|[? ?]]; try (left; lra).
  right. split; [lra|lia].
Qed.

Lemma key_le_dist a b : key_le a b -> (fst a <= fst b)%Q.
Proof. unfold key_le. rewrite key_leb_spec. intros [?|[? _]]; lra. Qed.

Section search.
Context `{Backend}.
Implicit Types (xs : list Vector) (q : Vector).

Lemma candidates_lookup xs q d i :
  (d, i) ∈ candidates xs q <-> exists x, xs !! i = Some x /\ d = l2sqr q x.
Proof.
  unfold candidates. rewrite elem_of_lookup_imap. split.
  - intros (j & x & E & Hx). injection E as -> ->. eauto.
  - intros (x & Hx & ->). eauto.
Qed.

Lemma candidates_positions xs q :
  (candidates xs q).*2 = seq 0 (length xs).
Proof.
  unfold candidates. rewrite fmap_imap.
  rewrite (imap_ext _ (fun j _ => j)) by reflexivity.
  rewrite imap_seq_0. apply list_fmap_id.
Qed.

Lemma ranked_perm xs q : ranked xs q ≡ₚ candidates xs q.
Proof. apply merge_sort_Permutation. Qed.

Lemma ranked_sorted xs q : StronglySorted key_le (ranked xs q).
Proof. apply StronglySorted_merge_sort; apply _. Qed.

Lemma ranked_length xs q : length (ranked xs q) = length xs.
Proof. rewrite (Permutation_length (ranked_perm xs q)). apply length_imap. Qed.

Lemma ranked_NoDup xs q : NoDup (ranked xs q).*2.
Proof.
  rewrite (ranked_perm xs q), candidates_positions. apply NoDup_seq.
Qed.

Lemma search_rejects (ix : IndexFlatL2) q k :
  (k <= 0)%Z -> IndexFlatL2_search ix q k = inl AssertionError.
Proof.
  intros Hk. unfold IndexFlatL2_search.
  destruct (Z.leb_spec k 0); [reflexivity|lia].
Qed.

Lemma search_accepts (ix : IndexFlatL2) q k :
  (0 < k)%Z ->
  let hits := take (Z.to_nat k) (ranked (xb ix) q) in
  let pad := (Z.to_nat k - length hits)%nat in
  IndexFlatL2_search ix q k
  = inr (List.map fst hits ++ replicate pad FLT_MAX,
         List.map (fun di => Z.of_nat (snd di)) hits ++ replicate pad (-1)%Z).
Proof.
  intros Hk. unfold IndexFlatL2_search.
  destruct (Z.leb_spec k 0); [lia|reflexivity].
Qed.

(** What the first [n] candidates of the ranking are. *)
Lemma hits_spec xs q n :
  let hits := take n (ranked xs q) in
  length hits = Nat.min n (length xs)
  /\ (forall d i, (d, i) ∈ hits -> exists x, xs !! i = Some x /\ d = l2sqr q x)
  /\ NoDup (List.map snd hits)
  /\ StronglySorted Qle (List.map fst hits)
  /\ (forall i x, xs !! i = Some x -> i ∉ List.map snd hits ->
      forall d, d ∈ List.map fst hits -> (d <= l2sqr q x)%Q).
Proof.
  intros hits.
  pose proof (take_drop n (ranked xs q)) as Hsplit. fold hits in Hsplit.
  pose proof (ranked_sorted xs q) as Hsort. rewrite <- Hsplit in Hsort.
  pose proof (ranked_NoDup xs q) as Hnd. rewrite <- Hsplit, fmap_app in Hnd.
  assert (Hin : forall d i, (d, i) ∈ hits -> (d, i) ∈ candidates xs q).
  { intros d i Hdi. rewrite <- (ranked_perm xs q), <- Hsplit. apply elem_of_app. auto. }
  split; [|split; [|split; [|split]]].
  - unfold hits. rewrite length_take, ranked_length. reflexivity.
  - intros d i Hdi. apply candidates_lookup. auto.
  - apply NoDup_app in Hnd as [Hnd _]. exact Hnd.
  - apply (StronglySorted_fmap fst key_le Qle); [apply key_le_dist|].
    eapply StronglySorted_app_1_l, Hsort.
  - intros i x Hx Hni d Hd.
    change (List.map fst hits) with (hits.*1) in Hd.
    apply list_elem_of_fmap in Hd as ([d' j] & -> & Hdj). simpl.
    assert (Hc : (l2sqr q x, i) ∈ ranked xs q).
    { rewrite (ranked_perm xs q). apply candidates_lookup. eauto. }
    rewrite <- Hsplit in Hc. apply elem_of_app in Hc as [Hc|Hc].
    + exfalso. apply Hni. change (i ∈ hits.*2).
      apply list_elem_of_fmap. exists (l2sqr q x, i). auto.
    + apply (key_le_dist (d', j) (l2sqr q x, i)).
      eapply StronglySorted_app_1_elem_of; eauto.
Qed.

End search.

(** C2 (as amended). For [k > 0] the search over an index of N vectors
    returns exactly [k] labels.  The first [min(k, N)] of them are distinct
    positions of stored vectors, listed by non-decreasing squared L2
    distance from the query, and no vector left out is closer than one
    listed; the remaining [k - min(k, N)] labels are [-1].  For [k <= 0] the
    search raises an assertion error. *)
Theorem search_contract `{Backend} (ix : IndexFlatL2) (q : Vector) (k : Z) :
  ((0 < k)%Z ->
   exists hits : list (Q * nat),
     let pad := (Z.to_nat k - length hits)%nat in
     let labels := List.map (fun di => Z.of_nat (snd di)) hits ++ replicate pad (-1)%Z in
     IndexFlatL2_search ix q k = inr (List.map fst hits ++ replicate pad FLT_MAX, labels)
     /\ length labels = Z.to_nat k
     /\ length hits = Nat.min (Z.to_nat k) (length (xb ix))
     /\ (forall d i, (d, i) ∈ hits -> exists x, xb ix !! i = Some x /\ d = l2sqr q x)
     /\ NoDup (List.map snd hits)
     /\ StronglySorted Qle (List.map fst hits)
     /\ (forall i x, xb ix !! i = Some x -> i ∉ List.map snd hits ->
         forall d, d ∈ List.map fst hits -> (d <= l2sqr q x)%Q))
  /\ ((k <= 0)%Z -> IndexFlatL2_search ix q k = inl AssertionError).
Proof.
  split; [|apply search_rejects].
  intros Hk. exists (take (Z.to_nat k) (ranked (xb ix) q)).
  destruct (hits_spec (xb ix) q (Z.to_nat k)) as (Hlen & Hel & Hnd & Hs & Hnear).
  cbv zeta. split; [now apply search_accepts|].
  split; [|split; [exact Hlen|split; [exact Hel|split; [exact Hnd|split; [exact Hs|exact Hnear]]]]].
  rewrite length_app, length_map, length_replicate, Hlen. lia.
Qed.

Lemma search_contract_witness :
  let ix := @Build_IndexFlatL2 toy_backend [3; 1; 2]%Q in
  (exists hits : list (Q * nat),
      @IndexFlatL2_search toy_backend ix 0%Q 5
      = inr (List.map fst hits ++ replicate 2 FLT_MAX,
             List.map (fun di => Z.of_nat (snd di)) hits ++ replicate 2 (-1)%Z)
      /\ length hits = 3%nat /\ NoDup (List.map snd hits)
      /\ StronglySorted Qle (List.map fst hits))
  /\ @IndexFlatL2_search toy_backend ix 0%Q 0 = inl AssertionError.
Proof.
  intros ix. split.
  - destruct (@search_contract toy_backend ix 0%Q 5) as [Hpos _].
    destruct Hpos as (hits & E & _ & Hlen & _ & Hnd & Hs & _); [lia|].
    exists hits. cbv zeta in E. rewrite Hlen in E. auto.
  - destruct (@search_contract toy_backend ix 0%Q 0) as [_ Hneg]. apply Hneg. lia.
Defined.

(** C2 at a concrete input: an index of two vectors asked for three
    neighbours returns three labels, the last one [-1], and [retrieve] joins
    three chunk texts, the third being the last chunk again. *)
Lemma search_pads_beyond_index :
  let ix := @Build_IndexFlatL2 toy_backend [14; 5]%Q in
  _index hello_kb = Some ix
  /\ @IndexFlatL2_search toy_backend ix 5%Q 3 = inr ([0; 81; FLT_MAX]%Q, [1; 0; -1]%Z)
  /\ (Nat.min 3 (length (xb ix)) < 3)%nat
  /\ fst (@retrieve toy_backend hello_kb (of_string "howdy") 3 0%nat)
     = inr (join blank_line [of_string "hello"; of_string "# Source: a.md"; of_string "hello"]).
Proof. vm_compute. repeat split; lia. Qed.

(* ===================================================================== *)
(** ** Looking labels up in the chunk list *)
(* ===================================================================== *)

Lemma py_index_nat {A : Type} (l : list A) i x :
  l !! i = Some x -> py_index l (Z.of_nat i) = inr x.
Proof.
  intros Hx. pose proof (lookup_lt_Some _ _ _ Hx) as Hlt. unfold py_index.
  destruct (Z.ltb_spec (Z.of_nat i) 0); [lia|].
  destruct (Z.leb_spec 0 (Z.of_nat i)); [|lia].
  destruct (Z.ltb_spec (Z.of_nat i) (Z.of_nat (length l))); [|lia].
  simpl. now rewrite Nat2Z.id, Hx.
Qed.

(** The label [-1] is a valid Python index: it denotes the last element. *)
Lemma py_index_minus_one {A : Type} (l : list A) x :
  py_index (l ++ [x]) (-1) = inr x.
Proof.
  unfold py_index. rewrite length_app. simpl length.
  destruct (Z.ltb_spec (-1) 0); [|lia].
  destruct (Z.leb_spec 0 ((-1) + Z.of_nat (length l + 1))); [|lia].
  destruct (Z.ltb_spec ((-1) + Z.of_nat (length l + 1)) (Z.of_nat (length l + 1))); [|lia].
  simpl. replace (Z.to_nat ((-1) + Z.of_nat (length l + 1))) with (length l) by lia.
  now rewrite list_lookup_middle.
Qed.

Lemma py_index_all_app {A : Type} (l : list A) idx1 idx2 xs1 xs2 :
  py_index_all l idx1 = inr xs1 -> py_index_all l idx2 = inr xs2 ->
  py_index_all l (idx1 ++ idx2) = inr (xs1 ++ xs2).
Proof.
  revert xs1. induction idx1 as [|i idx1 IH]; intros xs1; simpl.
  - intros [= <-]. auto.
  - destruct (py_index l i); [discriminate|].
    destruct (py_index_all l idx1) eqn:E; [discriminate|].
    intros [= <-] H2. now rewrite (IH _ eq_refl H2).
Qed.

Lemma py_index_all_nat {A : Type} (l : list A) (pos : list nat) :
  (forall i, i ∈ pos -> is_Some (l !! i)) ->
  exists xs, py_index_all l (List.map Z.of_nat pos) = inr xs
             /\ Forall2 (fun i x => l !! i = Some x) pos xs.
Proof.
  induction pos as [|i pos IH]; intros Hv.
  - exists []. split; [reflexivity|constructor].
  - destruct (Hv i) as [x Hx]; [left|].
    destruct IH as (xs & E & F); [intros; apply Hv; now right|].
    exists (x :: xs). simpl. rewrite (py_index_nat _ _ _ Hx), E. auto.
Qed.

Lemma py_index_all_minus_one {A : Type} (l : list A) x n :
  py_index_all (l ++ [x]) (replicate n (-1)%Z) = inr (replicate n x).
Proof.
  induction n as [|n IH]; [reflexivity|].
  cbn [replicate py_index_all]. now rewrite py_index_minus_one, IH.
Qed.

Lemma Forall2_hits {A : Type} (l : list A) (hs : list (Q * nat)) (xs : list A)
    (P : Q * nat -> Prop) :
  Forall P hs ->
  Forall2 (fun i x => l !! i = Some x) (List.map snd hs) xs ->
  Forall2 (fun di x => l !! snd di = Some x /\ P di) hs xs.
Proof.
  revert xs. induction hs as [|di hs IH]; intros xs HP F; inversion F; subst.
  - constructor.
  - inversion HP; subst. constructor; auto.
Qed.

(* ===================================================================== *)
(** ** [KnowledgeBase]: construction and [retrieve] *)
(* ===================================================================== *)

Lemma remove_char_absent c s : c ∉ remove_char c s.
Proof.
  unfold remove_char. rewrite list_elem_of_In, filter_In. intros [_ H].
  now rewrite N.eqb_refl in H.
Qed.

Lemma remove_char_keeps_absent c d s : c ∉ s -> c ∉ remove_char d s.
Proof.
  unfold remove_char. rewrite !list_elem_of_In, filter_In. tauto.
Qed.

(** Sanitization: the cleaned text holds neither U+200B nor U+FEFF. *)
Lemma sanitize_clean s : (ZWSP ∉ sanitize s) /\ (BOM ∉ sanitize s).
Proof.
  unfold sanitize. split.
  - apply remove_char_keeps_absent, remove_char_absent.
  - apply remove_char_absent.
Qed.

Section knowledge_base.
Context `{Backend}.

Lemma init_built env dir h0 kb h1 :
  KnowledgeBase_init env dir h0 = (inr tt, kb, h1) ->
  built kb h0 /\ h1 = advance h0 /\ kb_dir kb = dir.
Proof.
  unfold KnowledgeBase_init, _load.
  destruct (_load_files env _) as [e|corpus]; [discriminate|].
  destruct (load_model env model_name); [discriminate|].
  cbn. intros [= <- <-]. repeat split. cbn. apply chunker_nonempty.
Qed.

(** [retrieve] on a constructed knowledge base, in terms of the search. *)
Lemma retrieve_built kb h0 query k h :
  built kb h0 ->
  retrieve kb query k h
  = (match IndexFlatL2_search {| xb := List.map (embed h0) (_chunks kb) |} (embed h query) k with
     | inl e => inl e
     | inr (_, idx) =>
         match py_index_all (_chunks kb) idx with
         | inl e => inl e
         | inr texts => inr (sanitize (join blank_line texts))
         end
     end, advance h).
Proof.
  intros (Hm & Hi & _). unfold retrieve, retrieve_with, encode. rewrite Hm, Hi. cbn.
  destruct (IndexFlatL2_search _ _ _) as [e|[D idx]]; [reflexivity|].
  destruct (py_index_all _ _); reflexivity.
Qed.

(** The retrieval function of the hands-on session is [retrieve] with
    [top_k = 3] on the module-level chunks and index. *)
Lemma retrieve_relevant_rules_is_retrieve chunks index m query h :
  retrieve_relevant_rules chunks index query h
  = retrieve {| kb_dir := []; _chunks := chunks; _model := Some m; _index := Some index |}
      query 3 h.
Proof. reflexivity. Qed.

(** X1. On a constructed knowledge base of N chunks and for
    [0 < k <= N], [retrieve] returns the texts of [k] distinct chunks joined
    by a blank line and cleaned; they come by non-decreasing distance of
    their embedding from the embedding of the query, and no chunk left out
    is closer than one returned. *)
Lemma retrieve_nearest kb h0 query k h :
  built kb h0 -> (0 < k <= Z.of_nat (length (_chunks kb)))%Z ->
  exists (hits : list (Q * nat)) (texts : list str),
    retrieve kb query k h = (inr (sanitize (join blank_line texts)), advance h)
    /\ length hits = Z.to_nat k
    /\ Forall2 (fun di t => _chunks kb !! snd di = Some t
                            /\ fst di = l2sqr (embed h query) (embed h0 t)) hits texts
    /\ NoDup (List.map snd hits)
    /\ StronglySorted Qle (List.map fst hits)
    /\ (forall i t, _chunks kb !! i = Some t -> i ∉ List.map snd hits ->
        forall d, d ∈ List.map fst hits -> (d <= l2sqr (embed h query) (embed h0 t))%Q).
Proof.
  intros Hb [Hk Hle].
  set (xs := List.map (embed h0) (_chunks kb)).
  set (q := embed h query).
  set (hits := take (Z.to_nat k) (ranked xs q)).
  destruct (hits_spec xs q (Z.to_nat k)) as (Hlen & Hel & Hnd & Hs & Hnear).
  fold hits in Hlen, Hel, Hnd, Hs, Hnear.
  assert (Hxs : length xs = length (_chunks kb)) by apply length_map.
  assert (Hlen' : length hits = Z.to_nat k) by lia.
  assert (Hlook : forall i x, xs !! i = Some x ->
                   exists t, _chunks kb !! i = Some t /\ x = embed h0 t).
  { intros i x Hx. unfold xs in Hx. change (List.map (embed h0) (_chunks kb)) with
      (embed h0 <$> _chunks kb) in Hx. rewrite list_lookup_fmap in Hx.
    destruct (_chunks kb !! i) as [t|]; [|discriminate]. injection Hx as <-. eauto. }
  destruct (py_index_all_nat (_chunks kb) (List.map snd hits)) as (texts & E & F).
  { intros i Hi. change (i ∈ hits.*2) in Hi.
    apply list_elem_of_fmap in Hi as ([d j] & -> & Hdj).
    destruct (Hel _ _ Hdj) as (x & Hx & _). destruct (Hlook _ _ Hx) as (t & Ht & _).
    simpl. eauto. }
  exists hits, texts. split; [|split; [exact Hlen'|split; [|split; [exact Hnd|split; [exact Hs|]]]]].
  - rewrite (retrieve_built kb h0) by exact Hb. fold xs q.
    rewrite search_accepts by exact Hk. cbn [xb]. fold hits.
    rewrite Hlen', Nat.sub_diag. cbn [replicate]. rewrite !app_nil_r.
    rewrite <- (map_map snd Z.of_nat), E. reflexivity.
  - apply (Forall2_hits _ _ _ (fun di => forall t, _chunks kb !! snd di = Some t ->
                                   fst di = l2sqr q (embed h0 t))) in F.
    + eapply Forall2_impl; [exact F|]. intros di t [Ht Hd]. auto.
    + apply Forall_forall. intros [d i] Hdi t Ht. simpl in *.
      destruct (Hel d i Hdi) as (x & Hx & ->).
      destruct (Hlook _ _ Hx) as (t' & Ht' & ->). congruence.
  - intros i t Ht Hni d Hd. apply (Hnear i (embed h0 t)); auto.
    unfold xs. change (List.map (embed h0) (_chunks kb)) with (embed h0 <$> _chunks kb).
    now rewrite list_lookup_fmap, Ht.
Qed.

End knowledge_base.

Lemma picked_all {A : Type} (d : A) (l : list A) (pos : list nat) (xs : list A) :
  pos ≡ₚ seq 0 (length l) ->
  Forall2 (fun i x => l !! i = Some x) pos xs ->
  xs ≡ₚ l.
Proof.
  intros Hp F.
  assert (E : xs = (fun i => nth i l d) <$> pos).
  { clear Hp. induction F as [|i x pos' xs' Hx F IH]; [reflexivity|]. csimpl.
    rewrite (nth_lookup_Some _ _ d _ Hx). f_equal. apply IH. }
  assert (E2 : (fun i => nth i l d) <$> seq 0 (length l) = l).
  { apply list_eq. intros i. rewrite list_lookup_fmap.
    destruct (decide (i < length l)%nat) as [Hi|Hi].
    - rewrite lookup_seq_lt by exact Hi. simpl.
      destruct (lookup_lt_is_Some_2 l i Hi) as [x Hx].
      now rewrite (nth_lookup_Some _ _ d _ Hx), Hx.
    - rewrite lookup_seq_ge by lia. rewrite lookup_ge_None_2 by lia. reflexivity. }
  rewrite E, Hp, E2. reflexivity.
Qed.

(** C1, where the code departs from it.  When [k] exceeds the number N of
    chunks, [retrieve] does not stop at the N chunks there are: the search
    pads its labels with [-1], which as a list index denotes the last chunk,
    so the output is every chunk once (nearest first) followed by [k - N]
    further copies of the last chunk of the knowledge base. *)
Theorem retrieve_repeats_last_chunk `{Backend} (kb : KnowledgeBase) (h0 : Hidden)
    (query : str) (k : Z) (h : Hidden) :
  built kb h0 -> (Z.of_nat (length (_chunks kb)) < k)%Z ->
  exists (texts front : list str) (last_chunk : str),
    _chunks kb = front ++ [last_chunk]
    /\ texts ≡ₚ _chunks kb
    /\ retrieve kb query k h
       = (inr (sanitize (join blank_line
                 (texts ++ replicate (Z.to_nat k - length (_chunks kb)) last_chunk))),
          advance h).
Proof.
  intros Hb Hk.
  destruct (exists_last (proj2 (proj2 Hb))) as (front & last_chunk & Hc).
  set (xs := List.map (embed h0) (_chunks kb)).
  set (q := embed h query).
  assert (Hxs : length xs = length (_chunks kb)) by apply length_map.
  assert (Htake : take (Z.to_nat k) (ranked xs q) = ranked xs q).
  { apply take_ge. rewrite ranked_length. lia. }
  destruct (py_index_all_nat (_chunks kb) (List.map snd (ranked xs q))) as (texts & E & F).
  { intros i Hi. apply lookup_lt_is_Some_2.
    change (i ∈ (ranked xs q).*2) in Hi.
    rewrite (ranked_perm xs q), candidates_positions, elem_of_seq in Hi. lia. }
  exists texts, front, last_chunk. split; [exact Hc|]. split.
  - apply (picked_all [] _ (List.map snd (ranked xs q))); [|exact F].
    change (List.map snd (ranked xs q)) with ((ranked xs q).*2).
    now rewrite (ranked_perm xs q), candidates_positions, Hxs.
  - rewrite (retrieve_built kb h0) by exact Hb. fold xs q.
    rewrite search_accepts by lia. cbn [xb]. rewrite Htake, ranked_length, Hxs.
    rewrite <- (map_map snd Z.of_nat).
    erewrite py_index_all_app; [reflexivity|exact E|].
    rewrite Hc at 1. apply py_index_all_minus_one.
Qed.

Lemma hello_kb_built : @built toy_backend hello_kb 0%nat.
Proof. repeat split. discriminate. Qed.

Lemma retrieve_repeats_last_chunk_witness :
  exists (texts front : list str) (last_chunk : str),
    _chunks hello_kb = front ++ [last_chunk]
    /\ texts ≡ₚ _chunks hello_kb
    /\ @retrieve toy_backend hello_kb (of_string "howdy") 5 0%nat
       = (inr (sanitize (join blank_line
                 (texts ++ replicate (Z.to_nat 5 - length (_chunks hello_kb)) last_chunk))),
          1%nat).
Proof.
  apply (@retrieve_repeats_last_chunk toy_backend hello_kb 0%nat).
  - exact hello_kb_built.
  - vm_compute. reflexivity.
Defined.

(** The default [top_k = 5] on the knowledge base of two chunks: the
    text returned ends in three extra copies of the last chunk. *)
Example retrieve_default_on_two_chunks :
  fst (@retrieve toy_backend hello_kb (of_string "howdy") default_top_k 0%nat)
  = inr (of_string "hello

# Source: a.md

hello

hello

hello").
Proof. vm_compute. reflexivity. Qed.

(** C9 (as amended). On a constructed knowledge base [retrieve(query, k)]
    with [k <= 0], in particular [k = 0], returns no string: the search
    rejects such a [k] and [retrieve] raises its assertion error, whatever
    the corpus. *)
Theorem retrieve_zero_raises `{Backend} (kb : KnowledgeBase) (h0 : Hidden)
    (query : str) (k : Z) (h : Hidden) :
  built kb h0 -> (k <= 0)%Z ->
  retrieve kb query k h = (inl AssertionError, advance h).
Proof.
  intros Hb Hk. rewrite (retrieve_built kb h0) by exact Hb.
  now rewrite search_rejects.
Qed.

Lemma retrieve_zero_raises_witness :
  @retrieve toy_backend hello_kb (of_string "howdy") 0 0%nat = (inl AssertionError, 1%nat).
Proof.
  apply (@retrieve_zero_raises toy_backend hello_kb 0%nat).
  - exact hello_kb_built.
  - lia.
Defined.

(** C9 at a concrete input: with [k = 0] the result is an exception, not
    the empty string. *)
Lemma retrieve_zero_not_empty :
  fst (@retrieve toy_backend hello_kb (of_string "howdy") 0 0%nat) = inl AssertionError
  /\ fst (@retrieve toy_backend hello_kb (of_string "howdy") 0 0%nat) <> inr [].
Proof. vm_compute. split; [reflexivity|discriminate]. Qed.

(** C8. With a deterministic embedder, two calls of [retrieve] on the
    same knowledge base with the same query and the same [k] give the same
    result, whatever the hidden state of the embedder at each call; in
    particular when the second call follows the first. *)
Theorem retrieve_deterministic `{Backend} (kb : KnowledgeBase) (query : str) (k : Z)
    (h1 h2 : Hidden) :
  deterministic ->
  fst (retrieve kb query k h1) = fst (retrieve kb query k h2)
  /\ fst (retrieve kb query k (snd (retrieve kb query k h1))) = fst (retrieve kb query k h1).
Proof.
  intros Hd.
  assert (G : forall a b, fst (retrieve kb query k a) = fst (retrieve kb query k b)).
  { intros a b. unfold retrieve, retrieve_with, encode. cbn.
    rewrite (Hd a b query).
    destruct (_model kb), (_index kb); try reflexivity.
    destruct (IndexFlatL2_search _ _ _) as [e|[D idx]]; [reflexivity|].
    destruct (py_index_all _ _); reflexivity. }
  split; apply G.
Qed.

Lemma toy_deterministic : @deterministic toy_backend.
Proof. intros h h' t. reflexivity. Qed.

Lemma retrieve_deterministic_witness :
  fst (@retrieve toy_backend hello_kb (of_string "howdy") 2 0%nat)
  = fst (@retrieve toy_backend hello_kb (of_string "howdy") 2 7%nat).
Proof.
  apply (@retrieve_deterministic toy_backend hello_kb (of_string "howdy") 2 0%nat 7%nat).
  exact toy_deterministic.
Defined.

(** The hypothesis of C8 is needed: with an embedder whose output drifts,
    the same call gives two different texts. *)
Example retrieve_needs_determinism :
  let kb := snd (fst (@KnowledgeBase_init drifting_backend hello_env (of_string "kb") 0%nat)) in
  fst (@retrieve drifting_backend kb (of_string "howdy") 1 0%nat) = inr (of_string "hello")
  /\ fst (@retrieve drifting_backend kb (of_string "howdy") 1 1%nat)
     = inr (of_string "# Source: a.md").
Proof. vm_compute. split; reflexivity. Qed.

(* ===================================================================== *)
(** ** The cache behind [get_kb] *)
(* ===================================================================== *)

Section registry.
Context `{Backend}.

Lemma get_kb_hit env dir m r :
  _kb_cache m !! dir = Some r -> get_kb env dir m = (inr r, m).
Proof. intros E. unfold get_kb. now rewrite E. Qed.

Lemma get_kb_miss env dir m :
  _kb_cache m !! dir = None ->
  get_kb env dir m
  = let '(res, obj, h') := KnowledgeBase_init env dir (hidden m) in
    let m1 := {| heap := heap m ++ [obj]; _kb_cache := _kb_cache m;
                 hidden := h'; constructions := constructions m ++ [dir] |} in
    match res with
    | inl e => (inl e, m1)
    | inr _ => (inr (length (heap m)),
                {| heap := heap m1; _kb_cache := <[dir := length (heap m)]> (_kb_cache m1);
                   hidden := hidden m1; constructions := constructions m1 |})
    end.
Proof. intros E. unfold get_kb. now rewrite E. Qed.

(** A reference returned by [get_kb] is the entry of the cache. *)
Lemma get_kb_cached env dir m r m1 :
  get_kb env dir m = (inr r, m1) -> _kb_cache m1 !! dir = Some r.
Proof.
  destruct (_kb_cache m !! dir) as [r0|] eqn:E.
  - rewrite (get_kb_hit _ _ _ _ E). now intros [= <- <-].
  - rewrite (get_kb_miss _ _ _ E).
    destruct (KnowledgeBase_init env dir (hidden m)) as [[[e|[]] obj] h']; [discriminate|].
    intros [= <- <-]. cbn. apply lookup_insert_eq.
Qed.

Lemma get_kb_cache_sound env dir m : cache_sound m -> cache_sound (snd (get_kb env dir m)).
Proof.
  intros Hs. destruct (_kb_cache m !! dir) as [r0|] eqn:E.
  - now rewrite (get_kb_hit _ _ _ _ E).
  - rewrite (get_kb_miss _ _ _ E).
    destruct (KnowledgeBase_init env dir (hidden m)) as [[[e|[]] obj] h'] eqn:Ei; cbn.
    + intros d r Hd. cbn in Hd. destruct (Hs d r Hd) as (kb & h0 & Hk & ?).
      exists kb, h0. cbn. split; [|assumption]. now apply lookup_app_l_Some.
    + destruct (init_built _ _ _ _ _ Ei) as (Hb & _ & Hdir).
      intros d r Hd. cbn in Hd. cbn.
      destruct (decide (dir = d)) as [<-|Hne].
      * rewrite lookup_insert_eq in Hd. injection Hd as <-.
        exists obj, (hidden m). split; [|auto]. apply list_lookup_middle. reflexivity.
      * rewrite lookup_insert_ne in Hd by exact Hne.
        destruct (Hs d r Hd) as (kb & h0 & Hk & ?).
        exists kb, h0. split; [|assumption]. now apply lookup_app_l_Some.
Qed.

Lemma reachable_cache_sound m : reachable m -> cache_sound m.
Proof.
  induction 1 as [h|env dir m _ IH].
  - intros d r Hd. cbn in Hd. rewrite lookup_empty in Hd. discriminate.
  - now apply get_kb_cache_sound.
Qed.

(** A call for another location leaves an entry and its object alone. *)
Lemma get_kb_other env dir dir' m r :
  dir' <> dir -> cache_sound m -> _kb_cache m !! dir = Some r ->
  _kb_cache (snd (get_kb env dir' m)) !! dir = Some r
  /\ heap (snd (get_kb env dir' m)) !! r = heap m !! r.
Proof.
  intros Hne Hs Hr. destruct (Hs _ _ Hr) as (kb & h0 & Hk & _).
  destruct (_kb_cache m !! dir') as [r0|] eqn:E.
  - rewrite (get_kb_hit _ _ _ _ E). auto.
  - rewrite (get_kb_miss _ _ _ E).
    destruct (KnowledgeBase_init env dir' (hidden m)) as [[[e|[]] obj] h']; cbn.
    + split; [assumption|]. rewrite Hk. now apply lookup_app_l_Some.
    + rewrite lookup_insert_ne by exact Hne.
      split; [assumption|]. rewrite Hk. now apply lookup_app_l_Some.
Qed.

End registry.

(** C6. In any state the process can reach, if [get_kb(loc)] returns,
    then what it returns refers to a fully constructed [KnowledgeBase] for
    [loc], and a second [get_kb(loc)] returns the same instance and leaves
    the whole state as it is (no object is created, the embedder is not
    called, nothing is logged), whatever has become of the files meanwhile.
    When [loc] was not cached before, the first call has run
    [KnowledgeBase(loc)] once, on the files of that moment: the instance is
    the object this run produced, stored as the newest object and entered
    in the cache, and the two calls together run the constructor exactly
    once.  When [loc] was cached before, the first call constructs nothing
    either.  A call for a different location leaves the entry of [loc] and
    the object it refers to as they are, and what it returns is another
    instance. *)
Theorem get_kb_idempotent `{Backend} (env1 env2 : Env) (loc : str)
    (m m1 : Machine) (r : nat) :
  reachable m ->
  get_kb env1 loc m = (inr r, m1) ->
  get_kb env2 loc m1 = (inr r, m1)
  /\ (exists (kb : KnowledgeBase) (h0 : Hidden),
        heap m1 !! r = Some kb /\ kb_dir kb = loc /\ built kb h0)
  /\ (_kb_cache m !! loc = None ->
      constructions (snd (get_kb env2 loc m1)) = constructions m ++ [loc]
      /\ exists (kb : KnowledgeBase) (h' : Hidden),
           KnowledgeBase_init env1 loc (hidden m) = (inr tt, kb, h')
           /\ built kb (hidden m)
           /\ r = length (heap m)
           /\ heap m1 = heap m ++ [kb]
           /\ heap m1 !! r = Some kb
           /\ hidden m1 = h'
           /\ _kb_cache m1 = <[loc := r]> (_kb_cache m))
  /\ (forall r0, _kb_cache m !! loc = Some r0 -> r = r0 /\ m1 = m)
  /\ (forall (env3 : Env) (loc' : str), loc' <> loc ->
        _kb_cache (snd (get_kb env3 loc' m1)) !! loc = Some r
        /\ heap (snd (get_kb env3 loc' m1)) !! r = heap m1 !! r
        /\ forall r', fst (get_kb env3 loc' m1) = inr r' -> r' <> r).
Proof.
  intros Hreach Hget.
  pose proof (get_kb_cached _ _ _ _ _ Hget) as Hc.
  assert (Hreach1 : reachable m1).
  { change m1 with (snd (inr (A:=exn) r, m1)). rewrite <- Hget. now constructor. }
  pose proof (reachable_cache_sound _ Hreach1) as Hs1.
  split; [now apply get_kb_hit|]. split; [exact (Hs1 _ _ Hc)|]. split; [|split].
  - intros Hnone. rewrite (get_kb_hit _ _ _ _ Hc). cbn [snd].
    rewrite (get_kb_miss _ _ _ Hnone) in Hget.
    destruct (KnowledgeBase_init env1 loc (hidden m)) as [[[e|[]] obj] h'] eqn:Ei;
      [discriminate|].
    injection Hget as <- <-. cbn [constructions heap hidden _kb_cache].
    split; [reflexivity|]. exists obj, h'.
    destruct (init_built _ _ _ _ _ Ei) as (Hb & _ & _).
    split; [reflexivity|]. split; [exact Hb|]. split; [reflexivity|].
    split; [reflexivity|]. split; [|split; reflexivity].
    apply list_lookup_middle. reflexivity.
  - intros r0 Hsome. rewrite (get_kb_hit _ _ _ _ Hsome) in Hget.
    injection Hget as <- <-. split; reflexivity.
  - intros env3 loc' Hne.
    destruct (get_kb_other env3 loc loc' m1 r Hne Hs1 Hc) as [Hc2 Hh2].
    split; [exact Hc2|]. split; [exact Hh2|].
    intros r' Hr' ->.
    destruct (get_kb env3 loc' m1) as [res m2] eqn:E3. cbn in *. subst res.
    pose proof (get_kb_cached _ _ _ _ _ E3) as Hc'.
    assert (Hs2 : cache_sound m2).
    { change m2 with (snd (inr (A:=exn) r, m2)). rewrite <- E3. now apply get_kb_cache_sound. }
    destruct (Hs2 _ _ Hc2) as (kb & _ & Hk & Hd & _).
    destruct (Hs2 _ _ Hc') as (kb' & _ & Hk' & Hd' & _).
    congruence.
Qed.

(** C7. If the constructor raises inside [get_kb(loc)], the exception
    comes out of [get_kb] and the cache is exactly as before, with no entry
    for [loc]; the next [get_kb(loc)] runs the constructor again, and
    returns a fresh, fully constructed instance if this time it succeeds. *)
Theorem get_kb_failure_not_cached `{Backend} (env env2 : Env) (loc : str)
    (m m1 : Machine) (e : exn) :
  get_kb env loc m = (inl e, m1) ->
  _kb_cache m1 = _kb_cache m
  /\ _kb_cache m1 !! loc = None
  /\ constructions (snd (get_kb env2 loc m1)) = constructions m1 ++ [loc]
  /\ (forall kb h', KnowledgeBase_init env2 loc (hidden m1) = (inr tt, kb, h') ->
        fst (get_kb env2 loc m1) = inr (length (heap m1))
        /\ heap (snd (get_kb env2 loc m1)) !! length (heap m1) = Some kb
        /\ built kb (hidden m1)).
Proof.
  intros Hget.
  destruct (_kb_cache m !! loc) as [r0|] eqn:E.
  { rewrite (get_kb_hit _ _ _ _ E) in Hget. discriminate. }
  rewrite (get_kb_miss _ _ _ E) in Hget.
  destruct (KnowledgeBase_init env loc (hidden m)) as [[[e'|[]] obj] h1]; [|discriminate].
  injection Hget as <- <-. cbn [_kb_cache].
  split; [reflexivity|]. split; [exact E|].
  rewrite (get_kb_miss env2 loc) by exact E. cbn [hidden heap constructions].
  split.
  - destruct (KnowledgeBase_init env2 loc h1) as [[[e2|[]] obj2] h2]; reflexivity.
  - intros kb h' Hinit. rewrite Hinit. cbn.
    split; [reflexivity|]. split.
    + apply list_lookup_middle. reflexivity.
    + now destruct (init_built _ _ _ _ _ Hinit).
Qed.

(** The files of [kb] are deleted between the two calls; the second call
    still returns instance 0, which is the object the one run of the
    constructor has built from [a.md]. *)
Lemma get_kb_idempotent_witness :
  let m := @start toy_backend 0%nat in
  let m1 := snd (@get_kb toy_backend hello_env (of_string "kb") m) in
  let gone := one_dir (of_string "kb") [] in
  @reachable toy_backend m
  /\ @get_kb toy_backend hello_env (of_string "kb") m = (inr 0%nat, m1)
  /\ @get_kb toy_backend gone (of_string "kb") m1 = (inr 0%nat, m1)
  /\ constructions (snd (@get_kb toy_backend gone (of_string "kb") m1)) = [of_string "kb"]
  /\ exists kb h',
       @KnowledgeBase_init toy_backend hello_env (of_string "kb") 0%nat = (inr tt, kb, h')
       /\ heap m1 = [kb]
       /\ _chunks kb = [of_string "# Source: a.md"; of_string "hello"].
Proof.
  intros m m1 gone.
  assert (Hr : @reachable toy_backend m) by constructor.
  assert (Hg : @get_kb toy_backend hello_env (of_string "kb") m = (inr 0%nat, m1))
    by (vm_compute; reflexivity).
  destruct (@get_kb_idempotent toy_backend hello_env gone (of_string "kb") m m1 0%nat Hr Hg)
    as (H1 & _ & H2 & _).
  destruct (H2 eq_refl) as (Hlog & kb & h' & Hi & _ & _ & Hheap & _).
  split; [exact Hr|]. split; [exact Hg|]. split; [exact H1|]. split; [exact Hlog|].
  exists kb, h'. split; [exact Hi|]. split; [exact Hheap|].
  vm_compute in Hi. injection Hi as <- _. reflexivity.
Defined.

(** The location does not exist at the first call and exists at the
    second. *)
Lemma get_kb_failure_not_cached_witness :
  let m := @start toy_backend 0%nat in
  let m1 := snd (@get_kb toy_backend hello_env (of_string "docs") m) in
  let later := one_dir (of_string "docs") [(of_string "a.md", of_string "x")] in
  @get_kb toy_backend hello_env (of_string "docs") m = (inl OSError, m1)
  /\ _kb_cache m1 = _kb_cache m
  /\ _kb_cache m1 !! of_string "docs" = None
  /\ constructions (snd (@get_kb toy_backend later (of_string "docs") m1))
     = constructions m1 ++ [of_string "docs"]
  /\ fst (@get_kb toy_backend later (of_string "docs") m1) = inr 1%nat.
Proof.
  intros m m1 later.
  assert (Hg : @get_kb toy_backend hello_env (of_string "docs") m = (inl OSError, m1))
    by (vm_compute; reflexivity).
  destruct (@get_kb_failure_not_cached toy_backend hello_env later (of_string "docs")
              m m1 OSError Hg) as (H1 & H2 & H3 & H4).
  split; [exact Hg|]. split; [exact H1|]. split; [exact H2|]. split; [exact H3|].
  destruct (H4 (snd (fst (@KnowledgeBase_init toy_backend later (of_string "docs") (hidden m1))))
               1%nat) as [H5 _]; [vm_compute; reflexivity|exact H5].
Defined.

(* ===================================================================== *)
(** ** The scan is local *)
(* ===================================================================== *)

Lemma ends_solid_suffix u v : ends_solid (u ++ v) -> ends_solid v.
Proof.
  unfold ends_solid. rewrite rev_app_distr.
  destruct (rev v) as [|c r]; [intros; exact I|]. auto.
Qed.

Lemma ends_solid_cons_nonblank c t : ends_solid (c :: t) -> isspace c = true -> t <> [].
Proof.
  intros He Hc ->. unfold ends_solid in He. simpl in He. congruence.
Qed.

(** Text that ends in a non-blank character decides by itself whether
    [\s*\n] matches at its head. *)
Lemma gap_local t X :
  t <> [] -> ends_solid t -> gap (t ++ X) = option_map (fun r => r ++ X) (gap t).
Proof.
  induction t as [|c t IH]; [congruence|]. intros _ He.
  cbn [app]. rewrite !gap_cons.
  destruct (isspace c) eqn:Hc.
  - pose proof (ends_solid_cons_nonblank c t He Hc) as Hne.
    rewrite (IH Hne (ends_solid_suffix [c] t He)).
    destruct (gap t); [reflexivity|]. destruct (is_nl c); reflexivity.
  - destruct (is_nl c) eqn:En; [|reflexivity].
    apply is_nl_isspace in En. congruence.
Qed.

Lemma break_local v X :
  v <> [] -> ends_solid v ->
  match_here paragraph_break (v ++ X)
  = option_map (fun r => r ++ X) (match_here paragraph_break v).
Proof.
  destruct v as [|c t]; [congruence|]. intros _ He.
  cbn [app]. rewrite !break_cons. destruct (is_nl c) eqn:En; [|reflexivity].
  apply gap_local.
  - apply (ends_solid_cons_nonblank c t He). now apply is_nl_isspace.
  - apply (ends_solid_suffix [c] t He).
Qed.

Lemma break_rest v r :
  ends_solid v -> match_here paragraph_break v = Some r ->
  r <> [] /\ ends_solid r /\ exists pre, v = pre ++ r.
Proof.
  intros He E. destruct (break_sound _ _ E) as (w & Hw & ->).
  assert (Hv : NL :: w ++ NL :: r = (NL :: w ++ [NL]) ++ r).
  { cbn [app]. now rewrite <- app_assoc. }
  rewrite Hv in He. split; [|split].
  - intros ->. rewrite app_nil_r in He.
    apply (blank_ends_solid [] (NL :: w ++ [NL])).
    + cbn. rewrite blank_app, Hw. reflexivity.
    + discriminate.
    + exact He.
  - eapply ends_solid_suffix; eauto.
  - eauto.
Qed.

(** A chunk is cut out of a text: it occurs in it as a contiguous part. *)
Lemma part_of_refl s : part_of s s.
Proof. exists [], []. now rewrite app_nil_r. Qed.

Lemma part_of_app c s a b : part_of c s -> part_of c (a ++ s ++ b).
Proof.
  intros (x & y & ->). exists (a ++ x), (y ++ b). now rewrite <- !app_assoc.
Qed.

(** Scanning a text [A] that ends in a non-blank character: the chunks
    completed inside [A] and the unfinished chunk [rev cur'] do not depend
    on what follows [A]. *)
Lemma scan_spec : forall (n : nat) (A cur : str),
  (length A <= n)%nat -> ends_solid A ->
  exists (done : list str) (cur' : str),
    pieces cur A = done ++ [rev cur']
    /\ (forall X, pieces cur (A ++ X) = done ++ pieces cur' X)
    /\ Forall (fun c => part_of c (rev cur ++ A)) done
    /\ exists pre, rev cur ++ A = pre ++ rev cur'.
Proof.
  induction n as [|n IH]; intros A cur Hn He.
  - destruct A; [|simpl in Hn; lia]. exists [], cur.
    rewrite pieces_nil. repeat split; [constructor|]. exists []. now rewrite app_nil_r.
  - destruct A as [|c t].
    { exists [], cur. rewrite pieces_nil. repeat split; [constructor|].
      exists []. now rewrite app_nil_r. }
    simpl in Hn.
    destruct (match_here paragraph_break (c :: t)) as [r|] eqn:E.
    + destruct (break_rest _ _ He E) as (Hr & Her & pre & Hpre).
      pose proof (break_shorter _ _ E) as Hlen. simpl in Hlen.
      destruct (IH r [] ltac:(lia) Her) as (done & cur' & Hp & HX & Hparts & suf & Hsuf).
      exists (rev cur :: done), cur'. split; [|split; [|split]].
      * rewrite (pieces_hit _ _ _ E), Hp. reflexivity.
      * intros X. erewrite pieces_hit.
        2:{ rewrite break_local by (discriminate || exact He). rewrite E. reflexivity. }
        rewrite HX. reflexivity.
      * constructor.
        -- exists [], (c :: t). reflexivity.
        -- eapply Forall_impl; [exact Hparts|]. intros x Hx. cbn [rev app] in Hx.
           rewrite Hpre. now apply (part_of_app x r (rev cur ++ pre) []) in Hx;
             rewrite app_nil_r, <- app_assoc in Hx.
      * cbn [rev app] in Hsuf. exists (rev cur ++ pre ++ suf).
        rewrite Hpre, Hsuf, <- !app_assoc. reflexivity.
    + destruct (IH t (c :: cur) ltac:(lia) (ends_solid_suffix [c] t He))
        as (done & cur' & Hp & HX & Hparts & suf & Hsuf).
      cbn [rev] in Hparts, Hsuf. rewrite <- app_assoc in Hparts, Hsuf.
      exists done, cur'. split; [|split; [|split]].
      * rewrite (pieces_miss _ _ _ E). exact Hp.
      * intros X. cbn [app]. rewrite pieces_miss; [apply HX|].
        change (c :: t ++ X) with ((c :: t) ++ X).
        rewrite break_local by (discriminate || exact He). now rewrite E.
      * exact Hparts.
      * eauto.
Qed.

(** Crossing a separator: the chunk in progress ends at the first
    newline, the next one starts after the last newline. *)
Lemma pieces_separator cur u Z :
  separator u -> starts_solid Z ->
  pieces cur (u ++ Z)
  = (rev cur ++ before_first_nl u) :: pieces (rev (after_last_nl u)) Z.
Proof.
  intros Hu HZ. destruct (separator_nl u Hu) as [Hnl Hnl2].
  rewrite (before_from_first_nl u Hnl) at 1. rewrite <- app_assoc.
  rewrite pieces_solid.
  2:{ rewrite <- (app_nil_r (before_first_nl u)).
      apply solid_no_nl_app; [apply before_first_nl_no_nl|apply solid_nil]. }
  cbn [app]. erewrite pieces_hit.
  2:{ rewrite break_cons, is_nl_NL, gap_blank; [|apply from_first_nl_blank, Hu|exact HZ].
      rewrite Hnl2. reflexivity. }
  rewrite rev_app_distr, rev_involutive. f_equal.
  assert (Ea : after_last_nl (from_first_nl u) = after_last_nl u).
  { rewrite (before_from_first_nl u Hnl) at 2.
    change (NL :: from_first_nl u) with ([NL] ++ from_first_nl u).
    now rewrite !after_last_nl_app. }
  rewrite Ea, pieces_solid.
  - now rewrite app_nil_r.
  - rewrite <- (app_nil_r (after_last_nl u)).
    apply solid_no_nl_app; [apply after_last_nl_no_nl|apply solid_nil].
Qed.

(* ===================================================================== *)
(** ** The chunks of a loaded corpus *)
(* ===================================================================== *)

Lemma lstrip_decompose s :
  exists lw, s = lw ++ lstrip s /\ blank lw = true /\ starts_solid (lstrip s).
Proof.
  induction s as [|c t (lw & E & Hb & Hs)].
  - exists []. repeat split.
  - simpl. destruct (isspace c) eqn:Hc.
    + exists (c :: lw). simpl. rewrite Hc, Hb. rewrite E at 1. auto.
    + exists []. repeat split. exact Hc.
Qed.

Lemma rstrip_decompose s :
  exists tw, s = rstrip s ++ tw /\ blank tw = true /\ ends_solid (rstrip s).
Proof.
  destruct (lstrip_decompose (rev s)) as (w & E & Hb & Hs).
  exists (rev w). unfold rstrip, ends_solid. rewrite rev_involutive, blank_rev.
  split; [|auto]. rewrite <- rev_app_distr, <- E. now rewrite rev_involutive.
Qed.

Lemma strip_decompose c :
  exists lw tw, c = lw ++ strip c ++ tw
                /\ (blank c = false -> rstrip c = lw ++ strip c)
                /\ blank lw = true /\ blank tw = true
                /\ starts_solid (strip c) /\ ends_solid (strip c)
                /\ (blank c = true -> strip c = [])
                /\ (blank c = false -> strip c <> []).
Proof.
  destruct (lstrip_decompose c) as (lw & E & Hlw & Hs).
  destruct (rstrip_decompose (lstrip c)) as (tw & E2 & Htw & He).
  fold (strip c) in E2, He.
  assert (Hss : starts_solid (strip c)).
  { destruct (strip c) as [|x r] eqn:Es; [exact I|].
    rewrite E2 in Hs. exact Hs. }
  assert (Hc : c = lw ++ strip c ++ tw) by (rewrite <- E2; exact E).
  exists lw, tw. split; [exact Hc|]. split; [|split; [exact Hlw|split; [exact Htw|
    split; [exact Hss|split; [exact He|split]]]]].
  - intros Hb. rewrite Hc at 1. rewrite app_assoc, rstrip_blank_app by exact Htw.
    destruct (strip c) as [|x r] eqn:Es.
    + rewrite Hc, !blank_app, Hlw, Htw in Hb. discriminate.
    + apply rstrip_app_solid; [discriminate|exact He].
  - intros Hb. now apply strip_blank.
  - intros Hb Es. rewrite Es in Hc. rewrite Hc, !blank_app, Hlw, Htw in Hb. discriminate.
Qed.

Lemma rstrip_app_keep X Y : rstrip Y <> [] -> rstrip (X ++ Y) = X ++ rstrip Y.
Proof.
  intros Hne. destruct (rstrip_decompose Y) as (tw & E & Hb & He).
  rewrite E at 1. rewrite app_assoc, rstrip_blank_app by exact Hb.
  rewrite rstrip_app_solid; auto.
Qed.

Lemma startswith_spec p s : startswith p s = true -> exists r, s = p ++ r.
Proof.
  revert s. induction p as [|a p IH]; intros s; [eauto|].
  destruct s as [|b s]; [discriminate|]. simpl. intros H.
  apply andb_true_iff in H as [Hab Hp]. apply N.eqb_eq in Hab. subst b.
  destruct (IH _ Hp) as [r ->]. eauto.
Qed.

Lemma endswith_spec suffix s : endswith suffix s = true -> exists p, s = p ++ suffix.
Proof.
  unfold endswith. intros H. apply startswith_spec in H as [r Hr].
  exists (rev r). rewrite <- (rev_involutive s), Hr, rev_app_distr, rev_involutive.
  reflexivity.
Qed.

Lemma has_break_cons_no_nl c s : is_nl c = false -> has_break (c :: s) = has_break s.
Proof. intros Hc. cbn [has_break]. now rewrite break_cons, Hc. Qed.

(** The header of an eligible file whose name has no break inside is one
    paragraph. *)
Lemma header_paragraph f :
  eligible f = true -> ~ blank_line_break f -> paragraph (header f).
Proof.
  intros He Hn. apply endswith_spec in He as [p ->]. unfold header.
  split; [discriminate|]. split; [reflexivity|]. split.
  - rewrite !app_assoc. apply ends_solid_app; [discriminate|reflexivity].
  - intros Hb. apply Hn. apply has_break_spec. apply has_break_spec in Hb.
    cbn [of_string app] in Hb.
    rewrite !has_break_cons_no_nl in Hb by reflexivity. exact Hb.
Qed.

Lemma header_solid f : eligible f = true -> ~ blank_line_break f -> solid (header f).
Proof. intros. now apply paragraph_solid, header_paragraph. Qed.

Lemma corpus_of_tail content files :
  corpus_of content files ++ [NL; NL] = [NL; NL] ++ corpus_tail content files.
Proof.
  induction files as [|f rest IH]; [reflexivity|].
  unfold corpus_of, corpus_tail in *. cbn [List.map List.concat].
  unfold block at 1. rewrite <- !app_assoc. rewrite IH.
  rewrite <- ?app_assoc. reflexivity.
Qed.

Lemma strip_corpus content f rest :
  strip (corpus_of content (f :: rest)) = rstrip (corpus_tail content (f :: rest)).
Proof.
  assert (E : corpus_of content (f :: rest)
              = [NL; NL] ++ header f ++ [NL; NL] ++ content f ++ corpus_of content rest).
  { unfold corpus_of. cbn [List.map List.concat]. unfold block.
    rewrite <- ?app_assoc. reflexivity. }
  unfold strip. rewrite E, lstrip_blank_app by reflexivity.
  rewrite lstrip_solid by reflexivity.
  rewrite <- (rstrip_blank_app _ [NL; NL]) by reflexivity.
  f_equal. rewrite <- ?app_assoc. rewrite corpus_of_tail.
  unfold corpus_tail. cbn [List.map List.concat]. rewrite <- ?app_assoc. reflexivity.
Qed.

Lemma after_last_nl_suffix u : exists p, u = p ++ after_last_nl u.
Proof.
  induction u as [|c t [p IH]]; [exists []; reflexivity|].
  simpl. destruct (existsb is_nl t).
  - exists (c :: p). simpl. now rewrite <- IH.
  - destruct (is_nl c); [exists [c]|exists []]; reflexivity.
Qed.

Lemma before_first_nl_prefix x y : exists s, x = before_first_nl (x ++ NL :: y) ++ s.
Proof.
  induction x as [|c x [s IH]]; [exists []; reflexivity|].
  simpl. destruct (is_nl c).
  - exists (c :: x). reflexivity.
  - exists s. simpl. now rewrite <- IH.
Qed.

Lemma headers_apart_cons content f rest mid chunks :
  Forall (fun x => part_of x (content f)) mid ->
  headers_apart content rest chunks ->
  headers_apart content (f :: rest) (header f :: mid ++ chunks).
Proof.
  intros Hmid [Hh Hc]. split.
  - intros g [<-|Hg]; [now left|]. right. apply in_or_app. right. auto.
  - intros c [<-|Hin].
    + left. exists f. split; [now left|reflexivity].
    + apply in_app_or in Hin as [Hin|Hin].
      * right. exists f. split; [now left|].
        rewrite Forall_forall in Hmid. apply Hmid. now apply list_elem_of_In.
      * destruct (Hc c Hin) as [(g & Hg & E)|(g & Hg & P)]; [left|right];
          exists g; (split; [now right|assumption]).
Qed.

Lemma headers_apart_nil content : headers_apart content [] [].
Proof. split; intros ? []. Qed.

(** The chunks cut from the body of one file, scanned after the
    separator [\n\n] + leading whitespace: all of them, the unfinished one
    extended by any prefix of the trailing whitespace, lie inside the
    content. *)
Lemma body_pieces c lw tw :
  c = lw ++ strip c ++ tw -> ends_solid (strip c) ->
  exists (done : list str) (cur' : str),
    (forall X, pieces (rev (after_last_nl ([NL; NL] ++ lw))) (strip c ++ X)
               = done ++ pieces cur' X)
    /\ Forall (fun x => part_of x c) done
    /\ (forall pfx s, tw = pfx ++ s -> part_of (rev cur' ++ pfx) c).
Proof.
  intros Hc He.
  destruct (scan_spec (length (strip c)) (strip c) (rev (after_last_nl ([NL; NL] ++ lw)))
              (le_n _) He) as (done & cur' & _ & HX & Hparts & pre & Hpre).
  rewrite rev_involutive in Hparts, Hpre.
  assert (Hsuf : exists p1, lw = p1 ++ after_last_nl ([NL; NL] ++ lw)).
  { cbn. destruct (existsb is_nl lw); [apply after_last_nl_suffix|exists []; reflexivity]. }
  destruct Hsuf as [p1 Hp1].
  exists done, cur'. split; [exact HX|]. split.
  - eapply Forall_impl; [exact Hparts|]. intros x Hx.
    rewrite Hc, Hp1, <- app_assoc.
    apply (part_of_app x _ p1 tw) in Hx. now rewrite <- app_assoc in Hx.
  - intros pfx s ->. exists (p1 ++ pre), s.
    rewrite Hc at 1. rewrite Hp1 at 1.
    rewrite <- !app_assoc. f_equal.
    rewrite (app_assoc (after_last_nl _)), Hpre, <- !app_assoc. reflexivity.
Qed.

Lemma separator_after_header lw : blank lw = true -> separator ([NL; NL] ++ lw).
Proof.
  intros Hb. split; [cbn; exact Hb|]. exists [], [], lw. split; reflexivity.
Qed.

Lemma separator_before_header tw : blank tw = true -> separator (tw ++ [NL; NL]).
Proof.
  intros Hb. split; [rewrite blank_app, Hb; reflexivity|].
  exists tw, [], []. split; reflexivity.
Qed.

Lemma separator_blank_content c : blank c = true -> separator ([NL; NL] ++ c ++ [NL; NL]).
Proof.
  intros Hb. split; [cbn; rewrite blank_app, Hb; reflexivity|].
  exists [], [], (c ++ [NL; NL]). split; reflexivity.
Qed.

Lemma after_last_nl_closing x : after_last_nl (x ++ [NL; NL]) = [].
Proof. rewrite after_last_nl_app by reflexivity. reflexivity. Qed.
Lemma pieces_stripped_tail content files :
  files <> [] ->
  (forall f, In f files -> eligible f = true /\ ~ blank_line_break f) ->
  headers_apart content files (pieces [] (stripped_tail content files)).
Proof.
  induction files as [|f rest IH]; [congruence|]. intros _ Hok.
  destruct (Hok f (or_introl eq_refl)) as [Hel Hnb].
  pose proof (header_solid f Hel Hnb) as Hsolid.
  assert (Hhead : forall X, pieces [] (header f ++ X) = pieces (rev (header f)) X).
  { intros X. rewrite pieces_solid by exact Hsolid. now rewrite app_nil_r. }
  destruct (strip_decompose (content f))
    as (lw & tw & Hc & Hr & Hlw & Htw & Hss & Hes & Hb1 & Hb2).
  destruct (body_pieces (content f) lw tw Hc Hes) as (done & cur' & HX & Hparts & Hlast).
  destruct rest as [|g rest'].
  - (* the last file *)
    cbn [stripped_tail]. rewrite Hhead. destruct (blank (content f)) eqn:Hb.
    + rewrite pieces_nil, rev_involutive.
      apply (headers_apart_cons content f [] [] []); [constructor|apply headers_apart_nil].
    + rewrite (Hr eq_refl), app_assoc.
      rewrite pieces_separator by (auto using separator_after_header).
      rewrite rev_involutive. change (before_first_nl ([NL; NL] ++ lw)) with (@nil N).
      rewrite app_nil_r.
      rewrite <- (app_nil_r (strip (content f))), HX, pieces_nil.
      rewrite <- (app_nil_r (done ++ [rev cur'])).
      apply headers_apart_cons; [|apply headers_apart_nil].
      apply Forall_app. split; [exact Hparts|]. constructor; [|constructor].
      rewrite <- (app_nil_r (rev cur')). apply (Hlast [] tw). reflexivity.
  - (* a file followed by others *)
    assert (Hrest : headers_apart content (g :: rest')
                      (pieces [] (stripped_tail content (g :: rest')))).
    { apply IH; [discriminate|]. intros x Hx. apply Hok. now right. }
    assert (Hst : starts_solid (stripped_tail content (g :: rest'))) by reflexivity.
    set (S' := stripped_tail content (g :: rest')) in *.
    change (stripped_tail content (f :: g :: rest'))
      with (header f ++ [NL; NL] ++ content f ++ [NL; NL] ++ S').
    rewrite Hhead. destruct (blank (content f)) eqn:Hb.
    + replace ([NL; NL] ++ content f ++ [NL; NL] ++ S')
        with (([NL; NL] ++ content f ++ [NL; NL]) ++ S')
        by (rewrite <- ?app_assoc; reflexivity).
      rewrite pieces_separator by (auto using separator_blank_content).
      rewrite rev_involutive.
      change ([NL; NL] ++ content f ++ [NL; NL]) with (NL :: NL :: (content f ++ [NL; NL])).
      cbn [before_first_nl is_nl]. change (NL =? NL) with true. cbv iota.
      rewrite app_nil_r.
      change (NL :: NL :: content f ++ [NL; NL]) with (([NL;NL] ++ content f) ++ [NL;NL]).
      rewrite after_last_nl_closing.
      apply (headers_apart_cons content f (g :: rest') []); [constructor|exact Hrest].
    + replace ([NL; NL] ++ content f ++ [NL; NL] ++ S')
        with (([NL; NL] ++ lw) ++ strip (content f) ++ (tw ++ [NL; NL]) ++ S')
        by (rewrite Hc at 2; rewrite <- ?app_assoc; reflexivity).
      rewrite pieces_separator.
      2:{ now apply separator_after_header. }
      2:{ apply starts_solid_app; [now apply Hb2|exact Hss]. }
      rewrite rev_involutive. change (before_first_nl ([NL; NL] ++ lw)) with (@nil N).
      rewrite app_nil_r, HX.
      rewrite pieces_separator by (auto using separator_before_header).
      rewrite after_last_nl_closing.
      change (done ++ (rev cur' ++ before_first_nl (tw ++ [NL; NL])) :: pieces (rev []) S')
        with (done ++ [rev cur' ++ before_first_nl (tw ++ [NL; NL])] ++ pieces [] S').
      rewrite app_assoc.
      apply headers_apart_cons; [|exact Hrest].
      apply Forall_app. split; [exact Hparts|]. constructor; [|constructor].
      destruct (before_first_nl_prefix tw [NL]) as [s Hs].
      apply (Hlast _ s). exact Hs.
Qed.

Lemma header_ends_solid f : eligible f = true -> ends_solid (header f).
Proof.
  intros He. apply endswith_spec in He as [p ->]. unfold header.
  rewrite !app_assoc. apply ends_solid_app; [discriminate|reflexivity].
Qed.

Lemma rstrip_header_app f w :
  eligible f = true -> blank w = true -> rstrip (header f ++ w) = header f.
Proof.
  intros He Hw. rewrite rstrip_blank_app by exact Hw.
  apply rstrip_solid. now apply header_ends_solid.
Qed.

Lemma rstrip_corpus_tail content files :
  (forall f, In f files -> eligible f = true) ->
  rstrip (corpus_tail content files) = stripped_tail content files.
Proof.
  induction files as [|f rest IH]; intros Hok; [reflexivity|].
  assert (Hf : eligible f = true) by (apply Hok; now left).
  unfold corpus_tail. cbn [List.map List.concat]. fold (corpus_tail content rest).
  destruct rest as [|g rest'].
  - cbn [corpus_tail List.map List.concat stripped_tail]. rewrite app_nil_r.
    destruct (blank (content f)) eqn:Hb.
    + rewrite app_nil_r. apply rstrip_header_app; [exact Hf|].
      cbn. rewrite blank_app, Hb. reflexivity.
    + destruct (strip_decompose (content f)) as (lw & tw & Hc & Hr & _ & _ & _ & _ & _ & Hne).
      replace (header f ++ [NL; NL] ++ content f ++ [NL; NL])
        with ((header f ++ [NL; NL] ++ content f) ++ [NL; NL])
        by (rewrite <- ?app_assoc; reflexivity).
      rewrite rstrip_blank_app by reflexivity.
      replace (header f ++ [NL; NL] ++ content f)
        with ((header f ++ [NL; NL]) ++ content f)
        by (rewrite <- ?app_assoc; reflexivity).
      rewrite rstrip_app_keep.
      * rewrite <- ?app_assoc. reflexivity.
      * rewrite (Hr Hb). intros E. apply app_eq_nil in E as [_ E]. now apply Hne.
  - rewrite rstrip_app_keep.
    + rewrite IH by (intros; apply Hok; now right).
      cbn [stripped_tail]. rewrite <- ?app_assoc. reflexivity.
    + rewrite IH by (intros; apply Hok; now right). discriminate.
Qed.

Lemma chunker_corpus content files :
  files <> [] -> (forall f, In f files -> eligible f = true) ->
  chunker (corpus_of content files) = pieces [] (stripped_tail content files).
Proof.
  intros Hne Hok. destruct files as [|f rest]; [congruence|].
  unfold chunker. rewrite strip_corpus, rstrip_corpus_tail by exact Hok.
  apply re_split_pieces.
Qed.

Lemma init_chunks `{Backend} env dir h kb h' corpus :
  KnowledgeBase_init env dir h = (inr tt, kb, h') ->
  _load_files env {| kb_dir := dir; _chunks := []; _model := None; _index := None |}
  = inr corpus ->
  _chunks kb = chunker corpus.
Proof.
  unfold KnowledgeBase_init, _load. intros Hi Hl. rewrite Hl in Hi.
  destruct (load_model env model_name); [discriminate|].
  cbn in Hi. now injection Hi as <- _.
Qed.

(** C5 (as amended). When the location can be listed and its [.md] files
    read, the corpus is the concatenation, over exactly the names ending in
    [.md] taken in ascending order, of a blank line, the header
    [# Source: <name>], a blank line and the content of the file.  The
    chunks of a knowledge base constructed there are the chunks of this
    corpus, and the blank line after each header cuts it off from the
    content: when there is an eligible file and no eligible file name has a
    blank-line break inside, every header is a chunk of its own and every
    other chunk is cut out of the content of one file alone, without the
    header that names the file. *)
Theorem load_files_corpus `{Backend} (env : Env) (self : KnowledgeBase)
    (names : list str) (content : str -> str) :
  os_listdir env (kb_dir self) = inr names ->
  (forall f, In f names -> endswith (of_string ".md") f = true ->
             open_read env (os_path_join (kb_dir self) f) = inr (content f)) ->
  let files := md_files names in
  let corpus := List.concat (List.map
                  (fun f => [NL; NL] ++ of_string "# Source: " ++ f ++ [NL; NL] ++ content f)
                  files) in
  _load_files env self = inr corpus
  /\ StronglySorted str_le files
  /\ files ≡ₚ List.filter (endswith (of_string ".md")) names
  /\ (forall f, In f files <-> In f names /\ endswith (of_string ".md") f = true)
  /\ (forall (h h' : Hidden) (kb : KnowledgeBase),
        KnowledgeBase_init env (kb_dir self) h = (inr tt, kb, h') ->
        _chunks kb = chunker corpus
        /\ (files <> [] ->
            (forall f, In f files -> ~ blank_line_break f) ->
            (forall f, In f files -> In (of_string "# Source: " ++ f) (_chunks kb))
            /\ (forall c, In c (_chunks kb) ->
                  (exists f, In f files /\ c = of_string "# Source: " ++ f)
                  \/ (exists f, In f files /\ part_of c (content f))))).
Proof.
  intros Hl Hr files corpus.
  pose proof (load_files_ok env self names content Hl Hr) as Hload.
  split; [exact Hload|]. split; [apply md_files_sorted|]. split; [apply md_files_perm|].
  split; [apply md_files_In|].
  intros h h' kb Hi.
  assert (Hself : _load_files env
                    {| kb_dir := kb_dir self; _chunks := []; _model := None; _index := None |}
                  = inr (corpus_of content (md_files names)))
    by (apply load_files_ok; assumption).
  pose proof (init_chunks env (kb_dir self) h kb h' _ Hi Hself) as Hchunks.
  split; [exact Hchunks|].
  intros Hne Hnb. rewrite Hchunks.
  rewrite chunker_corpus;
    [|exact Hne|intros f Hf; now apply (md_files_In names) in Hf].
  destruct (pieces_stripped_tail content (md_files names) Hne) as [Hh Hc].
  { intros f Hf. split; [now apply (md_files_In names) in Hf|now apply Hnb]. }
  split; [exact Hh|exact Hc].
Qed.

Lemma load_files_corpus_witness :
  let env := one_dir (of_string "kb")
               [(of_string "b.md", of_string "beta"); (of_string "notes.txt", of_string "no");
                (of_string "a.md", of_string "alpha")] in
  let kb := snd (fst (@KnowledgeBase_init toy_backend env (of_string "kb") 0%nat)) in
  @_load_files toy_backend env
     {| kb_dir := of_string "kb"; _chunks := []; _model := None; _index := None |}
  = inr (of_string "

# Source: a.md

alpha

# Source: b.md

beta")
  /\ _chunks kb = [of_string "# Source: a.md"; of_string "alpha";
                   of_string "# Source: b.md"; of_string "beta"]
  /\ In (of_string "# Source: b.md") (_chunks kb).
Proof.
  intros env kb.
  pose (content := fun f : str => if decide (f = of_string "a.md") then of_string "alpha"
                                  else of_string "beta").
  destruct (@load_files_corpus toy_backend env
              {| kb_dir := of_string "kb"; _chunks := []; _model := None; _index := None |}
              [of_string "b.md"; of_string "notes.txt"; of_string "a.md"] content)
    as (E & _ & _ & _ & Hk).
  - reflexivity.
  - intros f [<-|[<-|[<-|[]]]]; intros; try discriminate; reflexivity.
  - destruct (Hk 0%nat 1%nat kb) as [Hchunks Hheaders]; [vm_compute; reflexivity|].
    split; [exact E|]. split; [rewrite Hchunks; vm_compute; reflexivity|].
    destruct Hheaders as [Hh _].
    + vm_compute. discriminate.
    + intros f Hf. apply no_break_check.
      assert (Hab : f = of_string "a.md" \/ f = of_string "b.md").
      { vm_compute in Hf. destruct Hf as [<-|[<-|[]]]; [left|right]; reflexivity. }
      destruct Hab as [->| ->]; reflexivity.
    + apply Hh. vm_compute. right. left. reflexivity.
Defined.

(** C5, the clause on traceability, at a concrete input: the directory
    [kb] holds one file [a.md] with content [hello].  The chunk [hello] is
    cut without the header, and retrieving the nearest chunk for a query
    returns [hello], which names no source. *)
Lemma provenance_lost :
  let env := one_dir (of_string "kb") [(of_string "a.md", of_string "hello")] in
  let '(res, kb, h) := @KnowledgeBase_init toy_backend env (of_string "kb") 0%nat in
  res = inr tt
  /\ _chunks kb = [of_string "# Source: a.md"; of_string "hello"]
  /\ fst (@retrieve toy_backend kb (of_string "howdy") 1 h) = inr (of_string "hello")
  /\ contains (of_string "a.md") (of_string "hello") = false
  /\ contains (of_string "Source:") (of_string "hello") = false.
Proof. vm_compute. repeat split. Qed.

(** C10 (as amended). When the eligible file names have no blank-line
    break inside (and there is at least one eligible file), every
    provenance header [# Source: <name>] is a chunk by itself, and every
    other chunk is cut out of the content of one file, so it holds nothing
    of the text the loader added. *)
Theorem headers_standalone `{Backend} (env : Env) (dir : str) (h h' : Hidden)
    (names : list str) (content : str -> str) (kb : KnowledgeBase) :
  os_listdir env dir = inr names ->
  (forall f, In f names -> endswith (of_string ".md") f = true ->
             open_read env (os_path_join dir f) = inr (content f)) ->
  (exists f, In f names /\ endswith (of_string ".md") f = true) ->
  (forall f, In f names -> endswith (of_string ".md") f = true -> ~ blank_line_break f) ->
  KnowledgeBase_init env dir h = (inr tt, kb, h') ->
  (forall f, In f names -> endswith (of_string ".md") f = true ->
             In (of_string "# Source: " ++ f) (_chunks kb))
  /\ (forall c, In c (_chunks kb) ->
        (exists f, In f names /\ endswith (of_string ".md") f = true
                   /\ c = of_string "# Source: " ++ f)
        \/ (exists f, In f names /\ endswith (of_string ".md") f = true
                      /\ part_of c (content f))).
Proof.
  intros Hl Hr (f0 & Hf0 & He0) Hnb Hi.
  set (self := {| kb_dir := dir; _chunks := []; _model := None; _index := None |}).
  pose proof (load_files_ok env self names content Hl Hr) as Hload.
  pose proof (md_files_In names) as Hin.
  rewrite (init_chunks env dir h kb h' _ Hi Hload).
  assert (Hne : md_files names <> []).
  { intros E. assert (Hx : In f0 (md_files names)) by (apply Hin; auto).
    rewrite E in Hx. destruct Hx. }
  rewrite chunker_corpus; [|exact Hne|intros f Hf; now apply Hin in Hf].
  destruct (pieces_stripped_tail content (md_files names) Hne) as [Hh Hc].
  { intros f Hf. apply Hin in Hf as [? ?]. split; auto. }
  split.
  - intros f Hf He. apply (Hh f). apply Hin. auto.
  - intros c Hcin. destruct (Hc c Hcin) as [(f & Hf & E)|(f & Hf & P)];
      apply Hin in Hf as [? ?]; [left|right]; exists f; auto.
Qed.

Lemma headers_standalone_witness :
  In (of_string "# Source: a.md") (_chunks hello_kb)
  /\ (forall c, In c (_chunks hello_kb) ->
        (exists f, In f [of_string "a.md"] /\ endswith (of_string ".md") f = true
                   /\ c = of_string "# Source: " ++ f)
        \/ (exists f, In f [of_string "a.md"] /\ endswith (of_string ".md") f = true
                      /\ part_of c (of_string "hello"))).
Proof.
  destruct (@headers_standalone toy_backend hello_env (of_string "kb") 0%nat 1%nat
              [of_string "a.md"] (fun _ => of_string "hello") hello_kb) as [H1 H2].
  - reflexivity.
  - intros f [<-|[]] _. reflexivity.
  - exists (of_string "a.md"). split; [now left|reflexivity].
  - intros f [<-|[]] _. apply no_break_check. reflexivity.
  - vm_compute. reflexivity.
  - split; [|exact H2]. apply H1; [now left|reflexivity].
Defined.

(** C10 at a concrete input: a file whose name holds a blank line,
    [a\n\nb.md].  Its header is cut in two, so it is not a chunk. *)
Lemma header_cut_by_file_name :
  let name := of_string "a

b.md" in
  let env := one_dir (of_string "kb") [(name, of_string "x")] in
  let kb := snd (fst (@KnowledgeBase_init toy_backend env (of_string "kb") 0%nat)) in
  eligible name = true
  /\ _chunks kb = [of_string "# Source: a"; of_string "b.md"; of_string "x"]
  /\ ~ In (header name) (_chunks kb).
Proof.
  vm_compute. split; [reflexivity|]. split; [reflexivity|].
  intros [H|[H|[H|[]]]]; discriminate.
Qed.

(* ===================================================================== *)
(** * Further properties of the code *)
(* ===================================================================== *)

(* ===================================================================== *)
(** ** [KnowledgeBase.retrieve] *)
(* ===================================================================== *)

Lemma retrieve_nearest_witness :
  exists (hits : list (Q * nat)) (texts : list str),
    @retrieve toy_backend hello_kb (of_string "howdy") 2 0%nat
    = (inr (sanitize (join blank_line texts)), 1%nat)
    /\ length hits = 2%nat
    /\ Forall2 (fun di t => _chunks hello_kb !! snd di = Some t
                            /\ fst di = @l2sqr toy_backend (@embed toy_backend 0%nat (of_string "howdy"))
                                          (@embed toy_backend 0%nat t)) hits texts
    /\ NoDup (List.map snd hits)
    /\ StronglySorted Qle (List.map fst hits).
Proof.
  destruct (@retrieve_nearest toy_backend hello_kb 0%nat (of_string "howdy") 2 0%nat)
    as (hits & texts & E & Hl & F & Hn & Hs & _).
  - exact hello_kb_built.
  - vm_compute. split; [reflexivity|discriminate].
  - exists hits, texts. auto.
Defined.

Lemma py_index_all_members {A : Type} (l : list A) idx xs :
  py_index_all l idx = inr xs -> length xs = length idx /\ Forall (fun x => In x l) xs.
Proof.
  revert xs. induction idx as [|i idx IH]; intros xs; simpl.
  - intros [= <-]. split; [reflexivity|constructor].
  - destruct (py_index l i) as [e|x] eqn:Ei; [discriminate|].
    destruct (py_index_all l idx) as [e|xs'] eqn:E; [discriminate|].
    intros [= <-]. destruct (IH _ eq_refl) as [Hl Hf]. split; [simpl; now rewrite Hl|].
    constructor; [|exact Hf].
    unfold py_index in Ei.
    destruct ((0 <=? _) && _)%Z; [|discriminate].
    destruct (l !! _) as [y|] eqn:Ey; [|discriminate].
    injection Ei as <-. apply list_elem_of_In. eapply list_elem_of_lookup_2. exact Ey.
Qed.

(** X2. Whatever the knowledge base, the query and [top_k], a text that
    [retrieve] returns holds neither U+200B nor U+FEFF; the same for the
    retrieval function of the hands-on session. *)
Theorem retrieve_output_clean `{Backend} (kb : KnowledgeBase) (chunks : list str)
    (ix : IndexFlatL2) (query : str) (k : Z) (h h' : Hidden) (s : str) :
  (retrieve kb query k h = (inr s, h') -> ~ In ZWSP s /\ ~ In BOM s)
  /\ (retrieve_relevant_rules chunks ix query h = (inr s, h') -> ~ In ZWSP s /\ ~ In BOM s).
Proof.
  assert (G : forall cs i kk, retrieve_with cs i query kk h = (inr s, h') ->
                              ~ In ZWSP s /\ ~ In BOM s).
  { intros cs i kk. unfold retrieve_with, encode. cbn.
    destruct (IndexFlatL2_search _ _ _) as [e|[D idx]]; [discriminate|].
    destruct (py_index_all _ _) as [e|texts]; [discriminate|].
    intros [= <- _]. rewrite <- !list_elem_of_In. apply sanitize_clean. }
  split.
  - unfold retrieve. destruct (_model kb), (_index kb); try discriminate. apply G.
  - apply G.
Qed.

(** A file whose content carries a zero-width space. *)
Lemma retrieve_output_clean_witness :
  let env := one_dir (of_string "kb") [(of_string "a.md", [104; ZWSP; 105])] in
  let kb := snd (fst (@KnowledgeBase_init toy_backend env (of_string "kb") 0%nat)) in
  In [104; ZWSP; 105] (_chunks kb)
  /\ @retrieve toy_backend kb (of_string "hi") 1 1%nat = (inr (of_string "hi"), 2%nat)
  /\ ~ In ZWSP (of_string "hi") /\ ~ In BOM (of_string "hi").
Proof.
  intros env kb.
  assert (E : @retrieve toy_backend kb (of_string "hi") 1 1%nat = (inr (of_string "hi"), 2%nat))
    by (vm_compute; reflexivity).
  destruct (@retrieve_output_clean toy_backend kb [] (@IndexFlatL2_new toy_backend)
              (of_string "hi") 1 1%nat 2%nat (of_string "hi")) as [H1 _].
  split; [right; left; reflexivity|]. split; [exact E|]. apply H1. exact E.
Defined.
(** X3. On a constructed knowledge base [retrieve] with [k > 0] never
    raises: it returns the join of exactly [k] texts, each of them a chunk
    of the knowledge base, and advances the embedder once. *)
Theorem retrieve_returns_k_chunks `{Backend} (kb : KnowledgeBase) (h0 : Hidden)
    (query : str) (k : Z) (h : Hidden) :
  built kb h0 -> (0 < k)%Z ->
  exists texts : list str,
    retrieve kb query k h = (inr (sanitize (join blank_line texts)), advance h)
    /\ length texts = Z.to_nat k
    /\ Forall (fun t => In t (_chunks kb)) texts.
Proof.
  intros Hb Hk.
  destruct (exists_last (proj2 (proj2 Hb))) as (front & last_chunk & Hc).
  set (xs := List.map (embed h0) (_chunks kb)).
  set (q := embed h query).
  set (hits := take (Z.to_nat k) (ranked xs q)).
  assert (Hxs : length xs = length (_chunks kb)) by apply length_map.
  destruct (hits_spec xs q (Z.to_nat k)) as (Hlen & Hel & _). fold hits in Hlen, Hel.
  destruct (py_index_all_nat (_chunks kb) (List.map snd hits)) as (texts & E & F).
  { intros i Hi. change (i ∈ hits.*2) in Hi.
    apply list_elem_of_fmap in Hi as ([d j] & -> & Hdj).
    destruct (Hel _ _ Hdj) as (x & Hx & _). simpl.
    apply lookup_lt_is_Some_2. apply lookup_lt_Some in Hx. lia. }
  set (pad := (Z.to_nat k - length hits)%nat).
  assert (Eall : py_index_all (_chunks kb)
                   (List.map (fun di => Z.of_nat (snd di)) hits ++ replicate pad (-1)%Z)
                 = inr (texts ++ replicate pad last_chunk)).
  { rewrite <- (map_map snd Z.of_nat).
    apply py_index_all_app; [exact E|]. rewrite Hc. apply py_index_all_minus_one. }
  exists (texts ++ replicate pad last_chunk). split; [|split].
  - rewrite (retrieve_built kb h0) by exact Hb. fold xs q.
    rewrite search_accepts by exact Hk. cbn [xb]. fold hits. fold pad.
    now rewrite Eall.
  - apply py_index_all_members in Eall as [Hl _]. rewrite Hl.
    rewrite length_app, length_map, length_replicate. unfold pad. lia.
  - apply py_index_all_members in Eall as [_ Hf]. exact Hf.
Qed.

Lemma retrieve_returns_k_chunks_witness :
  exists texts : list str,
    @retrieve toy_backend hello_kb (of_string "howdy") 4 0%nat
    = (inr (sanitize (join blank_line texts)), 1%nat)
    /\ length texts = 4%nat
    /\ Forall (fun t => In t (_chunks hello_kb)) texts.
Proof.
  apply (@retrieve_returns_k_chunks toy_backend hello_kb 0%nat).
  - exact hello_kb_built.
  - lia.
Defined.

(* ===================================================================== *)
(** ** [KnowledgeBase.__init__] and [_load] *)
(* ===================================================================== *)

(** X4. A construction that returns leaves a knowledge base for the
    location asked for, with at least one chunk and an index holding, at
    each position, the embedding of the chunk at that position: as many
    vectors as chunks.  The embedder has been called once. *)
Theorem construction_invariant `{Backend} (env : Env) (dir : str) (h h' : Hidden)
    (kb : KnowledgeBase) :
  KnowledgeBase_init env dir h = (inr tt, kb, h') ->
  kb_dir kb = dir
  /\ _chunks kb <> []
  /\ _model kb = Some (SentenceTransformer model_name)
  /\ h' = advance h
  /\ exists ix, _index kb = Some ix
       /\ length (xb ix) = length (_chunks kb)
       /\ forall i t, _chunks kb !! i = Some t -> xb ix !! i = Some (embed h t).
Proof.
  intros Hi. destruct (init_built _ _ _ _ _ Hi) as ((Hm & Hx & Hne) & Hh & Hd).
  repeat (split; [assumption|]).
  eexists. split; [exact Hx|]. cbn [xb]. split; [apply length_map|].
  intros i t Ht. change (List.map (embed h) (_chunks kb)) with (embed h <$> _chunks kb).
  now rewrite list_lookup_fmap, Ht.
Qed.

Lemma construction_invariant_witness :
  kb_dir hello_kb = of_string "kb"
  /\ _chunks hello_kb <> []
  /\ exists ix, _index hello_kb = Some ix /\ length (xb ix) = length (_chunks hello_kb).
Proof.
  destruct (@construction_invariant toy_backend hello_env (of_string "kb") 0%nat 1%nat hello_kb)
    as (H1 & H2 & _ & _ & ix & H3 & H4 & _).
  - vm_compute. reflexivity.
  - split; [exact H1|]. split; [exact H2|]. exists ix. auto.
Defined.




(** X6. [_load_files] depends on the outside world only through the
    listing of the directory and the contents of the files whose name ends
    in [.md]: two environments that agree on these give the same corpus or
    the same exception.  No other file is read. *)
Theorem load_files_reads_only_md `{Backend} (env1 env2 : Env) (self : KnowledgeBase) :
  os_listdir env1 (kb_dir self) = os_listdir env2 (kb_dir self) ->
  (forall names f, os_listdir env1 (kb_dir self) = inr names ->
                   In f names -> endswith (of_string ".md") f = true ->
                   open_read env1 (os_path_join (kb_dir self) f)
                   = open_read env2 (os_path_join (kb_dir self) f)) ->
  _load_files env1 self = _load_files env2 self.
Proof.
  intros Hl Hr. unfold _load_files. rewrite <- Hl.
  destruct (os_listdir env1 (kb_dir self)) as [e|names] eqn:El; [reflexivity|].
  assert (G : forall files acc,
             (forall f, In f files -> In f (md_files names)) ->
             read_files env1 (kb_dir self) files acc = read_files env2 (kb_dir self) files acc).
  { induction files as [|f files IH]; intros acc Hsub; [reflexivity|]. simpl.
    destruct (proj1 (md_files_In names f) (Hsub f (or_introl eq_refl))) as [Hin He].
    rewrite <- (Hr names f eq_refl Hin He).
    destruct (open_read env1 (os_path_join (kb_dir self) f)); [reflexivity|].
    apply IH. intros g Hg. apply Hsub. now right. }
  apply G. auto.
Qed.

(** Two directories that differ in a file that is not eligible. *)
Lemma load_files_reads_only_md_witness :
  let self := @Build_KnowledgeBase toy_backend (of_string "kb") [] None None in
  let env1 := one_dir (of_string "kb")
                [(of_string "a.md", of_string "hello"); (of_string "b.txt", of_string "x")] in
  let env2 := one_dir (of_string "kb")
                [(of_string "a.md", of_string "hello"); (of_string "b.txt", of_string "y")] in
  open_read env1 (of_string "kb/b.txt") <> open_read env2 (of_string "kb/b.txt")
  /\ @_load_files toy_backend env1 self = @_load_files toy_backend env2 self.
Proof.
  intros self env1 env2. split; [vm_compute; discriminate|].
  apply (@load_files_reads_only_md toy_backend env1 env2 self).
  - reflexivity.
  - intros names f [= <-] [<-|[<-|[]]] He; [reflexivity|discriminate].
Defined.
(* ===================================================================== *)
(** ** The chunks of any corpus *)
(* ===================================================================== *)

Lemma gap_rest_head s r :
  gap s = Some r -> match r with c :: _ => is_nl c = false | [] => True end.
Proof.
  revert r. induction s as [|c t IH]; intros r; [rewrite gap_nil; discriminate|].
  rewrite gap_cons.
  assert (Hnl : (if is_nl c then Some t else None) = Some r -> gap t = None ->
                match r with x :: _ => is_nl x = false | [] => True end).
  { destruct (is_nl c); [|discriminate]. intros [= <-] Hg.
    destruct t as [|x t']; [exact I|].
    destruct (is_nl x) eqn:Ex; [|reflexivity].
    rewrite gap_cons, (is_nl_isspace x Ex), Ex in Hg.
    destruct (gap t'); discriminate. }
  destruct (isspace c) eqn:Hc.
  - destruct (gap t) as [r'|] eqn:G; [intros [= <-]; now apply IH|].
    intros Hr. now apply Hnl.
  - destruct (is_nl c) eqn:En; [|discriminate].
    apply is_nl_isspace in En. congruence.
Qed.

(** While a chunk is being read, no paragraph break starts inside it. *)
Lemma no_match_no_break x s :
  (forall u v, x = u ++ v -> v <> [] -> match_here paragraph_break (v ++ s) = None) ->
  ~ blank_line_break x.
Proof.
  intros Hinv (u & w & v' & E & Hw).
  specialize (Hinv u (NL :: w ++ NL :: v') E ltac:(discriminate)).
  cbn [app] in Hinv. rewrite break_cons, is_nl_NL, <- app_assoc in Hinv.
  cbn [app] in Hinv. now apply gap_complete in Hinv.
Qed.

Lemma pieces_no_break_inside : forall (n : nat) (s cur : str),
  (length s <= n)%nat ->
  (forall u v, rev cur = u ++ v -> v <> [] -> match_here paragraph_break (v ++ s) = None) ->
  Forall (fun c => ~ blank_line_break c) (pieces cur s).
Proof.
  induction n as [|n IH]; intros s cur Hn Hinv.
  - destruct s; [|simpl in Hn; lia]. rewrite pieces_nil.
    constructor; [|constructor]. eapply no_match_no_break; eauto.
  - destruct s as [|c t].
    { rewrite pieces_nil. constructor; [|constructor]. eapply no_match_no_break; eauto. }
    simpl in Hn. destruct (match_here paragraph_break (c :: t)) as [r|] eqn:E.
    + rewrite (pieces_hit _ _ _ E). constructor; [eapply no_match_no_break; eauto|].
      apply IH.
      * apply break_shorter in E. simpl in E. lia.
      * intros u v Huv Hv. simpl in Huv. symmetry in Huv.
        apply app_eq_nil in Huv as [_ ->]. congruence.
    + rewrite (pieces_miss _ _ _ E). apply IH; [lia|].
      intros u v Huv Hv. simpl in Huv.
      destruct (exists_last Hv) as (v0 & x & ->).
      rewrite app_assoc in Huv. apply app_inj_tail in Huv as [Hcur <-].
      rewrite <- app_assoc. cbn [app].
      destruct v0 as [|y v0]; [exact E|].
      apply (Hinv u (y :: v0) Hcur). discriminate.
Qed.

Lemma pieces_nonempty_chunks : forall (n : nat) (s cur : str),
  (length s <= n)%nat -> ends_solid s ->
  cur <> [] \/ (exists c t, s = c :: t /\ is_nl c = false) ->
  Forall (fun c => c <> []) (pieces cur s).
Proof.
  assert (Hrev : forall cur : str, cur <> [] -> rev cur <> []).
  { intros cur Hc E. apply Hc. rewrite <- (rev_involutive cur), E. reflexivity. }
  induction n as [|n IH]; intros s cur Hn He Hstart.
  - destruct s; [|simpl in Hn; lia]. rewrite pieces_nil.
    destruct Hstart as [Hc|(c & t & Hs & _)]; [|discriminate].
    constructor; [auto|constructor].
  - destruct s as [|c t].
    { rewrite pieces_nil. destruct Hstart as [Hc|(c & t & Hs & _)]; [|discriminate].
      constructor; [auto|constructor]. }
    simpl in Hn. destruct (match_here paragraph_break (c :: t)) as [r|] eqn:E.
    + rewrite (pieces_hit _ _ _ E).
      destruct (break_rest _ _ He E) as (Hr & Her & _).
      pose proof (break_shorter _ _ E) as Hlen. simpl in Hlen.
      rewrite break_cons in E. destruct (is_nl c) eqn:Ec; [|discriminate].
      constructor.
      * destruct Hstart as [Hc|(c' & t' & [= <- <-] & Hc')]; [auto|congruence].
      * apply IH; [lia|exact Her|]. right.
        apply gap_rest_head in E. destruct r as [|x r']; [congruence|]. eauto.
    + rewrite (pieces_miss _ _ _ E). apply IH; [lia| |left; discriminate].
      apply (ends_solid_suffix [c] t He).
Qed.

Lemma strip_ends_solid corpus : ends_solid (strip corpus).
Proof. destruct (strip_decompose corpus) as (? & ? & ? & ? & ? & ? & ? & He & _). exact He. Qed.

(** Every chunk is a contiguous part of the trimmed corpus. *)
Lemma chunker_parts corpus : Forall (fun c => part_of c (strip corpus)) (chunker corpus).
Proof.
  unfold chunker. rewrite re_split_pieces.
  destruct (scan_spec (length (strip corpus)) (strip corpus) [] (le_n _)
              (strip_ends_solid corpus)) as (done & cur' & Hp & _ & Hparts & pre & Hpre).
  rewrite Hp. cbn [rev app] in Hparts, Hpre. apply Forall_app. split; [exact Hparts|].
  constructor; [|constructor]. exists pre, []. now rewrite app_nil_r.
Qed.

(** X7. For every corpus: each chunk is a contiguous part of the trimmed
    corpus and has no blank-line break inside.  If the corpus is not blank,
    no chunk is empty; if it is blank (or empty), the chunker returns the
    single chunk [""]. *)
Theorem chunker_chunks (corpus : str) :
  Forall (fun c => part_of c (strip corpus) /\ ~ blank_line_break c) (chunker corpus)
  /\ (blank corpus = false -> Forall (fun c => c <> []) (chunker corpus))
  /\ (blank corpus = true -> chunker corpus = [[]]).
Proof.
  pose proof (chunker_parts corpus) as Hparts.
  unfold chunker in *. rewrite re_split_pieces in *.
  pose proof (strip_ends_solid corpus) as He.
  destruct (strip_decompose corpus) as (lw & tw & _ & _ & _ & _ & Hs & _ & Hb1 & Hb2).
  split; [|split].
  - apply Forall_and. split.
    + exact Hparts.
    + apply (pieces_no_break_inside (length (strip corpus))); [lia|].
      intros u v Huv Hv. simpl in Huv. symmetry in Huv.
      apply app_eq_nil in Huv as [_ ->]. congruence.
  - intros Hb. apply (pieces_nonempty_chunks (length (strip corpus))); [lia|exact He|].
    right. specialize (Hb2 Hb). destruct (strip corpus) as [|c t]; [congruence|].
    exists c, t. split; [reflexivity|]. simpl in Hs.
    destruct (is_nl c) eqn:Ec; [|reflexivity]. apply is_nl_isspace in Ec. congruence.
  - intros Hb. rewrite (Hb1 Hb). reflexivity.
Qed.

Lemma chunker_chunks_witness :
  Forall (fun c => c <> []) (chunker (of_string "  a

b
c 


d "))
  /\ chunker [NL; 32; NL] = [[]].
Proof.
  destruct (chunker_chunks (of_string "  a

b
c 


d ")) as (_ & H & _).
  destruct (chunker_chunks [NL; 32; NL]) as (_ & _ & H').
  split; [apply H|apply H']; reflexivity.
Defined.
(* ===================================================================== *)
(** ** [get_kb] over the life of the process *)
(* ===================================================================== *)

Lemma run_calls_keeps `{Backend} (calls : list (Env * str)) : forall (m : Machine) loc r,
  cache_sound m -> _kb_cache m !! loc = Some r ->
  cache_sound (run_calls calls m)
  /\ _kb_cache (run_calls calls m) !! loc = Some r
  /\ heap (run_calls calls m) !! r = heap m !! r.
Proof.
  induction calls as [|[e l] calls IH]; intros m loc r Hs Hc; [auto|].
  cbn [run_calls fold_left fst snd]. fold (run_calls calls (snd (get_kb e l m))).
  assert (Hstep : _kb_cache (snd (get_kb e l m)) !! loc = Some r
                  /\ heap (snd (get_kb e l m)) !! r = heap m !! r).
  { destruct (decide (l = loc)) as [->|Hne].
    - rewrite (get_kb_hit _ _ _ _ Hc). auto.
    - now apply get_kb_other. }
  destruct Hstep as [Hc' Hh'].
  destruct (IH (snd (get_kb e l m)) loc r (get_kb_cache_sound e l m Hs) Hc') as (H1 & H2 & H3).
  split; [exact H1|]. split; [exact H2|]. now rewrite H3.
Qed.

(** X8. Once [get_kb(loc)] has returned an instance, every later
    [get_kb(loc)] returns that instance, however many other calls (for any
    locations, succeeding or failing, with the files changed at will) come
    in between; the object behind it is never replaced or altered, and the
    call itself leaves the state as it is. *)
Theorem cache_entry_permanent `{Backend} (env env' : Env) (loc : str) (m m1 : Machine)
    (r : nat) (calls : list (Env * str)) :
  reachable m ->
  get_kb env loc m = (inr r, m1) ->
  get_kb env' loc (run_calls calls m1) = (inr r, run_calls calls m1)
  /\ is_Some (heap m1 !! r)
  /\ heap (run_calls calls m1) !! r = heap m1 !! r.
Proof.
  intros Hreach Hget.
  pose proof (get_kb_cached _ _ _ _ _ Hget) as Hc.
  assert (Hs1 : cache_sound m1).
  { change m1 with (snd (inr (A:=exn) r, m1)). rewrite <- Hget.
    apply get_kb_cache_sound. now apply reachable_cache_sound. }
  destruct (run_calls_keeps calls m1 loc r Hs1 Hc) as (_ & Hc2 & Hh2).
  split; [now apply get_kb_hit|]. split; [|exact Hh2].
  destruct (Hs1 _ _ Hc) as (kb & _ & Hk & _). eauto.
Qed.

(** The files of [kb] change, another location is asked for and fails,
    [kb] is asked for again: still instance 0. *)
Lemma cache_entry_permanent_witness :
  let m1 := snd (@get_kb toy_backend hello_env (of_string "kb") (@start toy_backend 0%nat)) in
  let changed := one_dir (of_string "kb") [(of_string "z.md", of_string "new text")] in
  let calls := [(changed, of_string "docs"); (changed, of_string "kb")] in
  @get_kb toy_backend changed (of_string "kb") (@run_calls toy_backend calls m1)
  = (inr 0%nat, @run_calls toy_backend calls m1)
  /\ heap (@run_calls toy_backend calls m1) !! 0%nat = Some hello_kb.
Proof.
  intros m1 changed calls.
  destruct (@cache_entry_permanent toy_backend hello_env changed (of_string "kb")
              (@start toy_backend 0%nat) m1 0%nat calls) as (H1 & _ & H3).
  - constructor.
  - vm_compute. reflexivity.
  - split; [exact H1|]. rewrite H3. vm_compute. reflexivity.
Defined.

Lemma get_kb_heap_log `{Backend} env loc (m : Machine) :
  length (heap m) = length (constructions m) ->
  (forall d r, _kb_cache m !! d = Some r -> In d (constructions m)) ->
  length (heap (snd (get_kb env loc m))) = length (constructions (snd (get_kb env loc m)))
  /\ (forall d r, _kb_cache (snd (get_kb env loc m)) !! d = Some r ->
                  In d (constructions (snd (get_kb env loc m)))).
Proof.
  intros Hl Hin. destruct (_kb_cache m !! loc) as [r0|] eqn:E.
  - rewrite (get_kb_hit _ _ _ _ E). auto.
  - rewrite (get_kb_miss _ _ _ E).
    destruct (KnowledgeBase_init env loc (hidden m)) as [[[e|[]] obj] h']; cbn.
    + rewrite !length_app, Hl. split; [reflexivity|].
      intros d r Hd. apply in_or_app. left. eauto.
    + rewrite !length_app, Hl. split; [reflexivity|].
      intros d r Hd. apply in_or_app.
      destruct (decide (loc = d)) as [<-|Hne]; [right; now left|].
      rewrite lookup_insert_ne in Hd by exact Hne. left. eauto.
Qed.

(** X9. In every state the process can reach, each entry of the cache
    refers to an object that is a knowledge base for the entry's own
    location, with its model set and an index over the embeddings of its
    chunks; two locations never share an object; every cached location
    occurs in the log of constructor calls, and that log is as long as the
    list of objects created. *)
Theorem cache_invariant `{Backend} (m : Machine) :
  reachable m ->
  (forall d r, _kb_cache m !! d = Some r ->
     exists kb h0, heap m !! r = Some kb /\ kb_dir kb = d
                   /\ _model kb = Some (SentenceTransformer model_name)
                   /\ _index kb = Some {| xb := List.map (embed h0) (_chunks kb) |}
                   /\ _chunks kb <> [])
  /\ (forall d1 d2 r, _kb_cache m !! d1 = Some r -> _kb_cache m !! d2 = Some r -> d1 = d2)
  /\ (forall d r, _kb_cache m !! d = Some r -> In d (constructions m))
  /\ length (heap m) = length (constructions m).
Proof.
  intros Hr. pose proof (reachable_cache_sound m Hr) as Hs.
  assert (Hlog : length (heap m) = length (constructions m)
                 /\ (forall d r, _kb_cache m !! d = Some r -> In d (constructions m))).
  { clear Hs. induction Hr as [h|env dir m _ [IH1 IH2]].
    - split; [reflexivity|]. intros d r Hd. cbn in Hd. rewrite lookup_empty in Hd. discriminate.
    - now apply get_kb_heap_log. }
  split; [|split; [|split]].
  - intros d r Hd. destruct (Hs d r Hd) as (kb & h0 & Hk & Hdir & Hm & Hx & Hne).
    exists kb, h0. auto.
  - intros d1 d2 r H1 H2.
    destruct (Hs _ _ H1) as (kb1 & _ & Hk1 & Hd1 & _).
    destruct (Hs _ _ H2) as (kb2 & _ & Hk2 & Hd2 & _). congruence.
  - apply Hlog.
  - apply Hlog.
Qed.

Lemma cache_invariant_witness :
  let m := @run_calls toy_backend
             [(hello_env, of_string "docs"); (hello_env, of_string "kb")]
             (@start toy_backend 0%nat) in
  @reachable toy_backend m
  /\ _kb_cache m !! of_string "kb" = Some 1%nat
  /\ length (heap m) = length (constructions m).
Proof.
  intros m.
  assert (Hr : @reachable toy_backend m).
  { unfold m. cbn [run_calls fold_left fst snd]. do 2 constructor. constructor. }
  destruct (@cache_invariant toy_backend m Hr) as (_ & _ & _ & Hl).
  split; [exact Hr|]. split; [vm_compute; reflexivity|exact Hl].
Defined.
(* ===================================================================== *)
(** ** The retrieval cell of the hands-on session *)
(* ===================================================================== *)

Lemma remove_char_id c s : ~ In c s -> remove_char c s = s.
Proof.
  unfold remove_char. induction s as [|x s IH]; [reflexivity|]. intros Hn. simpl.
  destruct (N.eqb_spec x c) as [->|Hne]; [exfalso; apply Hn; now left|].
  simpl. f_equal. apply IH. intros Hin. apply Hn. now right.
Qed.

Lemma sanitize_id s : ~ In ZWSP s -> ~ In BOM s -> sanitize s = s.
Proof.
  intros Hz Hb. unfold sanitize. rewrite (remove_char_id ZWSP s Hz). now apply remove_char_id.
Qed.

Lemma part_of_In c s x : part_of c s -> In x c -> In x s.
Proof. intros (a & b & ->) Hx. apply in_or_app. right. apply in_or_app. now left. Qed.

Lemma join_In sep xs x :
  In x (join sep xs) -> In x sep \/ exists t, In t xs /\ In x t.
Proof.
  induction xs as [|t xs IH]; [intros []|].
  destruct xs as [|t' xs'].
  - simpl. intros Hx. right. exists t. auto.
  - change (join sep (t :: t' :: xs')) with (t ++ sep ++ join sep (t' :: xs')).
    intros Hx. apply in_app_or in Hx as [Hx|Hx]; [right; exists t; split; [now left|exact Hx]|].
    apply in_app_or in Hx as [Hx|Hx]; [now left|].
    destruct (IH Hx) as [Hs|(u & Hu & Hxu)]; [now left|].
    right. exists u. split; [now right|exact Hxu].
Qed.

(** The characters of a chunk are characters of the corpus. *)
Lemma chunker_chars corpus c x : In c (chunker corpus) -> In x c -> In x corpus.
Proof.
  intros Hc Hx. pose proof (chunker_parts corpus) as Hparts.
  rewrite Forall_forall in Hparts.
  pose proof (Hparts c ltac:(now apply list_elem_of_In)) as Hp.
  destruct (strip_decompose corpus) as (lw & tw & E & _).
  rewrite E. apply in_or_app. right. apply in_or_app. left.
  eapply part_of_In; eauto.
Qed.

Lemma search_label_count `{Backend} (ix : IndexFlatL2) q k D idx :
  IndexFlatL2_search ix q k = inr (D, idx) -> length idx = Z.to_nat k.
Proof.
  unfold IndexFlatL2_search. destruct (k <=? 0)%Z; [discriminate|].
  intros [= _ <-]. rewrite length_app, length_map, length_replicate, length_take. lia.
Qed.

(** X10. In the hands-on session the knowledge text is cleaned before it
    is chunked, so no chunk holds U+200B or U+FEFF and the cleaning of the
    output changes nothing: whenever [retrieve_relevant_rules] returns, the
    text is the plain join, by blank lines, of exactly three of the
    session's chunks. *)
Theorem session_retrieval `{Backend} (KB_MARKDOWN : str) (index : IndexFlatL2)
    (query : str) (h h' : Hidden) (s : str) :
  retrieve_relevant_rules (session_chunks KB_MARKDOWN) index query h = (inr s, h') ->
  exists texts : list str,
    s = join blank_line texts
    /\ length texts = 3%nat
    /\ Forall (fun t => In t (session_chunks KB_MARKDOWN) /\ ~ In ZWSP t /\ ~ In BOM t) texts.
Proof.
  unfold retrieve_relevant_rules, retrieve_with, encode. cbn [List.map].
  destruct (IndexFlatL2_search _ _ _) as [e|[D idx]] eqn:Es; [discriminate|].
  destruct (py_index_all _ _) as [e|texts] eqn:Ep; [discriminate|].
  intros [= <- _].
  destruct (py_index_all_members _ _ _ Ep) as [Hl Hf].
  assert (Hclean : forall t, In t (session_chunks KB_MARKDOWN) -> ~ In ZWSP t /\ ~ In BOM t).
  { intros t Ht. unfold session_chunks in Ht. split; intros Hx;
      apply (chunker_chars _ _ _ Ht) in Hx; apply list_elem_of_In in Hx;
      now apply (sanitize_clean KB_MARKDOWN) in Hx. }
  exists texts. split; [|split].
  - assert (Hin : forall t, In t texts -> ~ In ZWSP t /\ ~ In BOM t).
    { intros t Ht. apply Hclean. rewrite Forall_forall in Hf. apply Hf.
      now apply list_elem_of_In. }
    apply sanitize_id; intros Hx; apply join_In in Hx as [Hx|(t & Ht & Hx)].
    + destruct Hx as [Hx|[Hx|[]]]; discriminate.
    + destruct (Hin t Ht) as [Hz Hb]; auto.
    + destruct Hx as [Hx|[Hx|[]]]; discriminate.
    + destruct (Hin t Ht) as [Hz Hb]; auto.
  - apply search_label_count in Es. rewrite Hl, Es. reflexivity.
  - eapply Forall_impl; [exact Hf|]. intros t Ht. split; [exact Ht|]. now apply Hclean.
Qed.

(** A knowledge text with a byte-order mark in front and two paragraphs. *)
Lemma session_retrieval_witness :
  let KB := BOM :: of_string "
# Rules

Keep logic in services.
" in
  let chunks := session_chunks KB in
  let index := fst (@session_index toy_backend chunks 0%nat) in
  chunks = [of_string "# Rules"; of_string "Keep logic in services."]
  /\ exists texts : list str,
       of_string "# Rules

Keep logic in services.

Keep logic in services." = join blank_line texts
       /\ length texts = 3%nat.
Proof.
  intros KB chunks index. split; [vm_compute; reflexivity|].
  destruct (@session_retrieval toy_backend KB index (of_string "service") 1%nat 2%nat
              (of_string "# Rules

Keep logic in services.

Keep logic in services.")) as (texts & E & Hl & _).
  - vm_compute. reflexivity.
  - exists texts. auto.
Defined.
(* ===================================================================== *)
(** ** Sample names in the two servers *)
(* ===================================================================== *)

Lemma after_last_slash_none s : existsb is_slash s = false -> after_last_slash s = s.
Proof.
  induction s as [|c t IH]; [reflexivity|]. simpl. intros H.
  apply orb_false_iff in H as [Hc Ht]. now rewrite Ht, Hc.
Qed.

Lemma after_last_slash_app x y :
  existsb is_slash y = false -> after_last_slash (x ++ 47 :: y) = y.
Proof.
  intros Hy. induction x as [|c x IH].
  - simpl. now rewrite Hy.
  - cbn [app after_last_slash]. rewrite existsb_app. cbn [existsb].
    change (is_slash 47) with true. rewrite orb_true_r. exact IH.
Qed.

Lemma after_last_slash_no_slash s : existsb is_slash (after_last_slash s) = false.
Proof.
  induction s as [|c t IH]; [reflexivity|]. simpl.
  destruct (existsb is_slash t) eqn:E; [exact IH|].
  destruct (is_slash c) eqn:Ec; [exact E|]. simpl. now rewrite Ec, E.
Qed.

Lemma delete_from_In old s k x : In x (delete_from old s k) -> In x s.
Proof.
  revert k. induction s as [|c t IH]; intros k; [intros []|].
  cbn [delete_from]. destruct k as [|k].
  - destruct (startswith old (c :: t)).
    + intros H. right. eauto.
    + intros [<-|H]; [now left|right; eauto].
  - intros H. right. eauto.
Qed.

Lemma delete_from_skip old s k : (length s <= k)%nat -> delete_from old s k = [].
Proof.
  revert k. induction s as [|c t IH]; intros k Hk; [reflexivity|].
  simpl in Hk. destruct k as [|k]; [lia|]. cbn [delete_from]. apply IH. lia.
Qed.

(** Deleting [.java] from a name whose only dot is that of the suffix. *)
Lemma delete_java_suffix base :
  ~ In 46 base -> delete_all (of_string ".java") (base ++ of_string ".java") = base.
Proof.
  unfold delete_all. induction base as [|c base IH]; intros Hn.
  - reflexivity.
  - cbn [app delete_from].
    assert (Hc : (46 =? c) = false).
    { apply N.eqb_neq. intros <-. apply Hn. now left. }
    cbn [of_string startswith]. change (N_of_ascii ".") with 46. rewrite Hc. cbn [andb].
    f_equal. apply IH. intros H. apply Hn. now right.
Qed.

Lemma last_dot_bound s i j : last_dot s i = Some j -> (i <= j < i + length s)%nat.
Proof.
  revert i j. induction s as [|c t IH]; intros i j; [discriminate|].
  cbn [last_dot length]. destruct (last_dot t (S i)) as [j'|] eqn:E.
  - intros [= <-]. apply IH in E. lia.
  - destruct (c =? 46); [|discriminate]. intros [= <-]. lia.
Qed.

Lemma last_dot_app_suffix base i :
  last_dot (base ++ of_string ".java") i = Some (i + length base)%nat.
Proof.
  revert i. induction base as [|c base IH]; intros i.
  - cbn. f_equal. lia.
  - cbn [app last_dot length]. rewrite IH. f_equal. lia.
Qed.

Lemma stem_java base : base <> [] -> stem (base ++ of_string ".java") = base.
Proof.
  intros Hne. unfold stem. rewrite last_dot_app_suffix, length_app. cbn [Nat.add].
  assert (Hl : (0 < length base)%nat) by (destruct base; [congruence|simpl; lia]).
  change (length (of_string ".java")) with 5%nat.
  destruct (Nat.ltb_spec 0 (length base)); [|lia].
  destruct (Nat.ltb_spec (length base) (length base + 5 - 1)); [|lia].
  cbn [andb]. now rewrite take_app_length.
Qed.

(** X11. The name under which a [.java] member of an archive becomes a
    sample never contains [/].  For a member [dir/base.java] whose [base] is
    not empty and has neither [/] nor [.], the tool server and the HTTP
    server give the same name, [base]. *)
Theorem sample_names (n dir base : str) :
  ~ In 47 (logical_name n)
  /\ (base <> [] -> ~ In 47 base -> ~ In 46 base ->
      logical_name (dir ++ of_string "/" ++ base ++ of_string ".java") = base
      /\ logical_name (base ++ of_string ".java") = base
      /\ stem (base ++ of_string ".java") = base).
Proof.
  assert (Hslash : forall s : str, ~ In 47 s -> existsb is_slash s = false).
  { intros s Hs. destruct (existsb is_slash s) eqn:E; [|reflexivity].
    apply existsb_exists in E as (x & Hx & Ex). apply N.eqb_eq in Ex. now subst x. }
  split.
  - unfold logical_name, delete_all. intros H. apply delete_from_In in H.
    pose proof (after_last_slash_no_slash n) as Hn.
    assert (E : existsb is_slash (after_last_slash n) = true)
      by (apply existsb_exists; exists 47; split; [exact H|reflexivity]).
    congruence.
  - intros Hne Hs Hd.
    assert (Hbs : existsb is_slash (base ++ of_string ".java") = false).
    { rewrite existsb_app, (Hslash base Hs). reflexivity. }
    split; [|split].
    + unfold logical_name. cbn [of_string app].
      change (N_of_ascii "/") with 47.
      rewrite after_last_slash_app by exact Hbs. now apply delete_java_suffix.
    + unfold logical_name. rewrite after_last_slash_none by exact Hbs.
      now apply delete_java_suffix.
    + now apply stem_java.
Qed.

Lemma sample_names_witness :
  logical_name (of_string "src/main/UserController.java") = of_string "UserController"
  /\ stem (of_string "UserController.java") = of_string "UserController".
Proof.
  destruct (sample_names [] (of_string "src/main") (of_string "UserController")) as [_ H].
  destruct H as (H1 & _ & H3).
  - discriminate.
  - vm_compute. intuition discriminate.
  - vm_compute. intuition discriminate.
  - split; [exact H1|exact H3].
Defined.

(** Where the two servers differ: a base name with [.java] inside. *)
Example sample_names_differ :
  logical_name (of_string "a/Old.java.java") = of_string "Old"
  /\ stem (of_string "Old.java.java") = of_string "Old.java".
Proof. split; reflexivity. Qed.
(* ===================================================================== *)
(** ** Collecting the samples *)
(* ===================================================================== *)

Lemma dict_get_set d k v k' :
  dict_get (dict_set d k v) k' = if decide (k = k') then Some v else dict_get d k'.
Proof.
  induction d as [|[k0 v0] d IH]; simpl.
  - destruct (decide (k = k')); reflexivity.
  - destruct (decide (k0 = k)) as [->|Hne]; simpl.
    + destruct (decide (k = k')); reflexivity.
    + rewrite IH. destruct (decide (k0 = k')) as [->|Hne'].
      * destruct (decide (k = k')); [congruence|reflexivity].
      * reflexivity.
Qed.

Lemma dict_set_keys d k v x :
  In x (List.map fst (dict_set d k v)) <-> x = k \/ In x (List.map fst d).
Proof.
  induction d as [|[k0 v0] d IH]; simpl.
  - intuition.
  - destruct (decide (k0 = k)) as [->|Hne]; simpl; [intuition|].
    rewrite IH. intuition.
Qed.

Lemma dict_set_NoDup d k v :
  List.NoDup (List.map fst d) -> List.NoDup (List.map fst (dict_set d k v)).
Proof.
  induction d as [|[k0 v0] d IH]; simpl; intros Hd.
  - constructor; [intros []|constructor].
  - inversion Hd as [|? ? Hn Hd']; subst.
    destruct (decide (k0 = k)) as [->|Hne]; simpl.
    + constructor; assumption.
    + constructor; [|auto]. rewrite dict_set_keys. intros [E|Hin]; [congruence|contradiction].
Qed.

Lemma collect_samples_spec `{Externals} members : forall names acc samples,
  collect_samples members names acc = inr samples ->
  List.NoDup (List.map fst acc) ->
  List.NoDup (List.map fst samples)
  /\ forall k v,
       dict_get samples k = Some v <->
       (exists pre n post,
           names = pre ++ n :: post /\ endswith (of_string ".java") n = true
           /\ logical_name n = k /\ zip_read members n = Some (inr v)
           /\ forall n', In n' post -> endswith (of_string ".java") n' = true ->
                         logical_name n' <> k)
       \/ (dict_get acc k = Some v
           /\ forall n', In n' names -> endswith (of_string ".java") n' = true ->
                         logical_name n' <> k).
Proof.
  induction names as [|n names IH]; intros acc samples Hc Hnd.
  - injection Hc as <-. split; [exact Hnd|]. intros k v. split.
    + intros Hg. right. split; [exact Hg|]. intros n' [].
    + intros [(pre & n & post & E & _)|[Hg _]]; [|exact Hg].
      destruct pre; discriminate.
  - cbn [collect_samples] in Hc.
    destruct (endswith (of_string ".java") n) eqn:He.
    + destruct (zip_read members n) as [[e|text]|] eqn:Ez; try discriminate.
      destruct (IH _ _ Hc (dict_set_NoDup acc (logical_name n) text Hnd)) as [Hnd' Hspec].
      split; [exact Hnd'|]. intros k v. rewrite Hspec, dict_get_set. split.
      * intros [(pre & m & post & -> & Hm)|[Hg Hlater]].
        -- left. exists (n :: pre), m, post. auto.
        -- destruct (decide (logical_name n = k)) as [Ek|Hne].
           ++ injection Hg as <-. left. exists [], n, names. auto.
           ++ right. split; [exact Hg|]. intros n' [<-|Hn']; auto.
      * intros [(pre & m & post & E & Hm1 & Hm2 & Hm3 & Hm4)|[Hg Hnone]].
        -- destruct pre as [|x pre]; injection E as <- ->.
           ++ right. rewrite Ez in Hm3. injection Hm3 as <-.
              destruct (decide (logical_name n = k)); [auto|contradiction].
           ++ left. exists pre, m, post. auto.
        -- right. destruct (decide (logical_name n = k)) as [Ek|Hne].
           ++ exfalso. apply (Hnone n); auto. now left.
           ++ split; [exact Hg|]. intros n' Hn'. apply Hnone. now right.
    + destruct (IH _ _ Hc Hnd) as [Hnd' Hspec].
      split; [exact Hnd'|]. intros k v. rewrite Hspec. split.
      * intros [(pre & m & post & -> & Hm)|[Hg Hlater]].
        -- left. exists (n :: pre), m, post. auto.
        -- right. split; [exact Hg|]. intros n' [<-|Hn'] He'; [congruence|auto].
      * intros [(pre & m & post & E & Hm1 & Hm)|[Hg Hnone]].
        -- destruct pre as [|x pre]; injection E as <- ->; [congruence|].
           left. exists pre, m, post. auto.
        -- right. split; [exact Hg|]. intros n' Hn'. apply Hnone. now right.
Qed.

(** X12. When the tool server has collected the samples of an archive,
    each sample name occurs once, and a name [k] maps to the text [v]
    exactly when [v] is the text of the last [.java] member, in the order of
    the archive, whose sample name is [k]: of members that share a sample
    name (the same file name in two folders) only the last one is kept. *)
Theorem samples_last_member_wins `{Externals} (members : list (str * (failure + str)))
    (names : list str) (samples : dict) :
  collect_samples members names [] = inr samples ->
  List.NoDup (List.map fst samples)
  /\ forall k v,
       dict_get samples k = Some v <->
       exists pre n post,
         names = pre ++ n :: post /\ endswith (of_string ".java") n = true
         /\ logical_name n = k /\ zip_read members n = Some (inr v)
         /\ forall n', In n' post -> endswith (of_string ".java") n' = true ->
                       logical_name n' <> k.
Proof.
  intros Hc. destruct (collect_samples_spec members names [] samples Hc) as [Hnd Hspec].
  { constructor. }
  split; [exact Hnd|]. intros k v. rewrite Hspec. split.
  - intros [Hex|[Hg _]]; [exact Hex|discriminate].
  - intros Hex. now left.
Qed.

(** An archive with [a/User.java] and [b/User.java]: one sample, the
    second file. *)
Lemma samples_last_member_wins_witness :
  let samples := [(of_string "User", of_string "class User { int b; }")] in
  @collect_samples toy_externals toy_members (List.map fst toy_members) [] = inr samples
  /\ List.NoDup (List.map fst samples)
  /\ exists pre n post,
       List.map fst toy_members = pre ++ n :: post
       /\ logical_name n = of_string "User"
       /\ @zip_read toy_externals toy_members n = Some (inr (of_string "class User { int b; }")).
Proof.
  intros samples.
  assert (E : @collect_samples toy_externals toy_members (List.map fst toy_members) []
              = inr samples) by reflexivity.
  destruct (@samples_last_member_wins toy_externals toy_members _ samples E) as [Hnd Hspec].
  split; [exact E|]. split; [exact Hnd|].
  destruct (proj1 (Hspec (of_string "User") (of_string "class User { int b; }")) eq_refl)
    as (pre & n & post & H1 & _ & H3 & H4 & _).
  exists pre, n, post. auto.
Defined.

Lemma collect_stems_spec `{Externals} : forall (found : list (str * (failure + str))) acc samples,
  collect_stems found acc = inr samples ->
  List.NoDup (List.map fst acc) ->
  List.NoDup (List.map fst samples)
  /\ forall k v,
       dict_get samples k = Some v <->
       (exists pre name post,
           found = pre ++ (name, inr v) :: post /\ stem name = k
           /\ forall name' c, In (name', c) post -> stem name' <> k)
       \/ (dict_get acc k = Some v /\ forall name' c, In (name', c) found -> stem name' <> k).
Proof.
  induction found as [|[name [e|text]] found IH]; intros acc samples Hc Hnd.
  - injection Hc as <-. split; [exact Hnd|]. intros k v. split.
    + intros Hg. right. split; [exact Hg|]. intros ? ? [].
    + intros [(pre & n & post & E & _)|[Hg _]]; [|exact Hg]. destruct pre; discriminate.
  - discriminate.
  - cbn [collect_stems] in Hc.
    destruct (IH _ _ Hc (dict_set_NoDup acc (stem name) text Hnd)) as [Hnd' Hspec].
    split; [exact Hnd'|]. intros k v. rewrite Hspec, dict_get_set. split.
    + intros [(pre & m & post & -> & Hm)|[Hg Hlater]].
      * left. exists ((name, inr text) :: pre), m, post. auto.
      * destruct (decide (stem name = k)) as [Ek|Hne].
        -- injection Hg as <-. left. exists [], name, found. auto.
        -- right. split; [exact Hg|]. intros n' c [[= <- <-]|Hn']; eauto.
    + intros [(pre & m & post & E & Hm1 & Hm2)|[Hg Hnone]].
      * destruct pre as [|x pre].
        -- injection E as <- <- <-. right.
           destruct (decide (stem name = k)); [auto|contradiction].
        -- injection E as <- ->. left. exists pre, m, post. auto.
      * right. destruct (decide (stem name = k)) as [Ek|Hne].
        -- exfalso. apply (Hnone name (inr text)); auto. now left.
        -- split; [exact Hg|]. intros n' c Hn'. apply (Hnone n' c). now right.
Qed.

(** X13. In the HTTP server the samples of an upload are keyed by the
    stem of the file found: when all files can be read, each stem occurs
    once and maps to the text of the last file found with that stem; when
    one cannot be read, the loop raises the exception of the first such
    file. *)
Theorem stems_last_file_wins `{Externals} (found : list (str * (failure + str))) :
  (forall samples, collect_stems found [] = inr samples ->
     List.NoDup (List.map fst samples)
     /\ forall k v,
          dict_get samples k = Some v <->
          exists pre name post,
            found = pre ++ (name, inr v) :: post /\ stem name = k
            /\ forall name' c, In (name', c) post -> stem name' <> k)
  /\ (forall e, collect_stems found [] = inl e ->
        exists pre name f post,
          found = pre ++ (name, inl f) :: post /\ e = External f
          /\ Forall (fun item => exists text, snd item = inr text) pre).
Proof.
  split.
  - intros samples Hc.
    destruct (collect_stems_spec found [] samples Hc) as [Hnd Hspec]; [constructor|].
    split; [exact Hnd|]. intros k v. rewrite Hspec. split.
    + intros [Hex|[Hg _]]; [exact Hex|discriminate].
    + intros Hex. now left.
  - generalize (@nil (str * str)).
    induction found as [|[name [f|text]] found IH]; intros acc e Hc.
    + discriminate.
    + injection Hc as <-. exists [], name, f, found. repeat split. constructor.
    + cbn [collect_stems] in Hc. destruct (IH _ _ Hc) as (pre & n & f & post & -> & -> & Hpre).
      exists ((name, inr text) :: pre), n, f, post. repeat split.
      constructor; [eauto|exact Hpre].
Qed.

Lemma stems_last_file_wins_witness :
  let found := [(of_string "User.java", inr (of_string "class User { int a; }"));
                (of_string "User.java", inr (of_string "class User { int b; }"))] in
  let samples := [(of_string "User", of_string "class User { int b; }")] in
  @collect_stems toy_externals found [] = inr samples
  /\ List.NoDup (List.map fst samples).
Proof.
  intros found samples.
  assert (E : @collect_stems toy_externals found [] = inr samples) by reflexivity.
  destruct (@stems_last_file_wins toy_externals found) as [H _].
  destruct (H samples E) as [Hnd _]. auto.
Defined.
(* ===================================================================== *)
(** ** The entry points of the two servers *)
(* ===================================================================== *)

(** X14. When [OPENAI_API_KEY] is unset or empty in the environment the
    settings were loaded from, no entry point reaches the fixer or the file
    system: both tools answer with the error [OPENAI_API_KEY missing] and
    both routes raise an HTTP 400 with that detail, whatever they are
    given.  A tool of any other name is answered [unknown tool], with or
    without key. *)
Theorem missing_key_stops_every_entry `{Externals} {E : Type} (int : str -> E + Z)
    (environ : gmap str str) (settings : Settings) :
  load_settings int environ = inr settings ->
  (environ !! of_string "OPENAI_API_KEY" = None
   \/ environ !! of_string "OPENAI_API_KEY" = Some []) ->
  (forall arguments,
      call_tool settings (of_string "fix_from_json") arguments
      = (Return (ReplyError (of_string "OPENAI_API_KEY missing")), [])
      /\ call_tool settings (of_string "fix_from_zipbytes") arguments
         = (Return (ReplyError (of_string "OPENAI_API_KEY missing")), []))
  /\ (forall payload tr,
        fix_from_json settings payload tr
        = (HTTPException 400 (of_string "OPENAI_API_KEY missing"), tr))
  /\ (forall tr,
        fix_from_zip settings tr
        = (HTTPException 400 (of_string "OPENAI_API_KEY missing"), tr))
  /\ (forall name arguments,
        name <> of_string "fix_from_json" -> name <> of_string "fix_from_zipbytes" ->
        call_tool settings name arguments
        = (Return (ReplyError (of_string "unknown tool")), [])).
Proof.
  intros Hload Henv.
  assert (Hget : openai_api_key settings = getenv environ (of_string "OPENAI_API_KEY") []).
  { unfold load_settings in Hload. destruct (int _); [discriminate|].
    injection Hload as <-. reflexivity. }
  assert (Hkey : openai_api_key settings = []).
  { rewrite Hget. unfold getenv. destruct Henv as [-> | ->]; reflexivity. }
  split; [|split; [|split]].
  - intros arguments. unfold call_tool. rewrite Hkey. split; reflexivity.
  - intros payload tr. unfold fix_from_json. rewrite Hkey. reflexivity.
  - intros tr. unfold fix_from_zip. rewrite Hkey. reflexivity.
  - intros name arguments H1 H2. unfold call_tool.
    destruct (decide (name = of_string "fix_from_json")); [contradiction|].
    destruct (decide (name = of_string "fix_from_zipbytes")); [contradiction|]. reflexivity.
Qed.

(** An environment that sets only [TOP_K]. *)
Lemma missing_key_stops_every_entry_witness :
  let environ : gmap str str := {[ of_string "TOP_K" := of_string "3" ]} in
  let int := fun s : str => if decide (s = of_string "3") then inr 3%Z else inl tt in
  exists settings,
    load_settings int environ = inr settings
    /\ top_k settings = 3%Z
    /\ @fix_from_json toy_externals settings [(of_string "User", of_string "class User {}")] []
       = (HTTPException 400 (of_string "OPENAI_API_KEY missing"), []).
Proof.
  intros environ int.
  destruct (load_settings int environ) as [e|settings] eqn:El; [vm_compute in El; discriminate|].
  exists settings. split; [reflexivity|].
  destruct (@missing_key_stops_every_entry toy_externals unit int environ settings El)
    as (_ & H2 & _).
  - left. reflexivity.
  - split; [|apply H2].
    vm_compute in El. injection El as <-. reflexivity.
Defined.
Section routes.
Context `{Externals}.

Lemma perform_spec ev tr :
  (perform ev tr = (Return tt, tr ++ [ev]) /\ fs_raises tr ev = None)
  \/ (exists f, perform ev tr = (Raise (External f), tr ++ [ev]) /\ fs_raises tr ev = Some f).
Proof. unfold perform. destruct (fs_raises tr ev); eauto. Qed.

Lemma bind_Return {A B} (m : io A) (f : A -> io B) tr a tr' :
  m tr = (Return a, tr') -> bind m f tr = f a tr'.
Proof. unfold bind. now intros ->. Qed.

Lemma bind_Raise {A B} (m : io A) (f : A -> io B) tr e tr' :
  m tr = (Raise e, tr') -> bind m f tr = (Raise e, tr').
Proof. unfold bind. now intros ->. Qed.

(** The operations of [fresh_dir] and of [write_all], as lists. *)
Lemma fresh_dir_spec d tr :
  let ops := (if path_exists tr d then [Rmtree d] else []) ++ [Mkdir d] in
  fresh_dir d tr = (Return tt, tr ++ ops)
  \/ exists f done rest,
       fresh_dir d tr = (Raise (External f), tr ++ done) /\ ops = done ++ rest /\ done <> [].
Proof.
  unfold fresh_dir, bind, exists_, ret. destruct (path_exists tr d).
  - destruct (perform_spec (Rmtree d) tr) as [[-> _]|(f & -> & _)].
    + destruct (perform_spec (Mkdir d) (tr ++ [Rmtree d])) as [[-> _]|(f & -> & _)].
      * left. now rewrite <- app_assoc.
      * right. exists f, [Rmtree d; Mkdir d], []. rewrite <- app_assoc. repeat split. discriminate.
    + right. exists f, [Rmtree d], [Mkdir d]. repeat split. discriminate.
  - destruct (perform_spec (Mkdir d) tr) as [[-> _]|(f & -> & _)].
    + left. reflexivity.
    + right. exists f, [Mkdir d], []. repeat split. discriminate.
Qed.

Lemma write_all_spec d items : forall tr,
  let ops := List.map (fun kv => WriteText d (fst kv) (snd kv)) items in
  write_all d items tr = (Return tt, tr ++ ops)
  \/ exists f done rest,
       write_all d items tr = (Raise (External f), tr ++ done) /\ ops = done ++ rest /\ done <> [].
Proof.
  induction items as [|[fn content] items IH]; intros tr; cbn zeta.
  - left. cbn. now rewrite app_nil_r.
  - cbn [write_all List.map fst snd]. unfold bind.
    destruct (perform_spec (WriteText d fn content) tr) as [[-> _]|(f & -> & _)].
    + destruct (IH (tr ++ [WriteText d fn content])) as [->|(f & done & rest & -> & E & Hd)].
      * left. now rewrite <- app_assoc.
      * right. exists f, (WriteText d fn content :: done), rest.
        rewrite <- app_assoc. cbn zeta in E. rewrite E. repeat split. discriminate.
    + right. exists f, [WriteText d fn content], (List.map (fun kv => WriteText d (fst kv) (snd kv)) items).
      repeat split. discriminate.
Qed.

End routes.

(** X15. The route [POST /api/v1/fix/json], with a key configured: an
    empty payload is refused with HTTP 400 before anything is done.
    Otherwise the fixer is called once, with the payload, before any file
    operation; if it raises, nothing on disk is touched.  If it returns, the
    operations that follow are, in this order, the removal of the output
    directory if it exists, its creation, and one write per fixed file into
    it; the route returns the fixed map exactly when all of them were done,
    and otherwise raises after a non-empty part of them. *)
Theorem fix_from_json_effects `{Externals} (settings : Settings) (payload : dict)
    (tr : list event) :
  openai_api_key settings <> [] ->
  (payload = [] ->
     fix_from_json settings payload tr = (HTTPException 400 (of_string "Empty payload"), tr))
  /\ (payload <> [] ->
      forall e, fix_all payload = inl e ->
        fix_from_json settings payload tr = (Raise (External e), tr ++ [FixAll payload]))
  /\ (payload <> [] ->
      forall fixed, fix_all payload = inr fixed ->
        let out := fixed_dir settings in
        let tr1 := tr ++ [FixAll payload] in
        let ops := (if path_exists tr1 out then [Rmtree out] else []) ++ [Mkdir out]
                   ++ List.map (fun kv => WriteText out (fst kv) (snd kv)) fixed in
        fix_from_json settings payload tr = (Return (JSONResponse fixed), tr1 ++ ops)
        \/ exists f done rest,
             fix_from_json settings payload tr = (Raise (External f), tr1 ++ done)
             /\ ops = done ++ rest /\ done <> []).
Proof.
  intros Hkey. unfold fix_from_json.
  destruct (openai_api_key settings) as [|c key]; [congruence|].
  split; [|split].
  - intros ->. reflexivity.
  - intros Hp e He. destruct payload as [|kv payload]; [congruence|].
    unfold bind, call_fix_all. now rewrite He.
  - intros Hp fixed Hf. destruct payload as [|kv payload]; [congruence|].
    cbn zeta.
    set (tr1 := tr ++ [FixAll (kv :: payload)]). set (out := fixed_dir settings).
    assert (Hcall : call_fix_all (kv :: payload) tr = (Return fixed, tr1))
      by (unfold call_fix_all; now rewrite Hf).
    rewrite (bind_Return _ _ _ _ _ Hcall).
    destruct (fresh_dir_spec out tr1) as [Hfresh|(f & done & rest & Hfresh & E & Hd)].
    + rewrite (bind_Return _ _ _ _ _ Hfresh).
      destruct (write_all_spec out fixed
                  (tr1 ++ (if path_exists tr1 out then [Rmtree out] else []) ++ [Mkdir out]))
        as [Hw|(f & done & rest & Hw & E & Hd)].
      * left. rewrite (bind_Return _ _ _ _ _ Hw). unfold ret.
        rewrite <- !app_assoc. reflexivity.
      * right. exists f, (((if path_exists tr1 out then [Rmtree out] else []) ++ [Mkdir out]) ++ done), rest.
        rewrite (bind_Raise _ _ _ _ _ Hw). cbn zeta in E. rewrite E, <- !app_assoc.
        split; [reflexivity|split; [reflexivity|]].
        destruct (path_exists tr1 out); discriminate.
    + right. exists f, done, (rest ++ List.map (fun kv0 => WriteText out (fst kv0) (snd kv0)) fixed).
      rewrite (bind_Raise _ _ _ _ _ Hfresh).
      cbn zeta in E. split; [reflexivity|split; [|exact Hd]].
      rewrite (app_assoc _ [Mkdir out]), E, <- !app_assoc. reflexivity.
Qed.

Lemma fix_from_json_effects_witness :
  let settings := {| openai_api_key := of_string "sk-test"; openai_api_base := [];
                     settings_kb_dir := []; model := []; top_k := 5;
                     fixed_dir := of_string "/data/fixed" |} in
  let payload := [(of_string "User", of_string "class User {}")] in
  @fix_from_json toy_externals settings [] [] = (HTTPException 400 (of_string "Empty payload"), [])
  /\ @fix_from_json toy_externals settings payload []
     = (Return (JSONResponse [(of_string "User.java", of_string "class User {}")]),
        [FixAll payload; Mkdir (of_string "/data/fixed");
         WriteText (of_string "/data/fixed") (of_string "User.java") (of_string "class User {}")]).
Proof.
  intros settings payload.
  destruct (@fix_from_json_effects toy_externals settings [] []) as (H1 & _); [discriminate|].
  destruct (@fix_from_json_effects toy_externals settings payload []) as (_ & _ & H3);
    [discriminate|].
  split; [now apply H1|].
  destruct (H3 ltac:(discriminate) [(of_string "User.java", of_string "class User {}")] eq_refl)
    as [E|(f & done & rest & E & _)].
  - rewrite E. reflexivity.
  - vm_compute in E. discriminate.
Defined.
Section zip_route.
Context `{Externals}.

Lemma perform_quiet ev tr : fs_raises tr ev = None -> perform ev tr = (Return tt, tr ++ [ev]).
Proof. unfold perform. now intros ->. Qed.

Lemma collect_stems_nonempty found : forall samples fixed,
  collect_stems found samples = inr fixed -> samples <> [] \/ found <> [] -> fixed <> [].
Proof.
  induction found as [|[name [e|text]] found IH]; intros samples fixed E Hne; cbn in E.
  - injection E as <-. destruct Hne as [Hne|Hne]; congruence.
  - discriminate.
  - apply (IH _ _ E). left. intros Hnil.
    pose proof (dict_get_set samples (stem name) text (stem name)) as Hg.
    rewrite Hnil in Hg. cbn in Hg. destruct (decide (stem name = stem name)); congruence.
Qed.

Lemma fresh_dir_quiet d tr :
  let ops := (if path_exists tr d then [Rmtree d] else []) ++ [Mkdir d] in
  (forall tr' ev, In ev ops -> fs_raises tr' ev = None) ->
  fresh_dir d tr = (Return tt, tr ++ ops).
Proof.
  cbn zeta. intros Hquiet. unfold fresh_dir.
  rewrite (bind_Return _ _ tr (path_exists tr d) tr) by reflexivity.
  destruct (path_exists tr d).
  - rewrite (bind_Return _ _ tr tt (tr ++ [Rmtree d]))
      by (apply perform_quiet, Hquiet; cbn; auto).
    rewrite perform_quiet by (apply Hquiet; cbn; auto).
    now rewrite <- app_assoc.
  - rewrite (bind_Return _ _ tr tt tr) by reflexivity.
    apply perform_quiet, Hquiet. cbn. auto.
Qed.

End zip_route.

(** X16. The route [POST /api/v1/fix/zip], with a key configured and no
    failing operation on [/tmp/in]: the upload directory is removed if it
    exists, created again and the archive extracted into it.  The route
    answers HTTP 400 [No Java files found in zip] when the search for
    [*.java] under it finds nothing, having called no fixer and touched no
    other directory.  When it finds files and all of them are read, the
    sample map is not empty, and from there the route does what
    [POST /api/v1/fix/json] does with that map as its payload, returning the
    fixed files as an archive instead of as JSON. *)
Theorem fix_from_zip_effects `{Externals} (settings : Settings) (tr : list event)
    (found : list (str * (failure + str))) :
  let prep := (if path_exists tr tmp_root then [Rmtree tmp_root] else [])
              ++ [Mkdir tmp_root; ExtractAll tmp_root] in
  openai_api_key settings <> [] ->
  (forall tr' ev, In ev prep -> fs_raises tr' ev = None) ->
  rglob (tr ++ prep) tmp_root (of_string "*.java") = found ->
  (found = [] ->
     fix_from_zip settings tr
     = (HTTPException 400 (of_string "No Java files found in zip"), tr ++ prep))
  /\ (found <> [] -> forall samples, collect_stems found [] = inr samples ->
        samples <> []
        /\ fix_from_zip settings tr
           = match fix_from_json settings samples (tr ++ prep) with
             | (Return (JSONResponse fixed_map), tr') =>
                 (Return (StreamingResponse (write_zip fixed_map)), tr')
             | other => other
             end).
Proof.
  intros prep Hkey Hquiet Hfound.
  assert (Hprep : bind (fresh_dir tmp_root) (fun _ => perform (ExtractAll tmp_root)) tr
                  = (Return tt, tr ++ prep)).
  { rewrite (bind_Return _ _ tr tt
               (tr ++ (if path_exists tr tmp_root then [Rmtree tmp_root] else [])
                   ++ [Mkdir tmp_root])).
    - rewrite perform_quiet.
      + unfold prep. rewrite <- !app_assoc. reflexivity.
      + apply Hquiet. unfold prep. apply in_or_app. right. cbn. auto.
    - apply fresh_dir_quiet. intros tr' ev Hin. apply Hquiet. unfold prep.
      apply in_app_or in Hin as [Hin|Hin]; apply in_or_app; [now left|right].
      destruct Hin as [<-|[]]. cbn. auto. }
  assert (Hstart : forall k : unit -> io response,
            bind (fresh_dir tmp_root) (fun _ => bind (perform (ExtractAll tmp_root)) k) tr
            = k tt (tr ++ prep)).
  { intros k. revert Hprep. unfold bind.
    destruct (fresh_dir tmp_root tr) as [[[]|c d|e] tr1]; try discriminate.
    destruct (perform (ExtractAll tmp_root) tr1) as [[[]|c d|e] tr2]; try discriminate.
    now intros [= ->]. }
  unfold fix_from_zip, fix_from_json.
  destruct (openai_api_key settings) as [|c key]; [congruence|].
  rewrite Hstart. unfold bind at 1. cbn beta. rewrite Hfound. split.
  - intros ->. reflexivity.
  - intros Hne samples Hs.
    assert (Hsn : samples <> []) by (apply (collect_stems_nonempty _ _ _ Hs); now right).
    split; [exact Hsn|].
    unfold bind at 1. cbn beta. rewrite Hfound, Hs.
    destruct samples as [|kv samples]; [congruence|].
    unfold bind, ret.
    destruct (call_fix_all (kv :: samples) (tr ++ prep)) as [[fixed|c' d|e] tr1]; try reflexivity.
    destruct (fresh_dir (fixed_dir settings) tr1) as [[[]|c' d|e] tr2]; try reflexivity.
    destruct (write_all (fixed_dir settings) fixed tr2) as [[[]|c' d|e] tr3]; reflexivity.
Qed.

Lemma fix_from_zip_effects_witness :
  let settings := {| openai_api_key := of_string "sk-test"; openai_api_base := [];
                     settings_kb_dir := []; model := []; top_k := 5;
                     fixed_dir := of_string "/data/fixed" |} in
  @fix_from_zip toy_externals settings []
  = (Return (StreamingResponse
       (of_string "User.java" ++ [NL] ++ of_string "class User { int b; }" ++ [NL])),
     [Mkdir tmp_root; ExtractAll tmp_root;
      FixAll [(of_string "User", of_string "class User { int b; }")];
      Mkdir (of_string "/data/fixed");
      WriteText (of_string "/data/fixed") (of_string "User.java")
        (of_string "class User { int b; }")]).
Proof.
  intros settings.
  destruct (@fix_from_zip_effects toy_externals settings [] _
              ltac:(discriminate) ltac:(reflexivity) eq_refl) as [_ Hrun].
  destruct (Hrun ltac:(discriminate) [(of_string "User", of_string "class User { int b; }")]
              eq_refl) as [_ E].
  rewrite E. reflexivity.
Defined.
Lemma collect_samples_no_java `{Externals} members : forall names acc,
  (forall n, In n names -> endswith (of_string ".java") n = false) ->
  collect_samples members names acc = inr acc.
Proof.
  induction names as [|n names IH]; intros acc Hno; cbn [collect_samples]; [reflexivity|].
  rewrite (Hno n) by (now left). apply IH. intros n' Hin. apply Hno. now right.
Qed.

(** X17. The tool [fix_from_zipbytes], with a key configured: a call
    without the argument [zip_b64] raises [KeyError] and calls no fixer.
    With an archive that decodes and opens and whose [.java] members are
    all read, the tool calls the fixer as the tool [fix_from_json] does with
    the collected samples as its arguments, and answers with the archive of
    the same fixed map.  It has no check for an archive without [.java]
    members: the fixer is then called with the empty map. *)
Theorem zip_tool_as_json_tool `{Externals} (settings : Settings) (arguments : dict) :
  openai_api_key settings <> [] ->
  (dict_get arguments (of_string "zip_b64") = None ->
     call_tool settings (of_string "fix_from_zipbytes") arguments
     = (Raise (KeyError (of_string "zip_b64")), []))
  /\ (forall z b members samples,
        dict_get arguments (of_string "zip_b64") = Some z ->
        b64decode z = inr b ->
        open_zip b = inr members ->
        collect_samples members (List.map fst members) [] = inr samples ->
        call_tool settings (of_string "fix_from_zipbytes") arguments
        = match call_tool settings (of_string "fix_from_json") samples with
          | (Return (ReplyFixed fixed), tr) => (Return (ReplyZip (b64encode (write_zip fixed))), tr)
          | other => other
          end
        /\ ((forall n, In n (List.map fst members) -> endswith (of_string ".java") n = false) ->
            samples = []
            /\ snd (call_tool settings (of_string "fix_from_zipbytes") arguments) = [FixAll []])).
Proof.
  intros Hkey.
  assert (Hrun : forall z b members samples,
            dict_get arguments (of_string "zip_b64") = Some z ->
            b64decode z = inr b ->
            open_zip b = inr members ->
            collect_samples members (List.map fst members) [] = inr samples ->
            call_tool settings (of_string "fix_from_zipbytes") arguments
            = match fix_all samples with
              | inl e => (Raise (External e), [FixAll samples])
              | inr fixed => (Return (ReplyZip (b64encode (write_zip fixed))), [FixAll samples])
              end).
  { intros z b members samples Hz Hb Ho Hs. unfold call_tool.
    destruct (decide (of_string "fix_from_zipbytes" = of_string "fix_from_json")) as [E|_];
      [discriminate E|].
    destruct (decide (of_string "fix_from_zipbytes" = of_string "fix_from_zipbytes")) as [_|N];
      [|congruence].
    destruct (openai_api_key settings) as [|c key]; [congruence|].
    now rewrite Hz, Hb, Ho, Hs. }
  split.
  - intros Hz. unfold call_tool.
    destruct (decide (of_string "fix_from_zipbytes" = of_string "fix_from_json")) as [E|_];
      [discriminate E|].
    destruct (decide (of_string "fix_from_zipbytes" = of_string "fix_from_zipbytes")) as [_|N];
      [|congruence].
    destruct (openai_api_key settings) as [|c key]; [congruence|].
    now rewrite Hz.
  - intros z b members samples Hz Hb Ho Hs. split.
    + rewrite (Hrun _ _ _ _ Hz Hb Ho Hs). unfold call_tool.
      destruct (decide (of_string "fix_from_json" = of_string "fix_from_json")) as [_|N];
        [|congruence].
      destruct (openai_api_key settings) as [|c key]; [congruence|].
      destruct (fix_all samples); reflexivity.
    + intros Hno. rewrite (collect_samples_no_java _ _ _ Hno) in Hs.
      injection Hs as <-. split; [reflexivity|].
      rewrite (Hrun _ _ _ [] Hz Hb Ho (collect_samples_no_java _ _ _ Hno)).
      destruct (fix_all []); reflexivity.
Qed.

Lemma zip_tool_as_json_tool_witness :
  let settings := {| openai_api_key := of_string "sk-test"; openai_api_base := [];
                     settings_kb_dir := []; model := []; top_k := 5;
                     fixed_dir := of_string "/data/fixed" |} in
  @call_tool toy_externals settings (of_string "fix_from_zipbytes")
    [(of_string "zip_b64", of_string "UEsDBA")]
  = (Return (ReplyZip (of_string "User.java" ++ [NL] ++ of_string "class User { int b; }" ++ [NL])),
     [FixAll [(of_string "User", of_string "class User { int b; }")]]).
Proof.
  intros settings.
  destruct (@zip_tool_as_json_tool toy_externals settings
              [(of_string "zip_b64", of_string "UEsDBA")] ltac:(discriminate)) as [_ Hrun].
  destruct (Hrun (of_string "UEsDBA") (of_string "UEsDBA") toy_members
              [(of_string "User", of_string "class User { int b; }")]
              eq_refl eq_refl eq_refl eq_refl) as [E _].
  rewrite E. reflexivity.
Defined.
